(** * FastScape RB+GPU: a shallow embedding of the per-step pipeline

    The development follows [fastscape_RB+GPU.cpp]: the class
    [FastScape_RBGPU] becomes the record [FastScape], every member function
    becomes a function on that record, and the loops become folds over the
    index ranges they traverse.

    Modelling conventions.
    - [int] values are integers in [Z].  Signed overflow is undefined in C++,
      so the embedding covers the runs in which [8*width*height] fits an
      [int]; no wrap-around is involved.
    - [double] values are rationals ([Q]).  The slope that
      [ComputeReceivers] compares is rounded to binary64 ([round64]), since
      the comparison decides which receiver is stored; the elevations that
      [AddUplift] and [Erode] store are kept exact, and the statements about
      them are inequalities that rounding to nearest preserves.  [SQRT2] is
      the double that the literal of the source denotes; the other literals
      are taken at their written value.
    - An array is a total map from its index to its content ([Z -> A]); a
      store is the pointwise update [upd].  The ranges actually accessed are
      the subject of separate lemmas.
    - The two [while] loops (level construction, Newton-Raphson) take a fuel
      argument and return [None] when it runs out; totality is proved
      separately for the states of a run.
    - The assertions of [FastScape_RBGPU::GenerateOrder] compare with
      capacities that no grid of 2 x 2 cells or more reaches (see the lemmas
      on the capacity of [stack] and [levels]); they are not part of the
      embedding of that class.  Those of [FastScape_RBP::GenerateOrder] can
      fail and are modelled.  The OpenACC and OpenMP pragmas are ignored:
      the embedding is the sequential reading of the code. *)

From Stdlib Require Import ZArith QArith Qabs Qround Qpower List Lia Lqa Bool
  Permutation FinFun.
Import ListNotations.

Open Scope Z_scope.

(** ** Arrays and counted loops *)

Definition upd {A : Type} (a : Z -> A) (i : Z) (v : A) : Z -> A :=
  fun j => if Z.eqb j i then v else a j.

(** The indices visited by [for(int i=lo;i<hi;i++)]. *)
Definition zrange (lo hi : Z) : list Z :=
  map (fun k => lo + Z.of_nat k) (seq 0 (Z.to_nat (hi - lo))).

Definition for_loop {S : Type} (lo hi : Z) (body : Z -> S -> S) (s : S) : S :=
  fold_left (fun s i => body i s) (zrange lo hi) s.

(** The same loop when the body may fail. *)
Fixpoint foldM {S : Type} (body : Z -> S -> option S) (l : list Z) (s : S)
  : option S :=
  match l with
  | [] => Some s
  | i :: l' => match body i s with
               | Some s' => foldM body l' s'
               | None => None
               end
  end.

Definition for_loopM {S : Type} (lo hi : Z) (body : Z -> S -> option S) (s : S)
  : option S :=
  foldM body (zrange lo hi) s.

(** ** Rounding to binary64 *)

(** For [q > 0], the exponent [e] with [2^e <= q < 2^(e+1)]. *)
Definition Qlog2 (q : Q) : Z :=
  let e := Z.log2 (Qnum q) - Z.log2 (Z.pos (Qden q)) in
  if Qle_bool (Qpower 2 e) q then e else e - 1.

(** The nearest integer, ties to the even one. *)
Definition round_even (q : Q) : Z :=
  let f := Qfloor q in
  match Qcompare (q - inject_Z f) (1 # 2) with
  | Lt => f
  | Gt => f + 1
  | Eq => if Z.even f then f else f + 1
  end.

(** A positive rational rounded to a multiple of the unit in the last of
    53 bits; below [2^-1022] the unit stays [2^-1074] (subnormals). *)
Definition round_pos (q : Q) : Q :=
  let e := Z.max (Qlog2 q) (-1022) in
  let ulp := Qpower 2 (e - 52) in
  Qred (inject_Z (round_even (q / ulp)) * ulp).

(** The result of a [double] operation whose exact value is [q], in the
    default rounding mode.  Results of magnitude [2^1024] and more, which
    the machine turns into infinities, are outside the model: where
    [round64] decides a result, the elevations are bounded. *)
Definition round64 (q : Q) : Q :=
  match Qcompare q 0 with
  | Eq => 0%Q
  | Gt => round_pos q
  | Lt => (- round_pos (- q))%Q
  end.

(** ** Constants of the class *)

Definition NO_FLOW : Z := -1.

(** The literal that the source gives for [SQRT2]. *)
Definition SQRT2_literal : Q :=
  1414213562373095048801688724209698078569671875376948
  # 1000000000000000000000000000000000000000000000000000.

(** The double [0x1.6a09e667f3bcdp+0] that the literal denotes. *)
Definition SQRT2 : Q := 6369051672525773 # 4503599627370496.

Definition keq : Q := 2 # 1000000.
Definition neq : Q := 2.
Definition ueq : Q := 2 # 1000.
Definition dt : Q := 1000.
Definition tol : Q := 1 # 1000.
Definition cell_area : Q := 40000.

Definition dr (n : Z) : Q :=
  match n with
  | 0 => 1 | 1 => SQRT2 | 2 => 1 | 3 => SQRT2
  | 4 => 1 | 5 => SQRT2 | 6 => 1 | 7 => SQRT2
  | _ => 0
  end.

(** [nshift] as the constructor fills it from [width0]. *)
Definition nshift_of (width0 : Z) (n : Z) : Z :=
  match n with
  | 0 => -1 | 1 => - width0 - 1 | 2 => - width0 | 3 => - width0 + 1
  | 4 => 1 | 5 => width0 + 1 | 6 => width0 | 7 => width0 - 1
  | _ => 0
  end.

(** [slope>max_slope] on doubles. *)
Definition Qgtb (a b : Q) : bool :=
  match Qcompare a b with Gt => true | _ => false end.

(** ** The simulation state *)

Record FastScape : Type := mkFastScape {
  width : Z;
  height : Z;
  size : Z;
  h : Z -> Q;
  accum : Z -> Q;
  rec : Z -> Z;
  donor : Z -> Z;
  ndon : Z -> Z;
  stack : Z -> Z;
  nshift : Z -> Z;
  levels : Z -> Z;
  nlevel : Z
}.

Definition set_h (st : FastScape) (v : Z -> Q) : FastScape :=
  mkFastScape (width st) (height st) (size st) v (accum st) (rec st)
    (donor st) (ndon st) (stack st) (nshift st) (levels st) (nlevel st).

Definition set_accum (st : FastScape) (v : Z -> Q) : FastScape :=
  mkFastScape (width st) (height st) (size st) (h st) v (rec st)
    (donor st) (ndon st) (stack st) (nshift st) (levels st) (nlevel st).

Definition set_rec (st : FastScape) (v : Z -> Z) : FastScape :=
  mkFastScape (width st) (height st) (size st) (h st) (accum st) v
    (donor st) (ndon st) (stack st) (nshift st) (levels st) (nlevel st).

Definition set_donor (st : FastScape) (v : Z -> Z) : FastScape :=
  mkFastScape (width st) (height st) (size st) (h st) (accum st) (rec st)
    v (ndon st) (stack st) (nshift st) (levels st) (nlevel st).

Definition set_ndon (st : FastScape) (v : Z -> Z) : FastScape :=
  mkFastScape (width st) (height st) (size st) (h st) (accum st) (rec st)
    (donor st) v (stack st) (nshift st) (levels st) (nlevel st).

Definition set_stack (st : FastScape) (v : Z -> Z) : FastScape :=
  mkFastScape (width st) (height st) (size st) (h st) (accum st) (rec st)
    (donor st) (ndon st) v (nshift st) (levels st) (nlevel st).

Definition set_levels (st : FastScape) (v : Z -> Z) : FastScape :=
  mkFastScape (width st) (height st) (size st) (h st) (accum st) (rec st)
    (donor st) (ndon st) (stack st) (nshift st) v (nlevel st).

Definition set_nlevel (st : FastScape) (v : Z) : FastScape :=
  mkFastScape (width st) (height st) (size st) (h st) (accum st) (rec st)
    (donor st) (ndon st) (stack st) (nshift st) (levels st) v.

(** ** Initialisation *)

(** [GenerateRandomTerrain]: [rnd c] is the value [rand()/(double)RAND_MAX]
    drawn for cell [c]. *)
Definition terrain_cell (rnd : Z -> Q) (width height y x : Z) (st : FastScape)
  : FastScape :=
  let c := y * width + x in
  let st := set_h st (upd (h st) c (rnd c)) in
  let st :=
    if (x =? 0) || (y =? 0) || (x =? width - 1) || (y =? height - 1)
    then set_h st (upd (h st) c 0%Q) else st in
  if (x =? 1) || (y =? 1) || (x =? width - 2) || (y =? height - 2)
  then set_h st (upd (h st) c 0%Q) else st.

Definition GenerateRandomTerrain (rnd : Z -> Q) (st : FastScape) : FastScape :=
  let height := height st in
  let width := width st in
  for_loop 0 height (fun y st =>
    for_loop 0 width (fun x st => terrain_cell rnd width height y x st) st) st.

(** The content of memory that the program allocates without initialising. *)
Record Uninit : Type := mkUninit {
  u_h : Z -> Q;
  u_accum : Z -> Q;
  u_rec : Z -> Z;
  u_donor : Z -> Z;
  u_ndon : Z -> Z;
  u_stack : Z -> Z;
  u_levels : Z -> Z;
  u_nlevel : Z
}.

(** The constructor [FastScape_RBGPU(width0,height0)]. *)
Definition new_FastScape (width0 height0 : Z) (rnd : Z -> Q) (u : Uninit)
  : FastScape :=
  GenerateRandomTerrain rnd
    (mkFastScape width0 height0 (width0 * height0) (u_h u) (u_accum u)
       (u_rec u) (u_donor u) (u_ndon u) (u_stack u) (nshift_of width0)
       (u_levels u) (u_nlevel u)).

(** ** Stage 1: receivers *)

(** The scan of the eight neighbours of [c]; the pair is
    [(max_slope, max_n)]. *)
Definition receiver_scan (st : FastScape) (c : Z) : Q * Z :=
  for_loop 0 8 (fun n '(max_slope, max_n) =>
    let slope :=
      round64 (round64 (h st c - h st (c + nshift st n)) / dr n) in
    if Qgtb slope max_slope then (slope, n) else (max_slope, max_n))
    (0%Q, NO_FLOW).

Definition ComputeReceivers (st : FastScape) : FastScape :=
  let height := height st in
  let width := width st in
  for_loop 2 (height - 2) (fun y st =>
    for_loop 2 (width - 2) (fun x st =>
      let c := y * width + x in
      set_rec st (upd (rec st) c (snd (receiver_scan st c)))) st) st.

(** ** Stage 2: donors *)

(** One iteration of the neighbour loop of [ComputeDonors] for the focal
    cell [c]. *)
Definition donor_visit (c : Z) (ni : Z) (st : FastScape) : FastScape :=
  let n := c + nshift st ni in
  if negb (rec st n =? NO_FLOW) && (n + nshift st (rec st n) =? c) then
    let st := set_donor st (upd (donor st) (8 * c + ndon st c) n) in
    set_ndon st (upd (ndon st) c (ndon st c + 1))
  else st.

Definition donor_cell (c : Z) (st : FastScape) : FastScape :=
  let st := set_ndon st (upd (ndon st) c 0) in
  for_loop 0 8 (donor_visit c) st.

Definition ComputeDonors (st : FastScape) : FastScape :=
  let height := height st in
  let width := width st in
  for_loop 1 (height - 1) (fun y st =>
    for_loop 1 (width - 1) (fun x st =>
      let c := y * width + x in
      donor_cell c st) st) st.

(** ** Stage 3: ordering *)

(** Local variables of [GenerateOrder] travel with the state. *)
Record OrderLocals : Type := mkOrder {
  o_st : FastScape;
  nstack : Z;
  level_bottom : Z;
  level_top : Z
}.

(** [stack[nstack++] = c]. *)
Definition push_stack (c : Z) (o : OrderLocals) : OrderLocals :=
  mkOrder (set_stack (o_st o) (upd (stack (o_st o)) (nstack o) c))
          (nstack o + 1) (level_bottom o) (level_top o).

(** [levels[nlevel++] = nstack]. *)
Definition push_level (o : OrderLocals) : OrderLocals :=
  let st := o_st o in
  let st := set_levels st (upd (levels st) (nlevel st) (nstack o)) in
  mkOrder (set_nlevel st (nlevel st + 1)) (nstack o)
          (level_bottom o) (level_top o).

(** The seed loop; the members [width] and [height] are not assigned in
    [GenerateOrder], so they are read once. *)
Definition load_seeds (o : OrderLocals) : OrderLocals :=
  let height := height (o_st o) in
  let width := width (o_st o) in
  for_loop 1 (height - 1) (fun y o =>
    for_loop 1 (width - 1) (fun x o =>
      let c := y * width + x in
      if rec (o_st o) c =? NO_FLOW then push_stack c o else o) o) o.

(** The body of [for(int si=level_bottom;si<level_top;si++)]. *)
Definition expand_cell (si : Z) (o : OrderLocals) : OrderLocals :=
  let c := stack (o_st o) si in
  for_loop 0 (ndon (o_st o) c) (fun k o =>
    let n := donor (o_st o) (8 * c + k) in
    push_stack n o) o.

Definition level_step (o : OrderLocals) : OrderLocals :=
  let o := mkOrder (o_st o) (nstack o) (level_top o) (level_top o) in
  let o := mkOrder (o_st o) (nstack o) (level_bottom o) (nstack o) in
  let o := for_loop (level_bottom o) (level_top o) expand_cell o in
  push_level o.

(** [while(level_bottom<level_top)]. *)
Fixpoint level_loop (fuel : nat) (o : OrderLocals) : option OrderLocals :=
  if level_bottom o <? level_top o then
    match fuel with
    | O => None
    | S fuel' => level_loop fuel' (level_step o)
    end
  else Some o.

Definition GenerateOrder_locals (fuel : nat) (st : FastScape)
  : option OrderLocals :=
  let st := set_levels st (upd (levels st) 0 0) in
  let st := set_nlevel st 1 in
  let o := mkOrder st 0 0 0 in
  let o := load_seeds o in
  let o := push_level o in
  let o := mkOrder (o_st o) (nstack o) (-1) 0 in
  match level_loop fuel o with
  | None => None
  | Some o =>
      Some (mkOrder (set_nlevel (o_st o) (nlevel (o_st o) - 1))
                    (nstack o) (level_bottom o) (level_top o))
  end.

Definition GenerateOrder (fuel : nat) (st : FastScape) : option FastScape :=
  option_map o_st (GenerateOrder_locals fuel st).

(** ** Stage 4: flow accumulation *)

Definition accum_cell (si : Z) (st : FastScape) : FastScape :=
  let c := stack st si in
  if negb (rec st c =? NO_FLOW) then
    let n := c + nshift st (rec st c) in
    set_accum st (upd (accum st) n (accum st n + accum st c)%Q)
  else st.

Definition accum_level (li : Z) (st : FastScape) : FastScape :=
  let lvlstart := levels st li in
  let lvlend := levels st (li + 1) in
  for_loop lvlstart lvlend accum_cell st.

(** [for(int li=nlevel-2;li>=1;li--)] visits [nlevel-2], ..., [1]. *)
Definition ComputeFlowAcc (st : FastScape) : FastScape :=
  let st := for_loop 0 (size st) (fun i st =>
              set_accum st (upd (accum st) i cell_area)) st in
  fold_left (fun st li => accum_level li st)
            (rev (zrange 1 (nlevel st - 1))) st.

(** ** Stage 5: uplift *)

Definition AddUplift (st : FastScape) : FastScape :=
  let height := height st in
  let width := width st in
  for_loop 2 (height - 2) (fun y st =>
    for_loop 2 (width - 2) (fun x st =>
      let c := y * width + x in
      set_h st (upd (h st) c (h st c + ueq * dt)%Q)) st) st.

(** ** Stage 6: erosion *)

(** [std::pow(x,neq)] and [std::pow(x,neq-1)] at the compiled-in [neq = 2]. *)
Definition pow_neq (x : Q) : Q := (x * x)%Q.
Definition pow_neq_1 (x : Q) : Q := x.

(** One Newton-Raphson update of [hnew]. *)
Definition newton_step (fact h0 hn hnew : Q) : Q :=
  (hnew - (hnew - h0 + fact * pow_neq (hnew - hn))
          / (1 + fact * neq * pow_neq_1 (hnew - hn)))%Q.

(** [while(std::abs(diff)>tol)]. *)
Fixpoint newton (fuel : nat) (fact h0 hn hnew hp diff : Q) : option Q :=
  if Qgtb (Qabs diff) tol then
    match fuel with
    | O => None
    | S fuel' =>
        let hnew := newton_step fact h0 hn hnew in
        let diff := (hnew - hp)%Q in
        let hp := hnew in
        newton fuel' fact h0 hn hnew hp diff
    end
  else Some hnew.

Section Pipeline.

(** [std::pow(x,meq)] for the compiled-in [meq = 0.8]: the value is
    irrational in general, so the function is a parameter of the model. *)
Variable pow_meq : Q -> Q.

Definition erode_cell (fuel : nat) (si : Z) (st : FastScape)
  : option FastScape :=
  let c := stack st si in
  if rec st c =? NO_FLOW then Some st
  else
    let n := c + nshift st (rec st c) in
    let length := dr (rec st c) in
    let fact := (keq * dt * pow_meq (accum st c) / pow_neq length)%Q in
    let h0 := h st c in
    let hn := h st n in
    match newton fuel fact h0 hn h0 h0 (2 * tol)%Q with
    | None => None
    | Some hnew => Some (set_h st (upd (h st) c hnew))
    end.

Definition erode_level (fuel : nat) (li : Z) (st : FastScape)
  : option FastScape :=
  let lvlstart := levels st li in
  let lvlend := levels st (li + 1) in
  for_loopM lvlstart lvlend (erode_cell fuel) st.

Definition Erode (fuel : nat) (st : FastScape) : option FastScape :=
  for_loopM 0 (nlevel st - 1) (erode_level fuel) st.

(** ** The step driver *)

(** The body of the step loop of [run]. *)
Definition step (fuel : nat) (st : FastScape) : option FastScape :=
  let st := ComputeReceivers st in
  let st := ComputeDonors st in
  match GenerateOrder fuel st with
  | None => None
  | Some st =>
      let st := ComputeFlowAcc st in
      let st := AddUplift st in
      Erode fuel st
  end.

(** The allocations and the two initialising loops at the head of [run];
    [u] is the content of the fresh allocations. *)
Definition run_init (u : Uninit) (st : FastScape) : FastScape :=
  let st := mkFastScape (width st) (height st) (size st) (h st) (u_accum u)
              (u_rec u) (u_donor u) (u_ndon u) (u_stack u) (nshift st)
              (u_levels u) (nlevel st) in
  let st := for_loop 0 (size st) (fun i st =>
              set_rec st (upd (rec st) i NO_FLOW)) st in
  for_loop 0 (size st) (fun i st => set_ndon st (upd (ndon st) i 0)) st.

(** [for(int step=0;step<=nstep;step++)]. *)
Definition run (fuel : nat) (nstep : Z) (u : Uninit) (st : FastScape)
  : option FastScape :=
  let st := run_init u st in
  for_loopM 0 (nstep + 1) (fun _ st => step fuel st) st.

(** The rows that [PrintDEM] writes after the six header lines. *)
Definition PrintDEM_rows (hh : Z -> Q) (width height : Z) : list (list Q) :=
  map (fun y => map (fun x => hh (y * width + x)) (zrange 1 (width - 1)))
      (zrange 1 (height - 1)).

(** [main] past the argument check: [dimension] and [nstep] are the parsed
    first and second arguments; the result is the grid handed to
    [PrintDEM]. *)
Definition main_grid (fuel : nat) (dimension nstep : Z) (rnd : Z -> Q)
  (u u' : Uninit) : option (list (list Q)) :=
  let width := dimension in
  let height := dimension in
  let tm := new_FastScape width height rnd u in
  match run fuel nstep u' tm with
  | None => None
  | Some tm => Some (PrintDEM_rows (h tm) width height)
  end.

(** The states found at the head of an iteration of the step loop, and the
    one found after the last iteration. *)
Inductive reachable : FastScape -> Prop :=
| reach_start : forall width0 height0 rnd u u',
    (forall c, 0 <= rnd c <= 1)%Q ->
    reachable (run_init u' (new_FastScape width0 height0 rnd u))
| reach_step : forall fuel st st',
    reachable st -> step fuel st = Some st' -> reachable st'.

End Pipeline.


(** * Properties *)

#[local] Arguments Z.mul : simpl never.
#[local] Arguments Z.add : simpl never.
#[local] Arguments Z.sub : simpl never.
#[local] Arguments Z.of_nat : simpl never.
#[local] Arguments zrange : simpl never.
#[local] Arguments for_loop : simpl never.
#[local] Arguments for_loopM : simpl never.

(** Reduction of field accesses on updated states, and nothing else. *)
Ltac fs_simpl :=
  cbn [width height size h accum rec donor ndon stack nshift levels nlevel
       set_h set_accum set_rec set_donor set_ndon set_stack set_levels
       set_nlevel o_st nstack level_bottom level_top fst snd].

Tactic Notation "fs_simpl" "in" hyp(H) :=
  cbn [width height size h accum rec donor ndon stack nshift levels nlevel
       set_h set_accum set_rec set_donor set_ndon set_stack set_levels
       set_nlevel o_st nstack level_bottom level_top fst snd] in H.

(** ** Arrays, ranges and loops *)

Lemma upd_same {A : Type} (a : Z -> A) i v : upd a i v i = v.
Proof. unfold upd. now rewrite Z.eqb_refl. Qed.

Lemma upd_other {A : Type} (a : Z -> A) i j v : j <> i -> upd a i v j = a j.
Proof. unfold upd. intros Hne. apply Z.eqb_neq in Hne. now rewrite Hne. Qed.

Lemma zrange_nil lo hi : hi <= lo -> zrange lo hi = [].
Proof.
  intros Hle. unfold zrange.
  replace (Z.to_nat (hi - lo)) with O by lia. reflexivity.
Qed.

Lemma zrange_length lo hi : length (zrange lo hi) = Z.to_nat (hi - lo).
Proof. unfold zrange. now rewrite length_map, length_seq. Qed.

Lemma In_zrange lo hi i : In i (zrange lo hi) <-> lo <= i < hi.
Proof.
  unfold zrange. rewrite in_map_iff. split.
  - intros [k [Hk Hin]]. apply in_seq in Hin. lia.
  - intros Hi. exists (Z.to_nat (i - lo)). split; [lia|].
    apply in_seq. lia.
Qed.

Lemma zrange_snoc lo i : lo <= i -> zrange lo (i + 1) = zrange lo i ++ [i].
Proof.
  intros Hle. unfold zrange.
  replace (Z.to_nat (i + 1 - lo)) with (Z.to_nat (i - lo) + 1)%nat by lia.
  rewrite seq_app, map_app. simpl. f_equal. f_equal. lia.
Qed.

Lemma zrange_cons lo hi : lo < hi -> zrange lo hi = lo :: zrange (lo + 1) hi.
Proof.
  intros Hlt. unfold zrange.
  replace (Z.to_nat (hi - lo)) with (S (Z.to_nat (hi - (lo + 1)))) by lia.
  simpl. f_equal; [lia|].
  rewrite <- seq_shift, map_map. apply map_ext. intros k. lia.
Qed.

Lemma zrange_app lo mid hi :
  lo <= mid <= hi -> zrange lo hi = zrange lo mid ++ zrange mid hi.
Proof.
  intros Hle.
  remember (Z.to_nat (mid - lo)) as n eqn:Hn.
  revert lo Hle Hn. induction n as [|n IH]; intros lo Hle Hn.
  - assert (lo = mid) by lia. subst. now rewrite (zrange_nil mid mid) by lia.
  - rewrite (zrange_cons lo hi), (zrange_cons lo mid) by lia.
    simpl. f_equal. apply IH; lia.
Qed.

Lemma NoDup_zrange lo hi : NoDup (zrange lo hi).
Proof.
  unfold zrange. apply Injective_map_NoDup.
  - intros a b Hab. lia.
  - apply seq_NoDup.
Qed.

Lemma fold_left_inv {T A : Type} (f : T -> A -> T) (P : T -> Prop) l s :
  P s -> (forall s a, In a l -> P s -> P (f s a)) -> P (fold_left f l s).
Proof.
  revert s. induction l as [|a l IH]; intros s Hs Hstep; simpl; [exact Hs|].
  apply IH.
  - apply Hstep; [now left | exact Hs].
  - intros s' a' Hin. apply Hstep. now right.
Qed.

(** The loop-invariant rule for a counted loop. *)
Lemma for_loop_ind {T : Type} lo hi (body : Z -> T -> T) (P : Z -> T -> Prop) s :
  lo <= hi -> P lo s ->
  (forall i s, lo <= i < hi -> P i s -> P (i + 1) (body i s)) ->
  P hi (for_loop lo hi body s).
Proof.
  intros Hle H0 Hstep.
  assert (Hgen : forall n, lo + Z.of_nat n <= hi ->
            P (lo + Z.of_nat n) (for_loop lo (lo + Z.of_nat n) body s)).
  { induction n as [|n IH]; intros Hn.
    - replace (lo + Z.of_nat 0) with lo by lia.
      unfold for_loop. rewrite zrange_nil by lia. exact H0.
    - replace (lo + Z.of_nat (S n)) with (lo + Z.of_nat n + 1) by lia.
      unfold for_loop. rewrite zrange_snoc by lia.
      rewrite fold_left_app. simpl. apply Hstep; [lia|].
      apply IH. lia. }
  specialize (Hgen (Z.to_nat (hi - lo))).
  replace (lo + Z.of_nat (Z.to_nat (hi - lo))) with hi in Hgen by lia.
  apply Hgen. lia.
Qed.

Lemma for_loop_empty {T : Type} lo hi (body : Z -> T -> T) s :
  hi <= lo -> for_loop lo hi body s = s.
Proof. intros Hle. unfold for_loop. now rewrite zrange_nil. Qed.

Lemma for_loop_snoc {T : Type} lo i (body : Z -> T -> T) s :
  lo <= i -> for_loop lo (i + 1) body s = body i (for_loop lo i body s).
Proof.
  intros Hle. unfold for_loop. rewrite zrange_snoc by exact Hle.
  now rewrite fold_left_app.
Qed.

(** ** Cells of a rectangle, in row-major order *)

Definition cells (W y0 y1 x0 x1 : Z) : list Z :=
  flat_map (fun y => map (fun x => y * W + x) (zrange x0 x1)) (zrange y0 y1).

Lemma fold_left_map {T A B : Type} (f : T -> B -> T) (g : A -> B) l s :
  fold_left f (map g l) s = fold_left (fun s a => f s (g a)) l s.
Proof. revert s. induction l as [|a l IH]; intros s; simpl; auto. Qed.

(** A doubly nested loop over rows and columns is a fold over [cells]. *)
Lemma for_loop_cells {T : Type} W y0 y1 x0 x1 (body : Z -> T -> T) s :
  for_loop y0 y1 (fun y s =>
    for_loop x0 x1 (fun x s => body (y * W + x) s) s) s
  = fold_left (fun s c => body c s) (cells W y0 y1 x0 x1) s.
Proof.
  unfold for_loop, cells. generalize (zrange y0 y1) as ys.
  intros ys. revert s. induction ys as [|y ys IH]; intros s; simpl.
  - reflexivity.
  - rewrite fold_left_app, IH. f_equal.
    now rewrite fold_left_map.
Qed.

Lemma In_cells W y0 y1 x0 x1 c :
  In c (cells W y0 y1 x0 x1) <->
  exists y x, c = y * W + x /\ y0 <= y < y1 /\ x0 <= x < x1.
Proof.
  unfold cells. rewrite in_flat_map. split.
  - intros [y [Hy Hin]]. apply in_map_iff in Hin. destruct Hin as [x [Hc Hx]].
    apply In_zrange in Hy. apply In_zrange in Hx. exists y, x. auto.
  - intros [y [x [Hc [Hy Hx]]]]. exists y. split; [now apply In_zrange|].
    apply in_map_iff. exists x. split; [auto | now apply In_zrange].
Qed.

(** Coordinates are determined by the cell index. *)
Lemma cell_coords_unique W x y x' y' :
  0 <= x < W -> 0 <= x' < W -> y * W + x = y' * W + x' -> x = x' /\ y = y'.
Proof.
  intros Hx Hx' Heq.
  assert (Hy : y = y').
  { destruct (Z.lt_trichotomy y y') as [Hlt | [He | Hgt]]; [|exact He|].
    - exfalso. assert (W * (y' - y) >= W * 1) by (apply Z.le_ge, Z.mul_le_mono_nonneg_l; lia). nia.
    - exfalso. assert (W * (y - y') >= W * 1) by (apply Z.le_ge, Z.mul_le_mono_nonneg_l; lia). nia. }
  subst. split; [lia | reflexivity].
Qed.

Lemma NoDup_cells W y0 y1 x0 x1 :
  0 <= x0 -> x1 <= W -> NoDup (cells W y0 y1 x0 x1).
Proof.
  intros Hx0 Hx1. unfold cells.
  assert (Hgen : forall ys, NoDup ys ->
     NoDup (flat_map (fun y => map (fun x => y * W + x) (zrange x0 x1)) ys)).
  { induction ys as [|y ys IH]; intros Hnd; simpl; [constructor|].
    inversion Hnd as [|? ? Hnotin Hnd']; subst.
    apply NoDup_app.
    - apply Injective_map_NoDup; [|apply NoDup_zrange].
      intros a b Hab. lia.
    - now apply IH.
    - intros c Hin1 Hin2.
      apply in_map_iff in Hin1. destruct Hin1 as [x [Hc Hx]].
      apply in_flat_map in Hin2. destruct Hin2 as [y' [Hy' Hin2]].
      apply in_map_iff in Hin2. destruct Hin2 as [x' [Hc' Hx']].
      apply In_zrange in Hx. apply In_zrange in Hx'.
      assert (Hu : x' = x /\ y' = y).
      { apply (cell_coords_unique W); lia. }
      destruct Hu as [_ Hu]. subst y'. contradiction. }
  apply Hgen, NoDup_zrange.
Qed.

(** ** Comparisons on [Q] *)

Lemma Qgtb_true a b : Qgtb a b = true <-> (b < a)%Q.
Proof.
  unfold Qgtb. rewrite Qlt_alt.
  rewrite <- (Qcompare_antisym a b).
  destruct (Qcompare a b); simpl; split; intros Hx; congruence.
Qed.

Lemma Qgtb_false a b : Qgtb a b = false <-> (a <= b)%Q.
Proof.
  split.
  - intros Hf. apply Qnot_lt_le. intros Hlt.
    apply Qgtb_true in Hlt. congruence.
  - intros Hle. destruct (Qgtb a b) eqn:Hg; [|reflexivity].
    apply Qgtb_true in Hg. lra.
Qed.

Lemma SQRT2_pos : (0 < SQRT2)%Q.
Proof. reflexivity. Qed.

(** ** Rounding keeps the sign *)

Lemma SQRT2_rounds_literal : round64 SQRT2_literal = SQRT2.
Proof. vm_compute. reflexivity. Qed.

(** Examples of [round64]: a value of 53 bits is kept, [1/10] becomes the
    double [0x1.999999999999ap-4], [1 - 2^-60] becomes [1], and half of the
    smallest subnormal becomes [0]. *)
Lemma round64_examples :
  round64 (5 # 2) = (5 # 2)%Q
  /\ round64 (1 # 10) = (3602879701896397 # 36028797018963968)%Q
  /\ round64 (1 - Qpower 2 (-60)) = 1%Q
  /\ round64 (Qpower 2 (-1075)) = 0%Q
  /\ round64 (- (1 # 10)) = (- (3602879701896397 # 36028797018963968))%Q.
Proof. vm_compute. repeat split; reflexivity. Qed.

Lemma round_even_nonneg q : (0 <= q)%Q -> 0 <= round_even q.
Proof.
  intros Hq. unfold round_even.
  assert (Hf : 0 <= Qfloor q).
  { change 0 with (Qfloor 0). now apply Qfloor_resp_le. }
  destruct (Qcompare _ _); [destruct (Z.even _)| |]; lia.
Qed.

Lemma round_pos_nonneg q : (0 <= q)%Q -> (0 <= round_pos q)%Q.
Proof.
  intros Hq. unfold round_pos. cbv zeta.
  set (ulp := Qpower 2 (Z.max (Qlog2 q) (-1022) - 52)).
  assert (Hu : (0 < ulp)%Q) by (apply Qpower_0_lt; reflexivity).
  rewrite Qred_correct. apply Qmult_le_0_compat; [|lra].
  change 0%Q with (inject_Z 0). rewrite <- Zle_Qle.
  apply round_even_nonneg. apply Qle_shift_div_l; [exact Hu | lra].
Qed.

Lemma round64_nonneg q : (0 <= q)%Q -> (0 <= round64 q)%Q.
Proof.
  intros Hq. unfold round64. destruct (Qcompare q 0) eqn:Hc.
  - lra.
  - apply Qlt_alt in Hc. lra.
  - now apply round_pos_nonneg.
Qed.

Lemma round64_nonpos q : (q <= 0)%Q -> (round64 q <= 0)%Q.
Proof.
  intros Hq. unfold round64. destruct (Qcompare q 0) eqn:Hc.
  - lra.
  - assert (H := round_pos_nonneg (- q) ltac:(lra)). lra.
  - apply Qgt_alt in Hc. lra.
Qed.

(** A result that is positive after rounding was positive before. *)
Lemma round64_pos q : (0 < round64 q)%Q -> (0 < q)%Q.
Proof.
  intros Hr. destruct (Qlt_le_dec 0 q) as [Hlt | Hle]; [exact Hlt|].
  assert (H := round64_nonpos q Hle). lra.
Qed.

Lemma dr_pos n : 0 <= n < 8 -> (0 < dr n)%Q.
Proof.
  intros Hn.
  assert (Hc : n = 0 \/ n = 1 \/ n = 2 \/ n = 3 \/ n = 4 \/ n = 5 \/ n = 6 \/ n = 7) by lia.
  destruct Hc as [->|[->|[->|[->|[->|[->|[->| ->]]]]]]]; reflexivity.
Qed.

(** ** The state outside the field a stage writes *)

Lemma FastScape_eta st :
  st = mkFastScape (width st) (height st) (size st) (h st) (accum st) (rec st)
         (donor st) (ndon st) (stack st) (nshift st) (levels st) (nlevel st).
Proof. now destruct st. Qed.

(** ** Stage 1: receivers *)

(** The slope from [c] to its neighbour in direction [n], as the inner loop
    of [ComputeReceivers] computes it. *)
Definition slope (st : FastScape) (c n : Z) : Q :=
  round64 (round64 (h st c - h st (c + nshift st n)) / dr n).

(** What the scan of the eight neighbours returns. *)
Definition scan_result (st : FastScape) (c : Z) (mn : Z) : Prop :=
  (mn = NO_FLOW /\ forall n, 0 <= n < 8 -> (slope st c n <= 0)%Q)
  \/ (0 <= mn < 8 /\ (0 < slope st c mn)%Q
      /\ (forall n, 0 <= n < 8 -> (slope st c n <= slope st c mn)%Q)
      /\ (forall n, 0 <= n < mn -> (slope st c n < slope st c mn)%Q)).

Lemma receiver_scan_spec st c : scan_result st c (snd (receiver_scan st c)).
Proof.
  unfold receiver_scan.
  pose (P := fun (i : Z) (p : Q * Z) =>
    (snd p = NO_FLOW /\ fst p = 0%Q
       /\ forall n, 0 <= n < i -> (slope st c n <= 0)%Q)
    \/ (0 <= snd p < i /\ fst p = slope st c (snd p) /\ (0 < fst p)%Q
        /\ (forall n, 0 <= n < i -> (slope st c n <= fst p)%Q)
        /\ (forall n, 0 <= n < snd p -> (slope st c n < fst p)%Q))).
  set (p := for_loop 0 8 _ _).
  assert (HP : P 8 p).
  { subst p. apply for_loop_ind; [lia| |].
    - left. simpl. repeat split. intros n Hn. lia.
    - intros i [ms mn] Hi HPi. cbv zeta.
      fold (slope st c i).
      destruct (Qgtb (slope st c i) ms) eqn:Hcmp.
      + apply Qgtb_true in Hcmp. right. simpl.
        destruct HPi as [[Hmn [Hms Hall]] | [Hmn [Hms [Hpos [Hall Hfirst]]]]];
          simpl in *; subst.
        * repeat split; try lia; try lra.
          -- intros n Hn. destruct (Z.eq_dec n i) as [->|Hne]; [lra|].
             assert (Hle := Hall n ltac:(lia)). lra.
          -- intros n Hn. assert (Hle := Hall n ltac:(lia)). lra.
        * repeat split; try lia; try lra.
          -- intros n Hn. destruct (Z.eq_dec n i) as [->|Hne]; [lra|].
             assert (Hle := Hall n ltac:(lia)). lra.
          -- intros n Hn. assert (Hle := Hall n ltac:(lia)). lra.
      + apply Qgtb_false in Hcmp.
        destruct HPi as [[Hmn [Hms Hall]] | [Hmn [Hms [Hpos [Hall Hfirst]]]]];
          simpl in *.
        * left. simpl. repeat split; auto.
          intros n Hn. destruct (Z.eq_dec n i) as [->|Hne].
          -- rewrite Hms in Hcmp. exact Hcmp.
          -- apply Hall. lia.
        * right. simpl. repeat split; auto; try lia.
          intros n Hn. destruct (Z.eq_dec n i) as [->|Hne]; [exact Hcmp|].
          apply Hall. lia. }
  unfold scan_result.
  destruct HP as [[Hmn [Hms Hall]] | [Hmn [Hms [Hpos [Hall Hfirst]]]]].
  - left. auto.
  - right. rewrite <- Hms. auto.
Qed.

Lemma receivers_fold st l :
  exists r,
    fold_left (fun s c => set_rec s (upd (rec s) c (snd (receiver_scan s c))))
      l st = set_rec st r
    /\ (forall c, In c l -> r c = snd (receiver_scan st c))
    /\ (forall c, ~ In c l -> r c = rec st c).
Proof.
  induction l as [|a l IH] using rev_ind.
  - exists (rec st). simpl. split; [|split].
    + unfold set_rec. apply FastScape_eta.
    + intros c [].
    + reflexivity.
  - destruct IH as [r [Heq [Hin Hout]]].
    exists (upd r a (snd (receiver_scan st a))).
    rewrite fold_left_app. simpl. rewrite Heq. split; [reflexivity|]. split.
    + intros c Hc. destruct (Z.eq_dec c a) as [->|Hne].
      * now rewrite upd_same.
      * rewrite upd_other by exact Hne. apply Hin.
        apply in_app_or in Hc. destruct Hc as [Hc | [Hc | []]]; congruence.
    + intros c Hc. rewrite upd_other.
      * apply Hout. intros Hin'. apply Hc. apply in_or_app. now left.
      * intros ->. apply Hc. apply in_or_app. right. now left.
Qed.

(** The cells whose elevation and receiver the program updates. *)
Definition interior (st : FastScape) : list Z :=
  cells (width st) 2 (height st - 2) 2 (width st - 2).

(** The cells the donor and ordering stages traverse. *)
Definition frame (st : FastScape) : list Z :=
  cells (width st) 1 (height st - 1) 1 (width st - 1).

(** Every cell of the grid. *)
Definition grid (st : FastScape) : list Z :=
  cells (width st) 0 (height st) 0 (width st).

Lemma ComputeReceivers_spec st :
  exists r,
    ComputeReceivers st = set_rec st r
    /\ (forall c, In c (interior st) -> scan_result st c (r c))
    /\ (forall c, ~ In c (interior st) -> r c = rec st c).
Proof.
  unfold ComputeReceivers. cbv zeta.
  rewrite (for_loop_cells (width st) 2 (height st - 2) 2 (width st - 2)
             (fun c s => set_rec s (upd (rec s) c (snd (receiver_scan s c))))).
  destruct (receivers_fold st (interior st)) as [r [Heq [Hin Hout]]].
  exists r. split; [exact Heq|]. split.
  - intros c Hc. rewrite (Hin c Hc). apply receiver_scan_spec.
  - exact Hout.
Qed.

(** ** Stage 2: donors *)

(** The eight neighbours of [c], in the order of the directions. *)
Definition neighbours (st : FastScape) (c : Z) : list Z :=
  map (fun ni => c + nshift st ni) (zrange 0 8).

(** The test of [ComputeDonors]: [n] has a receiver and it is [c]. *)
Definition gives_to (st : FastScape) (c n : Z) : bool :=
  negb (rec st n =? NO_FLOW) && (n + nshift st (rec st n) =? c).

(** The valid prefix of the donor block of [c]. *)
Definition donor_list (st : FastScape) (c : Z) : list Z :=
  map (fun k => donor st (8 * c + k)) (zrange 0 (ndon st c)).

(** The state of [ComputeDonors] for focal cell [c] when the neighbour loop
    is about to test [ni = i]. *)
Definition donors_upto (c i : Z) (st : FastScape) : FastScape :=
  for_loop 0 i (donor_visit c) (set_ndon st (upd (ndon st) c 0)).

Lemma donor_cell_upto c st : donor_cell c st = donors_upto c 8 st.
Proof. unfold donor_cell, donors_upto. reflexivity. Qed.

Lemma donors_upto_spec c st i :
  0 <= i <= 8 ->
  exists d nd,
    donors_upto c i st = set_ndon (set_donor st d) nd
    /\ 0 <= nd c <= i
    /\ (forall c', c' <> c -> nd c' = ndon st c')
    /\ (forall j, ~ (8 * c <= j < 8 * c + nd c) -> d j = donor st j)
    /\ map (fun k => d (8 * c + k)) (zrange 0 (nd c))
       = filter (gives_to st c) (map (fun ni => c + nshift st ni) (zrange 0 i)).
Proof.
  intros Hi. unfold donors_upto.
  pose (P := fun (i : Z) (s : FastScape) =>
    exists d nd,
      s = set_ndon (set_donor st d) nd
      /\ 0 <= nd c <= i
      /\ (forall c', c' <> c -> nd c' = ndon st c')
      /\ (forall j, ~ (8 * c <= j < 8 * c + nd c) -> d j = donor st j)
      /\ map (fun k => d (8 * c + k)) (zrange 0 (nd c))
         = filter (gives_to st c)
             (map (fun ni => c + nshift st ni) (zrange 0 i))).
  apply (for_loop_ind 0 i (donor_visit c) P); [lia| |]; unfold P; clear P.
  - exists (donor st), (upd (ndon st) c 0). rewrite upd_same.
    split; [|split; [lia|split; [|split]]].
    + unfold set_ndon, set_donor. fs_simpl. reflexivity.
    + intros c' Hne. now rewrite upd_other.
    + reflexivity.
    + rewrite (zrange_nil 0 0) by lia. reflexivity.
  - intros k s Hk [d [nd [Hs [Hnd [Hoth [Hd Hlist]]]]]]. subst s.
    unfold donor_visit. cbv zeta. fs_simpl.
    rewrite (zrange_snoc 0 k), map_app, filter_app by lia.
    cbn [map filter].
    fold (gives_to st c (c + nshift st k)).
    destruct (gives_to st c (c + nshift st k)) eqn:Hg.
    + exists (upd d (8 * c + nd c) (c + nshift st k)), (upd nd c (nd c + 1)).
      rewrite upd_same. split; [reflexivity|].
      split; [lia|]. split; [|split].
      * intros c' Hne. rewrite upd_other by exact Hne. now apply Hoth.
      * intros j Hj. rewrite upd_other by lia. apply Hd. lia.
      * rewrite zrange_snoc, map_app by lia. simpl. rewrite upd_same.
        rewrite <- Hlist. f_equal. apply map_ext_in.
        intros a Ha. apply In_zrange in Ha. apply upd_other. lia.
    + exists d, nd. split; [reflexivity|]. split; [lia|].
      rewrite app_nil_r. auto.
Qed.

Lemma donors_fold st l :
  NoDup l ->
  exists d nd,
    fold_left (fun s c => donor_cell c s) l st = set_ndon (set_donor st d) nd
    /\ (forall c, In c l ->
          0 <= nd c <= 8
          /\ map (fun k => d (8 * c + k)) (zrange 0 (nd c))
             = filter (gives_to st c) (neighbours st c))
    /\ (forall c, ~ In c l -> nd c = ndon st c).
Proof.
  induction l as [|a l IH] using rev_ind; intros Hnd.
  - exists (donor st), (ndon st). simpl. split; [|split].
    + unfold set_ndon, set_donor. simpl. apply FastScape_eta.
    + intros c [].
    + reflexivity.
  - apply NoDup_remove in Hnd. rewrite app_nil_r in Hnd.
    destruct Hnd as [Hnd Hnotin].
    destruct (IH Hnd) as [d [nd [Heq [Hin Hout]]]].
    rewrite fold_left_app. cbn [fold_left]. rewrite Heq.
    rewrite donor_cell_upto.
    destruct (donors_upto_spec a (set_ndon (set_donor st d) nd) 8 ltac:(lia))
      as [d' [nd' [Heq' [Hr [Hoth [Hd Hlist]]]]]].
    fs_simpl in Hoth. fs_simpl in Hd.
    exists d', nd'. split; [rewrite Heq'; reflexivity|]. split.
    + intros c Hc. apply in_app_or in Hc. destruct Hc as [Hc | [<- | []]].
      * assert (Hne : c <> a) by congruence.
        destruct (Hin c Hc) as [Hr' Hl'].
        rewrite (Hoth c Hne). split; [exact Hr'|].
        rewrite <- Hl'. apply map_ext_in. intros k Hk.
        apply In_zrange in Hk. apply Hd. lia.
      * split; [lia|]. exact Hlist.
    + intros c Hc. rewrite Hoth.
      * apply Hout. intros Hin'. apply Hc. apply in_or_app. now left.
      * intros ->. apply Hc. apply in_or_app. right. now left.
Qed.

Lemma ComputeDonors_spec st :
  exists d nd,
    ComputeDonors st = set_ndon (set_donor st d) nd
    /\ (forall c, In c (frame st) ->
          0 <= nd c <= 8
          /\ map (fun k => d (8 * c + k)) (zrange 0 (nd c))
             = filter (gives_to st c) (neighbours st c))
    /\ (forall c, ~ In c (frame st) -> nd c = ndon st c).
Proof.
  unfold ComputeDonors. cbv zeta.
  rewrite (for_loop_cells (width st) 1 (height st - 1) 1 (width st - 1)
             (fun c s => donor_cell c s)).
  apply donors_fold. apply NoDup_cells; lia.
Qed.

(** ** Stage 3: ordering *)

(** The filled part of [stack] between two positions. *)
Definition stack_slice (st : FastScape) (lo hi : Z) : list Z :=
  map (stack st) (zrange lo hi).

(** [push_stack] over a list of cells. *)
Definition push_all (l : list Z) (o : OrderLocals) : OrderLocals :=
  fold_left (fun o c => push_stack c o) l o.

(** Two ordering states that differ in [stack] and [nstack] only. *)
Definition pushed (o o' : OrderLocals) (s' : Z -> Z) : Prop :=
  o_st o' = set_stack (o_st o) s'
  /\ level_bottom o' = level_bottom o /\ level_top o' = level_top o.

Lemma push_all_spec l o :
  0 <= nstack o ->
  exists s',
    pushed o (push_all l o) s'
    /\ nstack (push_all l o) = nstack o + Z.of_nat (length l)
    /\ (forall i, i < nstack o -> s' i = stack (o_st o) i)
    /\ map s' (zrange (nstack o) (nstack o + Z.of_nat (length l))) = l.
Proof.
  unfold push_all, pushed.
  induction l as [|a l IH] using rev_ind; intros Hn.
  - exists (stack (o_st o)). simpl. repeat split.
    + unfold set_stack. apply FastScape_eta.
    + lia.
    + now rewrite zrange_nil by lia.
  - destruct (IH Hn) as [s' [[Hst [Hb Ht]] [Hns [Hlow Hmap]]]].
    rewrite fold_left_app. simpl.
    set (o1 := fold_left (fun o c => push_stack c o) l o) in *.
    exists (upd s' (nstack o1) a). unfold push_stack. simpl.
    rewrite Hst. simpl. repeat split; auto.
    + rewrite Hns, length_app. simpl. lia.
    + intros i Hi. rewrite upd_other by lia. now apply Hlow.
    + rewrite length_app. simpl.
      replace (nstack o + Z.of_nat (length l + 1))
        with (nstack o + Z.of_nat (length l) + 1) by lia.
      rewrite zrange_snoc, map_app by lia. simpl.
      rewrite Hns, upd_same. f_equal.
      etransitivity; [|exact Hmap]. apply map_ext_in. intros i Hi.
      apply In_zrange in Hi. apply upd_other. lia.
Qed.

Lemma push_all_app l1 l2 o :
  push_all (l1 ++ l2) o = push_all l2 (push_all l1 o).
Proof. unfold push_all. apply fold_left_app. Qed.

(** Fields of the state that the pushes leave alone. *)
Definition same_graph (st st' : FastScape) : Prop :=
  width st' = width st /\ height st' = height st /\ size st' = size st
  /\ h st' = h st /\ accum st' = accum st /\ rec st' = rec st
  /\ donor st' = donor st /\ ndon st' = ndon st /\ nshift st' = nshift st.

Lemma same_graph_refl st : same_graph st st.
Proof. unfold same_graph. repeat split. Qed.

Lemma same_graph_trans st1 st2 st3 :
  same_graph st1 st2 -> same_graph st2 st3 -> same_graph st1 st3.
Proof.
  unfold same_graph. intros H1 H2.
  destruct H1 as (?&?&?&?&?&?&?&?&?), H2 as (?&?&?&?&?&?&?&?&?).
  repeat split; congruence.
Qed.

Lemma push_all_same_graph l o : same_graph (o_st o) (o_st (push_all l o)).
Proof.
  unfold push_all. apply (fold_left_inv _ (fun o' => same_graph (o_st o) (o_st o'))).
  - apply same_graph_refl.
  - intros o' a _ Hs. eapply same_graph_trans; [exact Hs|].
    unfold push_stack, same_graph. simpl. repeat split.
Qed.

Lemma push_all_levels l o :
  levels (o_st (push_all l o)) = levels (o_st o)
  /\ nlevel (o_st (push_all l o)) = nlevel (o_st o).
Proof.
  unfold push_all.
  apply (fold_left_inv _ (fun o' => levels (o_st o') = levels (o_st o)
                                   /\ nlevel (o_st o') = nlevel (o_st o))).
  - split; reflexivity.
  - intros o' a _ [H1 H2]. unfold push_stack. simpl. auto.
Qed.

(** The seeds of the ordering: the frame cells without a receiver. *)
Definition seeds (st : FastScape) : list Z :=
  filter (fun c => rec st c =? NO_FLOW) (frame st).

Lemma load_seeds_push o :
  load_seeds o = push_all (seeds (o_st o)) o.
Proof.
  unfold load_seeds, seeds, frame.
  assert (Hgen : forall l o',
     same_graph (o_st o) (o_st o') ->
     fold_left (fun o1 c =>
        if rec (o_st o1) c =? NO_FLOW then push_stack c o1 else o1) l o'
     = push_all (filter (fun c => rec (o_st o) c =? NO_FLOW) l) o').
  { induction l as [|a l IH]; intros o' Hs; simpl; [reflexivity|].
    assert (Hrec : rec (o_st o') = rec (o_st o)) by (apply Hs).
    rewrite Hrec. destruct (rec (o_st o) a =? NO_FLOW).
    - unfold push_all. simpl. apply IH.
      eapply same_graph_trans; [exact Hs|].
      unfold push_stack, same_graph. simpl. repeat split.
    - now apply IH. }
  cbv zeta.
  rewrite (for_loop_cells (width (o_st o)) 1 (height (o_st o) - 1) 1
             (width (o_st o) - 1)
             (fun c o1 =>
                if rec (o_st o1) c =? NO_FLOW then push_stack c o1 else o1)).
  apply Hgen, same_graph_refl.
Qed.

(** The donors that [expand_cell] pushes for stack position [si]. *)
Lemma expand_cell_push si o :
  expand_cell si o
  = push_all (donor_list (o_st o) (stack (o_st o) si)) o.
Proof.
  unfold expand_cell, donor_list, for_loop. cbv zeta.
  set (c := stack (o_st o) si).
  generalize (zrange 0 (ndon (o_st o) c)) as ks. intros ks.
  assert (Hgen : forall o',
     same_graph (o_st o) (o_st o') ->
     fold_left (fun o1 k => push_stack (donor (o_st o1) (8 * c + k)) o1) ks o'
     = push_all (map (fun k => donor (o_st o) (8 * c + k)) ks) o').
  { induction ks as [|k ks IH]; intros o' Hs; simpl; [reflexivity|].
    assert (Hd : donor (o_st o') = donor (o_st o)) by (apply Hs).
    rewrite Hd. unfold push_all. simpl. apply IH.
    eapply same_graph_trans; [exact Hs|].
    unfold push_stack, same_graph. simpl. repeat split. }
  apply Hgen, same_graph_refl.
Qed.

(** The loop over one level pushes the donors of its cells, cell by cell. *)
Lemma expand_level_push lo hi o :
  0 <= lo -> hi <= nstack o ->
  for_loop lo hi expand_cell o
  = push_all (flat_map (donor_list (o_st o)) (stack_slice (o_st o) lo hi)) o.
Proof.
  intros Hlo Hhi.
  destruct (Z_le_gt_dec lo hi) as [Hle | Hgt].
  2:{ rewrite for_loop_empty by lia. unfold stack_slice.
      now rewrite zrange_nil by lia. }
  pose (P := fun (i : Z) (o' : OrderLocals) =>
    o' = push_all (flat_map (donor_list (o_st o)) (stack_slice (o_st o) lo i)) o).
  apply (for_loop_ind lo hi expand_cell P); [exact Hle| |].
  - unfold P, stack_slice. now rewrite zrange_nil by lia.
  - intros i o' Hi HP. unfold P in *.
    rewrite expand_cell_push. subst o'.
    unfold stack_slice. rewrite zrange_snoc, map_app, flat_map_app by lia.
    simpl. rewrite app_nil_r, push_all_app.
    set (l := flat_map (donor_list (o_st o)) (map (stack (o_st o)) (zrange lo i))).
    destruct (push_all_spec l o ltac:(lia)) as [s' [[Hst _] [_ [Hlow _]]]].
    assert (Hsg := push_all_same_graph l o).
    assert (Hstack : stack (o_st (push_all l o)) i = stack (o_st o) i).
    { rewrite Hst. simpl. apply Hlow. lia. }
    rewrite Hstack. f_equal. unfold donor_list.
    destruct Hsg as (_&_&_&_&_&_&Hd&Hn&_). now rewrite Hd, Hn.
Qed.

(** *** Levels of the breadth-first traversal *)

(** Level [k] of the traversal that [GenerateOrder] performs from state
    [st]: the seeds, then the donors of the previous level. *)
Fixpoint lvl (st : FastScape) (k : nat) : list Z :=
  match k with
  | O => seeds st
  | S k' => flat_map (donor_list st) (lvl st k')
  end.

(** The number of cells in the levels below [k]. *)
Fixpoint pre (st : FastScape) (k : nat) : Z :=
  match k with
  | O => 0
  | S k' => pre st k' + Z.of_nat (length (lvl st k'))
  end.

Lemma pre_nonneg st k : 0 <= pre st k.
Proof. induction k as [|k IH]; simpl; lia. Qed.

Lemma pre_mono st i j : (i <= j)%nat -> pre st i <= pre st j.
Proof.
  induction 1 as [|j Hle IH]; [lia|]. simpl. lia.
Qed.

Lemma lvl_nil_succ st k : lvl st k = [] -> lvl st (S k) = [].
Proof. intros Hk. simpl. now rewrite Hk. Qed.

Lemma first_empty_level st M :
  lvl st M = [] ->
  exists m, (m <= M)%nat /\ lvl st m = []
            /\ forall i, (i < m)%nat -> lvl st i <> [].
Proof.
  induction M as [|M IH]; intros HM.
  - exists O. repeat split; auto. intros i Hi. lia.
  - destruct (lvl st M) as [|a l] eqn:HlM.
    + destruct (IH eq_refl) as [m [Hm [He Hf]]]. exists m. repeat split; auto.
    + exists (S M). repeat split; auto. intros i Hi.
      destruct (Nat.eq_dec i M) as [->|Hne]; [congruence|].
      intros Hi0.
      assert (Hall : forall d, lvl st (i + d) = []).
      { induction d as [|d IHd].
        - now rewrite Nat.add_0_r.
        - replace (i + S d)%nat with (S (i + d)) by lia.
          now apply lvl_nil_succ. }
      specialize (Hall (M - i)%nat).
      replace (i + (M - i))%nat with M in Hall by lia. congruence.
Qed.

(** The loop invariant of [while(level_bottom<level_top)] after [j]
    iterations, for the traversal started in [st0]. *)
Definition order_inv (st0 : FastScape) (j : nat) (o : OrderLocals) : Prop :=
  same_graph st0 (o_st o)
  /\ nstack o = pre st0 (S j)
  /\ (forall i, (i <= j)%nat ->
        stack_slice (o_st o) (pre st0 i) (pre st0 (S i)) = lvl st0 i)
  /\ nlevel (o_st o) = Z.of_nat j + 2
  /\ (forall i, (i <= S j)%nat -> levels (o_st o) (Z.of_nat i) = pre st0 i)
  /\ level_top o = pre st0 j
  /\ level_bottom o = match j with O => -1 | S j' => pre st0 j' end.

Lemma donor_list_same_graph st st' c :
  same_graph st st' -> donor_list st' c = donor_list st c.
Proof.
  intros (_&_&_&_&_&_&Hd&Hn&_). unfold donor_list. now rewrite Hd, Hn.
Qed.

Lemma level_step_inv st0 j o :
  order_inv st0 j o -> order_inv st0 (S j) (level_step o).
Proof.
  intros (Hsg & Hns & Hsl & Hnl & Hlv & Htop & Hbot).
  unfold level_step. cbv zeta. fs_simpl.
  set (o1 := mkOrder (o_st o) (nstack o) (level_top o) (nstack o)).
  assert (Hpush : for_loop (level_top o) (nstack o) expand_cell o1
                  = push_all (lvl st0 (S j)) o1).
  { rewrite expand_level_push.
    - unfold o1. fs_simpl. f_equal. cbn [lvl].
      rewrite Htop, Hns, (Hsl j (Nat.le_refl j)).
      apply flat_map_ext. intros c. now apply donor_list_same_graph.
    - rewrite Htop. apply pre_nonneg.
    - unfold o1. fs_simpl. lia. }
  rewrite Hpush.
  assert (Hn1 : 0 <= nstack o1)
    by (unfold o1; fs_simpl; rewrite Hns; apply pre_nonneg).
  destruct (push_all_spec (lvl st0 (S j)) o1 Hn1)
    as [s' [[Hst [Hb Ht]] [Hns' [Hlow Hmap]]]].
  destruct (push_all_levels (lvl st0 (S j)) o1) as [Hlv' Hnl'].
  set (o2 := push_all (lvl st0 (S j)) o1) in *.
  unfold o1 in Hst, Hb, Ht, Hns', Hlow, Hmap, Hlv', Hnl'.
  fs_simpl in Hst. fs_simpl in Hb. fs_simpl in Ht. fs_simpl in Hns'.
  fs_simpl in Hlow. fs_simpl in Hmap. fs_simpl in Hlv'. fs_simpl in Hnl'.
  unfold order_inv, push_level. cbv zeta. fs_simpl.
  rewrite Hst. fs_simpl. rewrite Hns'.
  split; [|split; [|split; [|split; [|split; [|split]]]]].
  - destruct Hsg as (?&?&?&?&?&?&?&?&?). unfold same_graph. fs_simpl.
    repeat split; assumption.
  - rewrite Hns. reflexivity.
  - intros i Hi. unfold stack_slice.
    destruct (Nat.eq_dec i (S j)) as [->|Hne].
    + change (pre st0 (S (S j)))
        with (pre st0 (S j) + Z.of_nat (length (lvl st0 (S j)))).
      rewrite <- Hns. exact Hmap.
    + rewrite <- (Hsl i) by lia. unfold stack_slice.
      apply map_ext_in. intros k Hk. apply In_zrange in Hk.
      apply Hlow. rewrite Hns.
      assert (pre st0 (S i) <= pre st0 (S j)) by (apply pre_mono; lia). lia.
  - rewrite Hnl. lia.
  - intros i Hi. rewrite Hnl.
    destruct (Nat.eq_dec i (S (S j))) as [->|Hne].
    + replace (Z.of_nat (S (S j))) with (Z.of_nat j + 2) by lia.
      rewrite upd_same, Hns. reflexivity.
    + rewrite upd_other by lia. apply Hlv. lia.
  - rewrite Ht. exact Hns.
  - rewrite Hb. exact Htop.
Qed.

Lemma level_loop_spec st0 m :
  lvl st0 m = [] -> (forall i, (i < m)%nat -> lvl st0 i <> []) ->
  forall d j o fuel,
    (j + d = S m)%nat -> order_inv st0 j o -> (d <= fuel)%nat ->
    exists o', level_loop fuel o = Some o' /\ order_inv st0 (S m) o'.
Proof.
  intros Hm Hfirst. induction d as [|d IH]; intros j o fuel Hj Hinv Hfuel.
  - assert (j = S m) by lia. subst j.
    exists o. split; [|exact Hinv].
    destruct Hinv as (_&_&_&_&_&Htop&Hbot).
    assert (Hnlt : (level_bottom o <? level_top o) = false).
    { apply Z.ltb_ge. rewrite Htop, Hbot. simpl. rewrite Hm. simpl. lia. }
    destruct fuel; simpl; now rewrite Hnlt.
  - destruct fuel as [|fuel]; [lia|].
    assert (Hlt : (level_bottom o <? level_top o) = true).
    { apply Z.ltb_lt. destruct Hinv as (_&_&_&_&_&Htop&Hbot).
      rewrite Htop, Hbot. destruct j as [|j'].
      - simpl. lia.
      - simpl. assert (Hne : lvl st0 j' <> []) by (apply Hfirst; lia).
        destruct (lvl st0 j'); [congruence|]. simpl. lia. }
    simpl. rewrite Hlt.
    apply (IH (S j)); [lia | now apply level_step_inv | lia].
Qed.

(** What [GenerateOrder] establishes: [m] is the first empty level. *)
Definition order_post (st0 st' : FastScape) (ns : Z) (m : nat) : Prop :=
  same_graph st0 st'
  /\ lvl st0 m = [] /\ (forall i, (i < m)%nat -> lvl st0 i <> [])
  /\ nlevel st' = Z.of_nat m + 2
  /\ (forall i, (i <= S m)%nat -> levels st' (Z.of_nat i) = pre st0 i)
  /\ ns = pre st0 m
  /\ (forall i, (i <= m)%nat ->
        stack_slice st' (pre st0 i) (pre st0 (S i)) = lvl st0 i).

Lemma GenerateOrder_locals_spec st0 M fuel :
  lvl st0 M = [] -> (S M <= fuel)%nat ->
  exists o m,
    GenerateOrder_locals fuel st0 = Some o
    /\ (m <= M)%nat /\ order_post st0 (o_st o) (nstack o) m.
Proof.
  intros HM Hfuel.
  destruct (first_empty_level st0 M HM) as [m [HmM [Hm Hfirst]]].
  unfold GenerateOrder_locals. cbv zeta.
  set (st1 := set_nlevel (set_levels st0 (upd (levels st0) 0 0)) 1).
  set (o0 := mkOrder st1 0 0 0).
  rewrite load_seeds_push.
  assert (Hseeds : seeds (o_st o0) = seeds st0) by reflexivity.
  rewrite Hseeds.
  destruct (push_all_spec (seeds st0) o0 ltac:(simpl; lia))
    as [s' [[Hst [Hb Ht]] [Hns [Hlow Hmap]]]].
  destruct (push_all_levels (seeds st0) o0) as [Hlv Hnl].
  set (o1 := push_all (seeds st0) o0) in *.
  unfold o0, st1 in Hst, Hb, Ht, Hns, Hlow, Hmap, Hlv, Hnl.
  fs_simpl in Hst. fs_simpl in Hb. fs_simpl in Ht. fs_simpl in Hns.
  fs_simpl in Hlow. fs_simpl in Hmap. fs_simpl in Hlv. fs_simpl in Hnl.
  set (o2 := mkOrder (o_st (push_level o1)) (nstack (push_level o1)) (-1) 0).
  assert (Hinv : order_inv st0 O o2).
  { unfold order_inv, o2, push_level. cbv zeta. fs_simpl. rewrite Hst.
    fs_simpl. rewrite Hns.
    split; [|split; [|split; [|split; [|split; [|split]]]]].
    - unfold same_graph. fs_simpl. repeat split.
    - cbn [pre lvl]. lia.
    - intros i Hi. assert (i = O) by lia. subst i.
      unfold stack_slice. fs_simpl. cbn [pre lvl]. exact Hmap.
    - lia.
    - intros i Hi. destruct i as [|[|i]]; [| |lia].
      + rewrite upd_other by lia. now rewrite upd_same.
      + change (Z.of_nat 1) with 1. rewrite upd_same. cbn [pre lvl]. lia.
    - reflexivity.
    - reflexivity. }
  destruct (level_loop_spec st0 m Hm Hfirst (S m) O o2 fuel
              ltac:(lia) Hinv ltac:(lia)) as [o' [Hloop Hinv']].
  rewrite Hloop.
  eexists. exists m. split; [reflexivity|]. split; [exact HmM|].
  destruct Hinv' as (Hsg & Hns' & Hsl & Hnl' & Hlv' & Htop & Hbot).
  unfold order_post. fs_simpl.
  split; [|split; [|split; [|split; [|split; [|split]]]]].
  - exact Hsg.
  - exact Hm.
  - exact Hfirst.
  - rewrite Hnl'. lia.
  - intros i Hi. apply Hlv'. lia.
  - rewrite Hns'. cbn [pre]. rewrite (lvl_nil_succ st0 m Hm), Hm.
    cbn [length]. lia.
  - intros i Hi. apply Hsl. lia.
Qed.

(** ** Geometry of the neighbour offsets *)

Definition dx (n : Z) : Z :=
  match n with
  | 0 => -1 | 1 => -1 | 2 => 0 | 3 => 1 | 4 => 1 | 5 => 1 | 6 => 0 | 7 => -1
  | _ => 0
  end.

Definition dy (n : Z) : Z :=
  match n with
  | 0 => 0 | 1 => -1 | 2 => -1 | 3 => -1 | 4 => 0 | 5 => 1 | 6 => 1 | 7 => 1
  | _ => 0
  end.

(** The opposite direction, [n xor 4]. *)
Definition opp (n : Z) : Z := Z.lxor n 4.

Ltac dir_cases n H :=
  let Hc := fresh "Hc" in
  assert (Hc : n = 0 \/ n = 1 \/ n = 2 \/ n = 3 \/ n = 4 \/ n = 5 \/ n = 6 \/ n = 7)
    by lia;
  clear H;
  destruct Hc as [->|[->|[->|[->|[->|[->|[->| ->]]]]]]].

Lemma nshift_coords W n x y :
  0 <= n < 8 -> y * W + x + nshift_of W n = (y + dy n) * W + (x + dx n).
Proof. intros Hn. dir_cases n Hn; simpl; lia. Qed.

Lemma dx_range n : -1 <= dx n <= 1.
Proof. destruct n as [|p|p]; simpl; try lia. do 3 (destruct p; simpl; try lia). Qed.

Lemma dy_range n : -1 <= dy n <= 1.
Proof. destruct n as [|p|p]; simpl; try lia. do 3 (destruct p; simpl; try lia). Qed.

Lemma opp_range n : 0 <= n < 8 -> 0 <= opp n < 8.
Proof. intros Hn. dir_cases n Hn; unfold opp; simpl; lia. Qed.

Lemma nshift_opp W n : 0 <= n < 8 -> nshift_of W (opp n) = - nshift_of W n.
Proof. intros Hn. dir_cases n Hn; unfold opp; simpl; lia. Qed.

Lemma nshift_inj W n n' :
  3 <= W -> 0 <= n < 8 -> 0 <= n' < 8 ->
  nshift_of W n = nshift_of W n' -> n = n'.
Proof.
  intros HW Hn Hn'. dir_cases n Hn; dir_cases n' Hn'; simpl; lia.
Qed.

Lemma interior_frame st c : In c (interior st) -> In c (frame st).
Proof.
  unfold interior, frame. rewrite !In_cells.
  intros (y & x & Hc & Hy & Hx). exists y, x. repeat split; lia.
Qed.

Lemma frame_grid st c : In c (frame st) -> In c (grid st).
Proof.
  unfold grid, frame. rewrite !In_cells.
  intros (y & x & Hc & Hy & Hx). exists y, x. repeat split; lia.
Qed.

Lemma interior_neighbour st c n :
  nshift st = nshift_of (width st) -> 0 <= n < 8 ->
  In c (interior st) -> In (c + nshift st n) (frame st).
Proof.
  intros Hns Hn. unfold interior, frame. rewrite !In_cells.
  intros (y & x & Hc & Hy & Hx). exists (y + dy n), (x + dx n).
  rewrite Hns, Hc. split; [now apply nshift_coords|].
  pose proof (dx_range n). pose proof (dy_range n). lia.
Qed.

Lemma frame_neighbour st c n :
  nshift st = nshift_of (width st) -> 0 <= n < 8 ->
  In c (frame st) -> In (c + nshift st n) (grid st).
Proof.
  intros Hns Hn. unfold grid, frame. rewrite !In_cells.
  intros (y & x & Hc & Hy & Hx). exists (y + dy n), (x + dx n).
  rewrite Hns, Hc. split; [now apply nshift_coords|].
  pose proof (dx_range n). pose proof (dy_range n). lia.
Qed.

Lemma frame_width st c : In c (frame st) -> 3 <= width st.
Proof.
  unfold frame. rewrite In_cells. intros (y & x & Hc & Hy & Hx). lia.
Qed.

Lemma In_neighbours st c n :
  In n (neighbours st c) <-> exists ni, 0 <= ni < 8 /\ n = c + nshift st ni.
Proof.
  unfold neighbours. rewrite in_map_iff. split.
  - intros (ni & Heq & Hin). apply In_zrange in Hin. exists ni. auto.
  - intros (ni & Hni & Heq). exists ni. split; [auto | now apply In_zrange].
Qed.

Lemma NoDup_neighbours st c :
  nshift st = nshift_of (width st) -> 3 <= width st ->
  NoDup (neighbours st c).
Proof.
  intros Hns HW. unfold neighbours.
  apply NoDup_map_NoDup_ForallPairs; [|apply NoDup_zrange].
  intros a b Ha Hb Heq. apply In_zrange in Ha. apply In_zrange in Hb.
  rewrite Hns in Heq. apply (nshift_inj (width st)); auto. lia.
Qed.

(** ** The flow graph *)

(** The receiver of [c] (meaningful when [rec st c] is a direction). *)
Definition recv (st : FastScape) (c : Z) : Z := c + nshift st (rec st c).

(** What the receiver and donor stages establish together. *)
Record flow_graph (st : FastScape) : Prop := {
  fg_nshift : nshift st = nshift_of (width st);
  fg_rec : forall c, In c (grid st) -> rec st c <> NO_FLOW ->
    In c (interior st) /\ 0 <= rec st c < 8
    /\ (h st (recv st c) < h st c)%Q;
  fg_don : forall c, In c (frame st) ->
    donor_list st c = filter (gives_to st c) (neighbours st c)
}.

Lemma gives_to_true st c n :
  gives_to st c n = true <-> rec st n <> NO_FLOW /\ recv st n = c.
Proof.
  unfold gives_to, recv. rewrite andb_true_iff, negb_true_iff.
  rewrite Z.eqb_neq, Z.eqb_eq. tauto.
Qed.

Lemma recv_frame st c :
  flow_graph st -> In c (grid st) -> rec st c <> NO_FLOW ->
  In (recv st c) (frame st).
Proof.
  intros Hg Hc Hr. destruct (fg_rec st Hg c Hc Hr) as (Hi & Hd & _).
  apply interior_neighbour; auto. apply Hg.
Qed.

Lemma In_donor_list st c n :
  flow_graph st -> In c (frame st) ->
  (In n (donor_list st c) <->
   In n (grid st) /\ rec st n <> NO_FLOW /\ recv st n = c).
Proof.
  intros Hg Hc. rewrite (fg_don st Hg c Hc), filter_In, gives_to_true.
  rewrite In_neighbours. split.
  - intros ((ni & Hni & ->) & Hr & Hrecv). repeat split; auto.
    apply frame_neighbour; auto. apply Hg.
  - intros (Hn & Hr & Hrecv). repeat split; auto.
    destruct (fg_rec st Hg n Hn Hr) as (_ & Hd & _).
    exists (opp (rec st n)). split; [now apply opp_range|].
    unfold recv in Hrecv. rewrite (fg_nshift st Hg) in *.
    rewrite nshift_opp by exact Hd. lia.
Qed.

Lemma NoDup_donor_list st c :
  flow_graph st -> In c (frame st) -> NoDup (donor_list st c).
Proof.
  intros Hg Hc. rewrite (fg_don st Hg c Hc). apply NoDup_filter.
  apply NoDup_neighbours; [apply Hg | now apply (frame_width st c)].
Qed.

(** *** A measure that decreases along receiver links *)

Definition rank (st : FastScape) (c : Z) : nat :=
  length (filter (fun d => Qgtb (h st c) (h st d)) (grid st)).

Lemma filter_length_lt {A : Type} (p q : A -> bool) l a :
  (forall x, In x l -> p x = true -> q x = true) ->
  In a l -> p a = false -> q a = true ->
  (length (filter p l) < length (filter q l))%nat.
Proof.
  intros Hpq Ha Hpa Hqa.
  assert (Hle : forall l', (forall x, In x l' -> p x = true -> q x = true) ->
            (length (filter p l') <= length (filter q l'))%nat).
  { induction l' as [|x l' IH]; intros Himp; simpl; [lia|].
    assert (IH' := IH (fun y Hy => Himp y (or_intror Hy))).
    destruct (p x) eqn:Hpx.
    - rewrite (Himp x (or_introl eq_refl) Hpx). simpl. lia.
    - destruct (q x); simpl; lia. }
  induction l as [|x l IH]; [destruct Ha|]. simpl.
  destruct Ha as [->|Ha].
  - rewrite Hpa, Hqa. simpl.
    assert (Hl := Hle l (fun y Hy => Hpq y (or_intror Hy))). lia.
  - assert (IH' := IH (fun y Hy => Hpq y (or_intror Hy)) Ha).
    destruct (p x) eqn:Hpx.
    + rewrite (Hpq x (or_introl eq_refl) Hpx). simpl. lia.
    + destruct (q x); simpl; lia.
Qed.

Lemma rank_recv st c :
  flow_graph st -> In c (grid st) -> rec st c <> NO_FLOW ->
  (rank st (recv st c) < rank st c)%nat.
Proof.
  intros Hg Hc Hr. destruct (fg_rec st Hg c Hc Hr) as (_ & _ & Hlt).
  unfold rank. apply (filter_length_lt _ _ _ (recv st c)).
  - intros x _ Hx. apply Qgtb_true in Hx. apply Qgtb_true. lra.
  - apply frame_grid. now apply recv_frame.
  - apply Qgtb_false. lra.
  - now apply Qgtb_true.
Qed.

Lemma filter_true {A : Type} (l : list A) : filter (fun _ => true) l = l.
Proof. induction l as [|a l IH]; simpl; [reflexivity | now rewrite IH]. Qed.

Lemma rank_lt_grid st c :
  In c (grid st) -> (rank st c < length (grid st))%nat.
Proof.
  intros Hc. unfold rank.
  rewrite <- (filter_true (grid st)) at 2.
  apply (filter_length_lt _ _ _ c); auto.
  apply Qgtb_false. lra.
Qed.

(** *** Levels of the traversal in a flow graph *)

Lemma lvl_0 st c :
  In c (lvl st 0) <-> In c (frame st) /\ rec st c = NO_FLOW.
Proof.
  simpl. unfold seeds. rewrite filter_In, Z.eqb_eq. tauto.
Qed.

Lemma lvl_frame st k c :
  flow_graph st -> In c (lvl st k) -> In c (frame st).
Proof.
  intros Hg. revert c. induction k as [|k IH]; intros c Hc.
  - now apply lvl_0 in Hc.
  - simpl in Hc. apply in_flat_map in Hc. destruct Hc as (t & Ht & Hc).
    apply (In_donor_list st t c Hg (IH t Ht)) in Hc.
    destruct Hc as (Hgrid & Hr & _).
    apply interior_frame. now apply (fg_rec st Hg c Hgrid Hr).
Qed.

Lemma lvl_S st k c :
  flow_graph st ->
  (In c (lvl st (S k)) <->
   In c (grid st) /\ rec st c <> NO_FLOW /\ In (recv st c) (lvl st k)).
Proof.
  intros Hg. simpl. rewrite in_flat_map. split.
  - intros (t & Ht & Hc).
    apply (In_donor_list st t c Hg (lvl_frame st k t Hg Ht)) in Hc.
    destruct Hc as (Hgrid & Hr & Hrecv). subst t. auto.
  - intros (Hgrid & Hr & Ht). exists (recv st c). split; [exact Ht|].
    apply In_donor_list; auto. now apply (lvl_frame st k).
Qed.

Lemma lvl_unique st k k' c :
  flow_graph st -> In c (lvl st k) -> In c (lvl st k') -> k = k'.
Proof.
  intros Hg. revert k' c. induction k as [|k IH]; intros k' c Hk Hk'.
  - destruct k' as [|k']; [reflexivity|].
    apply lvl_0 in Hk. apply (lvl_S st k' c Hg) in Hk'. tauto.
  - destruct k' as [|k'].
    + apply lvl_0 in Hk'. apply (lvl_S st k c Hg) in Hk. tauto.
    + apply (lvl_S st k c Hg) in Hk. apply (lvl_S st k' c Hg) in Hk'.
      f_equal. apply (IH k' (recv st c)); tauto.
Qed.

Lemma NoDup_flat_map {A B : Type} (f : A -> list B) l :
  NoDup l -> (forall x, In x l -> NoDup (f x)) ->
  (forall x y b, In x l -> In y l -> In b (f x) -> In b (f y) -> x = y) ->
  NoDup (flat_map f l).
Proof.
  induction l as [|a l IH]; intros Hnd Hf Hdis; simpl; [constructor|].
  inversion Hnd as [|? ? Hnotin Hnd']; subst.
  apply NoDup_app.
  - apply Hf. now left.
  - apply IH; auto.
    + intros x Hx. apply Hf. now right.
    + intros x y b Hx Hy. apply Hdis; now right.
  - intros b Hb1 Hb2. apply in_flat_map in Hb2. destruct Hb2 as (y & Hy & Hb2).
    assert (a = y) by (apply (Hdis a y b); auto; [now left | now right]).
    subst y. contradiction.
Qed.

Lemma NoDup_frame st : NoDup (frame st).
Proof. unfold frame. apply NoDup_cells; lia. Qed.

Lemma NoDup_grid st : NoDup (grid st).
Proof. unfold grid. apply NoDup_cells; lia. Qed.

Lemma NoDup_lvl st k : flow_graph st -> NoDup (lvl st k).
Proof.
  intros Hg. induction k as [|k IH].
  - simpl. unfold seeds. apply NoDup_filter, NoDup_frame.
  - simpl. apply NoDup_flat_map; [exact IH| |].
    + intros t Ht. apply NoDup_donor_list; auto. now apply (lvl_frame st k).
    + intros t t' c Ht Ht' Hc Hc'.
      apply (In_donor_list st t c Hg (lvl_frame st k t Hg Ht)) in Hc.
      apply (In_donor_list st t' c Hg (lvl_frame st k t' Hg Ht')) in Hc'.
      destruct Hc as (_ & _ & <-), Hc' as (_ & _ & <-). reflexivity.
Qed.

(** Every frame cell lies in a level, no deeper than its rank. *)
Lemma frame_in_lvl st c :
  flow_graph st -> In c (frame st) ->
  exists k, (k <= rank st c)%nat /\ In c (lvl st k).
Proof.
  intros Hg.
  assert (Hgen : forall n c, (rank st c < n)%nat -> In c (frame st) ->
            exists k, (k <= rank st c)%nat /\ In c (lvl st k)).
  { induction n as [|n IH]; intros c' Hr Hc; [lia|].
    destruct (Z.eq_dec (rec st c') NO_FLOW) as [He | Hne].
    - exists O. split; [lia|]. apply lvl_0. auto.
    - assert (Hgrid := frame_grid st c' Hc).
      assert (Hlt := rank_recv st c' Hg Hgrid Hne).
      destruct (IH (recv st c') ltac:(lia) (recv_frame st c' Hg Hgrid Hne))
        as (k & Hk & Hin).
      exists (S k). split; [lia|]. apply lvl_S; auto. }
  intros Hc. apply (Hgen (S (rank st c))); auto.
Qed.

Lemma lvl_depth_le_rank st k c :
  flow_graph st -> In c (lvl st k) -> (k <= rank st c)%nat.
Proof.
  intros Hg Hc.
  destruct (frame_in_lvl st c Hg (lvl_frame st k c Hg Hc)) as (k' & Hk' & Hin).
  now rewrite (lvl_unique st k k' c Hg Hc Hin).
Qed.

(** The traversal runs out of cells after at most [|grid|] levels. *)
Lemma lvl_grid_empty st : flow_graph st -> lvl st (length (grid st)) = [].
Proof.
  intros Hg. destruct (lvl st (length (grid st))) as [|c l] eqn:Hl; [reflexivity|].
  assert (Hc : In c (lvl st (length (grid st)))) by (rewrite Hl; now left).
  assert (H1 := lvl_depth_le_rank st _ c Hg Hc).
  assert (H2 := rank_lt_grid st c (frame_grid st c (lvl_frame st _ c Hg Hc))).
  lia.
Qed.

Lemma lvl_nil_ge st m k : lvl st m = [] -> (m <= k)%nat -> lvl st k = [].
Proof.
  intros Hm. induction 1 as [|k Hle IH]; [exact Hm|]. now apply lvl_nil_succ.
Qed.

(** The concatenation of the levels below [k]. *)
Fixpoint upto (st : FastScape) (k : nat) : list Z :=
  match k with
  | O => []
  | S k' => upto st k' ++ lvl st k'
  end.

Lemma In_upto st k c :
  In c (upto st k) <-> exists i, (i < k)%nat /\ In c (lvl st i).
Proof.
  induction k as [|k IH]; simpl.
  - split; [intros [] | intros (i & Hi & _); lia].
  - rewrite in_app_iff, IH. split.
    + intros [(i & Hi & Hc) | Hc]; [exists i | exists k]; split; auto; lia.
    + intros (i & Hi & Hc). destruct (Nat.eq_dec i k) as [->|Hne]; [now right|].
      left. exists i. split; [lia | exact Hc].
Qed.

Lemma NoDup_upto st k : flow_graph st -> NoDup (upto st k).
Proof.
  intros Hg. induction k as [|k IH]; simpl; [constructor|].
  apply NoDup_app; [exact IH | now apply NoDup_lvl |].
  intros c Hc Hc'. apply In_upto in Hc. destruct Hc as (i & Hi & Hc).
  assert (i = k) by (apply (lvl_unique st i k c); auto). lia.
Qed.

Lemma upto_length st k : Z.of_nat (length (upto st k)) = pre st k.
Proof.
  induction k as [|k IH]; simpl; [reflexivity|].
  rewrite length_app. lia.
Qed.

(** When the traversal has stopped, it has listed exactly the frame. *)
Lemma In_upto_frame st m c :
  flow_graph st -> lvl st m = [] ->
  (In c (upto st m) <-> In c (frame st)).
Proof.
  intros Hg Hm. rewrite In_upto. split.
  - intros (i & _ & Hc). now apply (lvl_frame st i).
  - intros Hc. destruct (frame_in_lvl st c Hg Hc) as (k & _ & Hin).
    exists k. split; [|exact Hin].
    destruct (Nat.lt_ge_cases k m) as [Hlt | Hge]; [exact Hlt|].
    rewrite (lvl_nil_ge st m k Hm Hge) in Hin. destruct Hin.
Qed.

(** *** The stack after the ordering stage *)

Lemma stack_slice_app st lo mid hi :
  lo <= mid <= hi ->
  stack_slice st lo hi = stack_slice st lo mid ++ stack_slice st mid hi.
Proof.
  intros Hle. unfold stack_slice. now rewrite (zrange_app lo mid hi), map_app.
Qed.

Lemma In_stack_slice st lo hi c :
  In c (stack_slice st lo hi) <-> exists i, lo <= i < hi /\ stack st i = c.
Proof.
  unfold stack_slice. rewrite in_map_iff. split.
  - intros (i & Hi & Hin). apply In_zrange in Hin. exists i. auto.
  - intros (i & Hi & Heq). exists i. split; [auto | now apply In_zrange].
Qed.

Lemma stack_upto st0 st' ns m k :
  order_post st0 st' ns m -> (k <= S m)%nat ->
  stack_slice st' 0 (pre st0 k) = upto st0 k.
Proof.
  intros (_&_&_&_&_&_&Hsl). induction k as [|k IH]; intros Hk.
  - simpl. unfold stack_slice. now rewrite zrange_nil by lia.
  - rewrite (stack_slice_app st' 0 (pre st0 k) (pre st0 (S k))).
    + simpl upto. rewrite IH by lia. f_equal. apply Hsl. lia.
    + split; [apply pre_nonneg | apply pre_mono; lia].
Qed.

Lemma order_post_stack st0 st' ns m :
  order_post st0 st' ns m -> stack_slice st' 0 ns = upto st0 m.
Proof.
  intros Hp. assert (Hns : ns = pre st0 m) by apply Hp.
  rewrite Hns. apply (stack_upto st0 st' ns m m Hp). lia.
Qed.

(** A stack position lies in exactly one level. *)
Lemma find_level st K i :
  0 <= i < pre st K ->
  exists k, (k < K)%nat /\ pre st k <= i < pre st (S k).
Proof.
  induction K as [|K IH]; intros Hi; [simpl in Hi; lia|].
  destruct (Z_lt_ge_dec i (pre st K)) as [Hlt | Hge].
  - destruct (IH ltac:(lia)) as (k & Hk & Hr). exists k. split; [lia | exact Hr].
  - exists K. split; [lia|]. lia.
Qed.

(** ** Invariants of the state between steps *)

(** The part of the state that the graph stages rely on. *)
Record shape_inv (st : FastScape) : Prop := {
  si_size : size st = width st * height st;
  si_nshift : nshift st = nshift_of (width st);
  si_rec : forall c, In c (grid st) -> ~ In c (interior st) ->
                     rec st c = NO_FLOW;
  si_rec_range : forall c, In c (grid st) -> -1 <= rec st c < 8;
  si_ndon : forall c, In c (grid st) -> 0 <= ndon st c <= 8;
  si_ndon_out : forall c, In c (grid st) -> ~ In c (frame st) ->
                          ndon st c = 0
}.

Lemma grid_index st c :
  size st = width st * height st -> In c (grid st) -> 0 <= c < size st.
Proof.
  intros Hs. unfold grid. rewrite In_cells.
  intros (y & x & Hc & Hy & Hx). rewrite Hs. nia.
Qed.

Lemma In_dec_Z (c : Z) l : {In c l} + {~ In c l}.
Proof. apply in_dec, Z.eq_dec. Qed.

(** A slope that the code finds positive goes to a strictly lower cell. *)
Lemma slope_pos st c n :
  0 <= n < 8 ->
  (0 < slope st c n)%Q -> (h st (c + nshift st n) < h st c)%Q.
Proof.
  intros Hn Hpos. unfold slope in Hpos. assert (Hd := dr_pos n Hn).
  apply round64_pos in Hpos.
  set (a := round64 (h st c - h st (c + nshift st n))) in *.
  assert (Ha : (0 < a)%Q).
  { assert (Hm : (0 < a / dr n * dr n)%Q) by (apply Qmult_lt_0_compat; auto).
    assert (He : (a / dr n * dr n == a)%Q) by (field; lra).
    lra. }
  unfold a in Ha. apply round64_pos in Ha. lra.
Qed.

Lemma ComputeReceivers_shape st :
  shape_inv st -> shape_inv (ComputeReceivers st).
Proof.
  intros Hs. destruct (ComputeReceivers_spec st) as (r & Heq & Hin & Hout).
  rewrite Heq. constructor; simpl; try apply Hs.
  - intros c Hc Hni. change (~ In c (interior st)) in Hni.
    rewrite (Hout c Hni). now apply Hs.
  - intros c Hc. change (In c (grid st)) in Hc.
    destruct (In_dec_Z c (interior st)) as [Hi | Hni].
    + destruct (Hin c Hi) as [[-> _] | [Hr _]]; unfold NO_FLOW; lia.
    + rewrite (Hout c Hni). now apply Hs.
Qed.

Lemma ComputeDonors_shape st :
  shape_inv st -> shape_inv (ComputeDonors st).
Proof.
  intros Hs. destruct (ComputeDonors_spec st) as (d & nd & Heq & Hin & Hout).
  rewrite Heq. constructor; simpl; try apply Hs.
  - intros c Hc. change (In c (grid st)) in Hc.
    destruct (In_dec_Z c (frame st)) as [Hi | Hni].
    + apply (Hin c Hi).
    + rewrite (Hout c Hni). now apply Hs.
  - intros c Hc Hni. change (~ In c (frame st)) in Hni.
    rewrite (Hout c Hni). now apply Hs.
Qed.

(** The two graph stages produce a flow graph. *)
Lemma graph_stages_flow_graph st :
  shape_inv st -> flow_graph (ComputeDonors (ComputeReceivers st)).
Proof.
  intros Hs.
  destruct (ComputeReceivers_spec st) as (r & Heq & Hin & Hout).
  destruct (ComputeDonors_spec (ComputeReceivers st))
    as (d & nd & Heq' & Hin' & Hout').
  rewrite Heq'. rewrite Heq in *. constructor; simpl.
  - apply Hs.
  - intros c Hc Hr. change (In c (grid st)) in Hc.
    destruct (In_dec_Z c (interior st)) as [Hi | Hni].
    + split; [exact Hi|].
      destruct (Hin c Hi) as [[Hno _] | (Hrange & Hpos & _)]; [contradiction|].
      split; [exact Hrange|].
      apply (slope_pos st c (r c) Hrange) in Hpos. exact Hpos.
    + exfalso. apply Hr. rewrite (Hout c Hni). now apply Hs.
  - intros c Hc. change (In c (frame st)) in Hc.
    destruct (Hin' c Hc) as [_ Hl]. exact Hl.
Qed.

(** ** Loops that may fail *)

Lemma foldM_app {T : Type} (body : Z -> T -> option T) l1 l2 s :
  foldM body (l1 ++ l2) s
  = match foldM body l1 s with
    | Some s' => foldM body l2 s'
    | None => None
    end.
Proof.
  revert s. induction l1 as [|a l1 IH]; intros s; simpl; [reflexivity|].
  destruct (body a s); [apply IH | reflexivity].
Qed.

Lemma foldM_inv {T : Type} (body : Z -> T -> option T) (P : T -> Prop) l s s' :
  P s ->
  (forall i s1 s2, In i l -> P s1 -> body i s1 = Some s2 -> P s2) ->
  foldM body l s = Some s' -> P s'.
Proof.
  revert s. induction l as [|a l IH]; intros s Hs Hstep Hf; simpl in Hf.
  - now inversion Hf; subst.
  - destruct (body a s) as [s1|] eqn:Hb; [|discriminate].
    apply (IH s1); auto.
    + apply (Hstep a s s1); auto. now left.
    + intros i t1 t2 Hi. apply Hstep. now right.
Qed.

(** The loop-invariant rule for a counted loop whose body may fail: the
    invariant and the success of every iteration give the success of the
    loop. *)
Lemma for_loopM_total {T : Type} lo hi (body : Z -> T -> option T)
  (P : Z -> T -> Prop) s :
  lo <= hi -> P lo s ->
  (forall i s1, lo <= i < hi -> P i s1 ->
     exists s2, body i s1 = Some s2 /\ P (i + 1) s2) ->
  exists s', for_loopM lo hi body s = Some s' /\ P hi s'.
Proof.
  intros Hle H0 Hstep.
  assert (Hgen : forall n, lo + Z.of_nat n <= hi ->
     exists s', for_loopM lo (lo + Z.of_nat n) body s = Some s'
                /\ P (lo + Z.of_nat n) s').
  { induction n as [|n IH]; intros Hn.
    - replace (lo + Z.of_nat 0) with lo by lia.
      unfold for_loopM. rewrite zrange_nil by lia. exists s. auto.
    - destruct (IH ltac:(lia)) as (s1 & Hs1 & HP1).
      replace (lo + Z.of_nat (S n)) with (lo + Z.of_nat n + 1) by lia.
      unfold for_loopM in *. rewrite zrange_snoc by lia.
      rewrite foldM_app, Hs1. simpl.
      destruct (Hstep (lo + Z.of_nat n) s1 ltac:(lia) HP1) as (s2 & Hs2 & HP2).
      rewrite Hs2. exists s2. auto. }
  specialize (Hgen (Z.to_nat (hi - lo))).
  replace (lo + Z.of_nat (Z.to_nat (hi - lo))) with hi in Hgen by lia.
  apply Hgen. lia.
Qed.

(** The partial-correctness form of the same rule. *)
Lemma for_loopM_ind {T : Type} lo hi (body : Z -> T -> option T)
  (P : Z -> T -> Prop) s s' :
  lo <= hi -> P lo s ->
  (forall i s1 s2, lo <= i < hi -> P i s1 -> body i s1 = Some s2 ->
     P (i + 1) s2) ->
  for_loopM lo hi body s = Some s' -> P hi s'.
Proof.
  intros Hle H0 Hstep.
  assert (Hgen : forall n s', lo + Z.of_nat n <= hi ->
     for_loopM lo (lo + Z.of_nat n) body s = Some s' ->
     P (lo + Z.of_nat n) s').
  { induction n as [|n IH]; intros t Hn Hf.
    - replace (lo + Z.of_nat 0) with lo in * by lia.
      unfold for_loopM in Hf. rewrite zrange_nil in Hf by lia.
      simpl in Hf. now inversion Hf; subst.
    - replace (lo + Z.of_nat (S n)) with (lo + Z.of_nat n + 1) in * by lia.
      unfold for_loopM in *. rewrite zrange_snoc in Hf by lia.
      rewrite foldM_app in Hf.
      destruct (foldM body (zrange lo (lo + Z.of_nat n)) s) as [s1|] eqn:Hs1;
        [|discriminate].
      simpl in Hf.
      destruct (body (lo + Z.of_nat n) s1) as [s2|] eqn:Hs2; [|discriminate].
      inversion Hf; subst.
      apply (Hstep (lo + Z.of_nat n) s1); auto; [lia|].
      apply IH; [lia | reflexivity]. }
  intros Hf. specialize (Hgen (Z.to_nat (hi - lo)) s').
  replace (lo + Z.of_nat (Z.to_nat (hi - lo))) with hi in Hgen by lia.
  apply Hgen; [lia | exact Hf].
Qed.

Lemma for_loopM_empty {T : Type} lo hi (body : Z -> T -> option T) s :
  hi <= lo -> for_loopM lo hi body s = Some s.
Proof. intros Hle. unfold for_loopM. now rewrite zrange_nil. Qed.

(** ** What the later stages leave alone *)

Lemma ComputeFlowAcc_frame st : exists a, ComputeFlowAcc st = set_accum st a.
Proof.
  unfold ComputeFlowAcc. cbv zeta.
  set (P := fun s : FastScape => exists a, s = set_accum st a).
  assert (H1 : P (for_loop 0 (size st)
     (fun i s => set_accum s (upd (accum s) i cell_area)) st)).
  { unfold for_loop. apply fold_left_inv.
    - exists (accum st). apply FastScape_eta.
    - intros s i _ [a ->]. eexists. reflexivity. }
  apply fold_left_inv; [exact H1|].
  intros s li _ [a ->]. unfold accum_level. cbv zeta.
  unfold for_loop. apply fold_left_inv.
  - now exists a.
  - intros s' si _ [a' ->]. unfold accum_cell. cbv zeta.
    destruct (negb _); eexists; reflexivity.
Qed.

Lemma uplift_fold st l :
  NoDup l ->
  exists hh,
    fold_left (fun s c => set_h s (upd (h s) c (h s c + ueq * dt)%Q)) l st
    = set_h st hh
    /\ (forall c, In c l -> hh c = (h st c + ueq * dt)%Q)
    /\ (forall c, ~ In c l -> hh c = h st c).
Proof.
  induction l as [|a l IH] using rev_ind; intros Hnd.
  - exists (h st). simpl. split; [apply FastScape_eta|]. split; [intros c []|auto].
  - apply NoDup_remove in Hnd. rewrite app_nil_r in Hnd.
    destruct Hnd as [Hnd Hnotin].
    destruct (IH Hnd) as (hh & Heq & Hin & Hout).
    rewrite fold_left_app. simpl. rewrite Heq. simpl.
    exists (upd hh a (hh a + ueq * dt)%Q). split; [reflexivity|]. split.
    + intros c Hc. apply in_app_or in Hc. destruct Hc as [Hc | [<- | []]].
      * rewrite upd_other by congruence. now apply Hin.
      * rewrite upd_same. now rewrite (Hout a Hnotin).
    + intros c Hc. rewrite upd_other.
      * apply Hout. intros Hin'. apply Hc. apply in_or_app. now left.
      * intros ->. apply Hc. apply in_or_app. right. now left.
Qed.

Lemma NoDup_interior st : NoDup (interior st).
Proof. unfold interior. apply NoDup_cells; lia. Qed.

Lemma AddUplift_spec st :
  exists hh,
    AddUplift st = set_h st hh
    /\ (forall c, In c (interior st) -> hh c = (h st c + ueq * dt)%Q)
    /\ (forall c, ~ In c (interior st) -> hh c = h st c).
Proof.
  unfold AddUplift. cbv zeta.
  rewrite (for_loop_cells (width st) 2 (height st - 2) 2 (width st - 2)
             (fun c s => set_h s (upd (h s) c (h s c + ueq * dt)%Q))).
  apply uplift_fold, NoDup_interior.
Qed.

(** ** Initialisation *)

(** The coordinates visited by a doubly nested loop, in order. *)
Definition coords (y0 y1 x0 x1 : Z) : list (Z * Z) :=
  flat_map (fun y => map (fun x => (y, x)) (zrange x0 x1)) (zrange y0 y1).

Lemma for_loop_coords {T : Type} y0 y1 x0 x1 (body : Z -> Z -> T -> T) s :
  for_loop y0 y1 (fun y s => for_loop x0 x1 (fun x s => body y x s) s) s
  = fold_left (fun s p => body (fst p) (snd p) s) (coords y0 y1 x0 x1) s.
Proof.
  unfold for_loop, coords. generalize (zrange y0 y1) as ys.
  intros ys. revert s. induction ys as [|y ys IH]; intros s; simpl.
  - reflexivity.
  - rewrite fold_left_app, IH. f_equal.
    now rewrite fold_left_map.
Qed.

Lemma cells_coords W y0 y1 x0 x1 :
  cells W y0 y1 x0 x1 = map (fun p => fst p * W + snd p) (coords y0 y1 x0 x1).
Proof.
  unfold cells, coords. induction (zrange y0 y1) as [|y ys IH]; simpl.
  - reflexivity.
  - rewrite map_app, IH, map_map. reflexivity.
Qed.

Lemma In_coords y0 y1 x0 x1 y x :
  In (y, x) (coords y0 y1 x0 x1) <-> y0 <= y < y1 /\ x0 <= x < x1.
Proof.
  unfold coords. rewrite in_flat_map. split.
  - intros (y' & Hy & Hin). apply in_map_iff in Hin.
    destruct Hin as (x' & Heq & Hx). inversion Heq; subst.
    apply In_zrange in Hy. apply In_zrange in Hx. auto.
  - intros (Hy & Hx). exists y. split; [now apply In_zrange|].
    apply in_map_iff. exists x. split; [reflexivity | now apply In_zrange].
Qed.

(** The two outermost rings of the grid. *)
Definition on_rings (W H y x : Z) : bool :=
  (x =? 0) || (y =? 0) || (x =? W - 1) || (y =? H - 1)
  || (x =? 1) || (y =? 1) || (x =? W - 2) || (y =? H - 2).

(** The elevation that [GenerateRandomTerrain] leaves in cell [(y,x)]. *)
Definition terrain (W H : Z) (rnd : Z -> Q) (y x : Z) : Q :=
  if on_rings W H y x then 0%Q else rnd (y * W + x).

Lemma terrain_cell_spec rnd W H y x st hh :
  exists hh',
    terrain_cell rnd W H y x (set_h st hh) = set_h st hh'
    /\ hh' (y * W + x) = terrain W H rnd y x
    /\ forall j, j <> y * W + x -> hh' j = hh j.
Proof.
  unfold terrain_cell, terrain, on_rings. cbv zeta. fs_simpl.
  set (c := y * W + x).
  set (t0 := (x =? 0) || (y =? 0) || (x =? W - 1) || (y =? H - 1)).
  replace (t0 || (x =? 1) || (y =? 1) || (x =? W - 2) || (y =? H - 2))
    with (t0 || ((x =? 1) || (y =? 1) || (x =? W - 2) || (y =? H - 2)))
    by (now rewrite !orb_assoc).
  set (t1 := (x =? 1) || (y =? 1) || (x =? W - 2) || (y =? H - 2)).
  destruct t0, t1; cbn [orb]; fs_simpl; eexists; (split; [reflexivity|]);
    (split; [now rewrite upd_same|]);
    intros j Hj; now rewrite ?upd_other by exact Hj.
Qed.

Lemma terrain_fold rnd W H st (l : list (Z * Z)) :
  NoDup (map (fun p => fst p * W + snd p) l) ->
  exists hh,
    fold_left (fun s p => terrain_cell rnd W H (fst p) (snd p) s) l st
    = set_h st hh
    /\ (forall y x, In (y, x) l -> hh (y * W + x) = terrain W H rnd y x)
    /\ (forall c, ~ In c (map (fun p => fst p * W + snd p) l) ->
          hh c = h st c).
Proof.
  induction l as [|[y x] l IH] using rev_ind; intros Hnd.
  - exists (h st). cbn [fold_left]. split; [apply FastScape_eta|].
    split; [intros ? ? []|auto].
  - rewrite map_app in Hnd. cbn [map fst snd] in Hnd.
    apply NoDup_remove in Hnd. rewrite app_nil_r in Hnd.
    destruct Hnd as [Hnd Hnotin].
    destruct (IH Hnd) as (hh & Heq & Hin & Hout).
    rewrite fold_left_app. cbn [fold_left fst snd]. rewrite Heq.
    destruct (terrain_cell_spec rnd W H y x st hh) as (hh' & Heq' & Hc & Hoth).
    exists hh'. split; [exact Heq'|]. split.
    + intros y' x' Hyx. apply in_app_or in Hyx.
      destruct Hyx as [Hyx | [Heq2 | []]].
      * rewrite Hoth; [now apply Hin|].
        intros Hcc. apply Hnotin. rewrite <- Hcc.
        apply (in_map (fun p => fst p * W + snd p) l (y', x') Hyx).
      * inversion Heq2; subst. exact Hc.
    + intros j Hj. rewrite map_app in Hj. cbn [map fst snd] in Hj.
      rewrite Hoth.
      * apply Hout. intros Hin'. apply Hj. apply in_or_app. now left.
      * intros ->. apply Hj. apply in_or_app. right. now left.
Qed.

Lemma GenerateRandomTerrain_spec rnd st :
  exists hh,
    GenerateRandomTerrain rnd st = set_h st hh
    /\ (forall y x, 0 <= y < height st -> 0 <= x < width st ->
          hh (y * width st + x) = terrain (width st) (height st) rnd y x).
Proof.
  unfold GenerateRandomTerrain. cbv zeta.
  rewrite (for_loop_coords 0 (height st) 0 (width st)
             (fun y x s => terrain_cell rnd (width st) (height st) y x s)).
  destruct (terrain_fold rnd (width st) (height st) st
              (coords 0 (height st) 0 (width st))) as (hh & Heq & Hin & _).
  - rewrite <- cells_coords. apply NoDup_cells; lia.
  - exists hh. split; [exact Heq|].
    intros y x Hy Hx. apply Hin. now apply In_coords.
Qed.

(** Membership in the interior, by coordinates. *)
Lemma In_interior_coords st y x :
  0 <= x < width st ->
  (In (y * width st + x) (interior st) <->
   2 <= y < height st - 2 /\ 2 <= x < width st - 2).
Proof.
  intros Hx. unfold interior. rewrite In_cells. split.
  - intros (y' & x' & Hc & Hy' & Hx').
    destruct (cell_coords_unique (width st) x y x' y') as [-> ->]; auto; lia.
  - intros (Hy & Hx2). exists y, x. auto.
Qed.

Lemma terrain_range W H rnd y x :
  (forall c, 0 <= rnd c <= 1)%Q -> (0 <= terrain W H rnd y x <= 1)%Q.
Proof.
  intros Hr. unfold terrain. destruct (on_rings W H y x); [lra | apply Hr].
Qed.

Lemma terrain_rings W H rnd y x :
  ~ (2 <= y < H - 2 /\ 2 <= x < W - 2) -> 0 <= y < H -> 0 <= x < W ->
  terrain W H rnd y x = 0%Q.
Proof.
  intros Hn Hy Hx. unfold terrain.
  assert (Hr : on_rings W H y x = true).
  { unfold on_rings. rewrite !orb_true_iff, !Z.eqb_eq. lia. }
  now rewrite Hr.
Qed.

Lemma fill_rec st n :
  exists r,
    for_loop 0 n (fun i s => set_rec s (upd (rec s) i NO_FLOW)) st
    = set_rec st r
    /\ forall j, 0 <= j < n -> r j = NO_FLOW.
Proof.
  destruct (Z_le_gt_dec 0 n) as [Hle | Hgt].
  2:{ rewrite for_loop_empty by lia. exists (rec st).
      split; [apply FastScape_eta | intros; lia]. }
  apply (for_loop_ind 0 n _
           (fun i s => exists r, s = set_rec st r
                                 /\ forall j, 0 <= j < i -> r j = NO_FLOW));
    [exact Hle| |].
  - exists (rec st). split; [apply FastScape_eta | intros; lia].
  - intros i s Hi (r & -> & Hr). fs_simpl.
    exists (upd r i NO_FLOW). split; [reflexivity|].
    intros j Hj. destruct (Z.eq_dec j i) as [->|Hne].
    + now rewrite upd_same.
    + rewrite upd_other by exact Hne. apply Hr. lia.
Qed.

Lemma fill_ndon st n :
  exists nd,
    for_loop 0 n (fun i s => set_ndon s (upd (ndon s) i 0)) st
    = set_ndon st nd
    /\ forall j, 0 <= j < n -> nd j = 0.
Proof.
  destruct (Z_le_gt_dec 0 n) as [Hle | Hgt].
  2:{ rewrite for_loop_empty by lia. exists (ndon st).
      split; [apply FastScape_eta | intros; lia]. }
  apply (for_loop_ind 0 n _
           (fun i s => exists nd, s = set_ndon st nd
                                  /\ forall j, 0 <= j < i -> nd j = 0));
    [exact Hle| |].
  - exists (ndon st). split; [apply FastScape_eta | intros; lia].
  - intros i s Hi (nd & -> & Hr). fs_simpl.
    exists (upd nd i 0). split; [reflexivity|].
    intros j Hj. destruct (Z.eq_dec j i) as [->|Hne].
    + now rewrite upd_same.
    + rewrite upd_other by exact Hne. apply Hr. lia.
Qed.

(** The elevations of the outermost two rings are zero. *)
Definition zero_rings (st : FastScape) : Prop :=
  forall c, In c (grid st) -> ~ In c (interior st) -> h st c = 0%Q.

Section Runs.

Variable pow_meq : Q -> Q.

Lemma run_init_spec u st :
  exists r nd,
    run_init u st
    = mkFastScape (width st) (height st) (size st) (h st) (u_accum u) r
        (u_donor u) nd (u_stack u) (nshift st) (u_levels u) (nlevel st)
    /\ (forall j, 0 <= j < size st -> r j = NO_FLOW)
    /\ (forall j, 0 <= j < size st -> nd j = 0).
Proof.
  unfold run_init. cbv zeta. fs_simpl.
  set (st1 := mkFastScape _ _ _ _ _ _ _ _ _ _ _ _).
  destruct (fill_rec st1 (size st)) as (r & Hr & Hrv). rewrite Hr.
  change (size (set_rec st1 r)) with (size st).
  destruct (fill_ndon (set_rec st1 r) (size st)) as (nd & Hnd & Hndv).
  rewrite Hnd. exists r, nd. split; [reflexivity|]. auto.
Qed.

Lemma start_shape width0 height0 rnd u u' :
  shape_inv (run_init u' (new_FastScape width0 height0 rnd u)).
Proof.
  unfold new_FastScape.
  set (st0 := mkFastScape _ _ _ _ _ _ _ _ _ _ _ _).
  destruct (GenerateRandomTerrain_spec rnd st0) as (hh & Heq & _).
  rewrite Heq.
  destruct (run_init_spec u' (set_h st0 hh)) as (r & nd & Hri & Hr & Hnd).
  rewrite Hri. unfold st0 in *. fs_simpl in Hr. fs_simpl in Hnd.
  assert (Hidx : forall c, In c (cells width0 0 height0 0 width0) ->
                           0 <= c < width0 * height0).
  { intros c Hc. apply In_cells in Hc.
    destruct Hc as (y & x & -> & Hy & Hx). nia. }
  constructor; fs_simpl.
  - reflexivity.
  - reflexivity.
  - intros c Hc _. apply Hr, Hidx, Hc.
  - intros c Hc. rewrite Hr by (apply Hidx, Hc). unfold NO_FLOW. lia.
  - intros c Hc. rewrite Hnd by (apply Hidx, Hc). lia.
  - intros c Hc _. apply Hnd, Hidx, Hc.
Qed.

Lemma start_heights width0 height0 rnd u u' :
  (forall c, 0 <= rnd c <= 1)%Q ->
  let st := run_init u' (new_FastScape width0 height0 rnd u) in
  zero_rings st /\ forall c, In c (grid st) -> (0 <= h st c <= 1)%Q.
Proof.
  intros Hrnd. unfold new_FastScape.
  set (st0 := mkFastScape _ _ _ _ _ _ _ _ _ _ _ _).
  destruct (GenerateRandomTerrain_spec rnd st0) as (hh & Heq & Hh).
  rewrite Heq.
  destruct (run_init_spec u' (set_h st0 hh)) as (r & nd & Hri & _ & _).
  rewrite Hri. unfold st0 in *. fs_simpl in Hh. cbv zeta.
  unfold zero_rings, grid, interior. fs_simpl. split.
  - intros c Hc Hni. apply In_cells in Hc.
    destruct Hc as (y & x & -> & Hy & Hx).
    rewrite Hh by lia. apply terrain_rings; try lia.
    intros Hin. apply Hni. apply In_cells. exists y, x. auto.
  - intros c Hc. apply In_cells in Hc.
    destruct Hc as (y & x & -> & Hy & Hx).
    rewrite Hh by lia. now apply terrain_range.
Qed.

(** *** Fuel of the level loop *)

Lemma level_loop_mono fuel fuel' o o' :
  level_loop fuel o = Some o' -> (fuel <= fuel')%nat ->
  level_loop fuel' o = Some o'.
Proof.
  revert fuel' o. induction fuel as [|fuel IH]; intros fuel' o Hl Hle.
  - simpl in Hl. destruct (level_bottom o <? level_top o) eqn:Hc;
      [discriminate|].
    destruct fuel'; simpl; now rewrite Hc.
  - simpl in Hl. destruct (level_bottom o <? level_top o) eqn:Hc.
    + destruct fuel' as [|fuel']; [lia|]. simpl. rewrite Hc.
      apply IH; [exact Hl | lia].
    + destruct fuel'; simpl; now rewrite Hc.
Qed.

Lemma GenerateOrder_locals_mono fuel fuel' st o :
  GenerateOrder_locals fuel st = Some o -> (fuel <= fuel')%nat ->
  GenerateOrder_locals fuel' st = Some o.
Proof.
  unfold GenerateOrder_locals. cbv zeta. intros Hg Hle.
  destruct (level_loop fuel _) as [o1|] eqn:Hl; [|discriminate].
  now rewrite (level_loop_mono fuel fuel' _ o1 Hl Hle).
Qed.

(** Whatever the fuel, a result of [GenerateOrder] on a flow graph is the
    completed traversal. *)
Lemma GenerateOrder_locals_post fuel st o :
  flow_graph st -> GenerateOrder_locals fuel st = Some o ->
  exists m, (m <= length (grid st))%nat
            /\ order_post st (o_st o) (nstack o) m.
Proof.
  intros Hg Ho.
  set (M := length (grid st)).
  destruct (GenerateOrder_locals_spec st M (Nat.max fuel (S M))
              (lvl_grid_empty st Hg) ltac:(lia)) as (o' & m & Ho' & Hm & Hp).
  rewrite (GenerateOrder_locals_mono fuel (Nat.max fuel (S M)) st o Ho
             ltac:(lia)) in Ho'.
  inversion Ho'; subst. exists m. auto.
Qed.

Lemma GenerateOrder_total fuel st :
  flow_graph st -> (S (length (grid st)) <= fuel)%nat ->
  exists o m, GenerateOrder_locals fuel st = Some o
              /\ (m <= length (grid st))%nat
              /\ order_post st (o_st o) (nstack o) m.
Proof.
  intros Hg Hf.
  apply (GenerateOrder_locals_spec st (length (grid st)) fuel); auto.
  now apply lvl_grid_empty.
Qed.

End Runs.

(** ** Stage 6: erosion, cell by cell *)

Section Erosion.

Variable pow_meq : Q -> Q.

Lemma erode_cell_h_only fuel si s s' :
  erode_cell pow_meq fuel si s = Some s' -> exists hh, s' = set_h s hh.
Proof.
  unfold erode_cell. cbv zeta.
  destruct (rec s (stack s si) =? NO_FLOW).
  - intros Heq. inversion Heq; subst. exists (h s'). apply FastScape_eta.
  - destruct (newton _ _ _ _ _ _ _) as [hnew|]; [|discriminate].
    intros Heq. inversion Heq; subst. eexists. reflexivity.
Qed.

Lemma for_loopM_snoc {T : Type} lo i (body : Z -> T -> option T) s :
  lo <= i ->
  for_loopM lo (i + 1) body s
  = match for_loopM lo i body s with
    | Some s' => body i s'
    | None => None
    end.
Proof.
  intros Hle. unfold for_loopM. rewrite zrange_snoc by exact Hle.
  rewrite foldM_app. destruct (foldM body (zrange lo i) s); [|reflexivity].
  simpl. now destruct (body i t).
Qed.

Lemma for_loopM_app {T : Type} lo mid hi (body : Z -> T -> option T) s :
  lo <= mid <= hi ->
  for_loopM lo hi body s
  = match for_loopM lo mid body s with
    | Some s' => for_loopM mid hi body s'
    | None => None
    end.
Proof.
  intros Hle. unfold for_loopM. rewrite (zrange_app lo mid hi) by exact Hle.
  apply foldM_app.
Qed.

Lemma erode_cells_h_only fuel lo hi s s' :
  for_loopM lo hi (erode_cell pow_meq fuel) s = Some s' ->
  exists hh, s' = set_h s hh.
Proof.
  unfold for_loopM. apply (foldM_inv _ (fun t => exists hh, t = set_h s hh)).
  - exists (h s). apply FastScape_eta.
  - intros i s1 s2 _ (hh & ->) Hb.
    destruct (erode_cell_h_only fuel i _ s2 Hb) as (hh' & ->).
    eexists. reflexivity.
Qed.

(** With the level boundaries that the ordering stage leaves, the two
    nested loops of [Erode] visit the stack positions in increasing order. *)
Lemma Erode_flat st0 st m fuel :
  nlevel st = Z.of_nat m + 2 ->
  (forall i, (i <= S m)%nat -> levels st (Z.of_nat i) = pre st0 i) ->
  Erode pow_meq fuel st
  = for_loopM 0 (pre st0 (S m)) (erode_cell pow_meq fuel) st.
Proof.
  intros Hnl Hlv. unfold Erode. rewrite Hnl.
  replace (Z.of_nat m + 2 - 1) with (Z.of_nat (S m)) by lia.
  assert (Hgen : forall K, (K <= S m)%nat ->
     for_loopM 0 (Z.of_nat K) (erode_level pow_meq fuel) st
     = for_loopM 0 (pre st0 K) (erode_cell pow_meq fuel) st).
  { induction K as [|K IH]; intros HK.
    - cbn [pre]. change (Z.of_nat 0) with 0.
      now rewrite !for_loopM_empty by lia.
    - replace (Z.of_nat (S K)) with (Z.of_nat K + 1) by lia.
      rewrite for_loopM_snoc by lia. rewrite IH by lia.
      rewrite (for_loopM_app 0 (pre st0 K) (pre st0 (S K)))
        by (split; [apply pre_nonneg | apply pre_mono; lia]).
      destruct (for_loopM 0 (pre st0 K) (erode_cell pow_meq fuel) st)
        as [s1|] eqn:Hs1; [|reflexivity].
      destruct (erode_cells_h_only fuel _ _ _ _ Hs1) as (hh & ->).
      unfold erode_level. cbv zeta. fs_simpl.
      rewrite (Hlv K) by lia.
      replace (Z.of_nat K + 1) with (Z.of_nat (S K)) by lia.
      rewrite (Hlv (S K)) by lia. reflexivity. }
  apply Hgen. lia.
Qed.

End Erosion.

(** ** Following receiver links *)

(** [reach st y x]: the flow of [y] arrives at [x] after some number of
    receiver links (possibly none). *)
Inductive reach (st : FastScape) : Z -> Z -> Prop :=
| reach_refl : forall y, reach st y y
| reach_next : forall y x,
    rec st y <> NO_FLOW -> reach st (recv st y) x -> reach st y x.

(** The executable form: follow at most [fuel] links from [y]. *)
Fixpoint flows_to (st : FastScape) (fuel : nat) (y x : Z) : bool :=
  (y =? x)
  || match fuel with
     | O => false
     | S fuel' =>
         negb (rec st y =? NO_FLOW) && flows_to st fuel' (recv st y) x
     end.

(** The cells of the grid whose flow reaches [x], [x] included. *)
Definition upstream (st : FastScape) (x : Z) : list Z :=
  filter (fun y => flows_to st (length (grid st)) y x) (grid st).

Lemma reach_grid st y x :
  flow_graph st -> reach st y x -> In y (grid st) -> In x (grid st).
Proof.
  intros Hg. induction 1 as [y | y x Hr Hreach IH]; intros Hy; [exact Hy|].
  apply IH. apply frame_grid. now apply recv_frame.
Qed.

Lemma reach_h st y x :
  flow_graph st -> reach st y x -> In y (grid st) ->
  (h st x <= h st y)%Q /\ (y <> x -> (h st x < h st y)%Q).
Proof.
  intros Hg. induction 1 as [y | y x Hr Hreach IH]; intros Hy.
  - split; [lra | congruence].
  - destruct (fg_rec st Hg y Hy Hr) as (_ & _ & Hlt).
    destruct (IH (frame_grid st _ (recv_frame st y Hg Hy Hr))) as [Hle _].
    split; [lra | intros _; lra].
Qed.

Lemma reach_snoc st y d :
  reach st y d -> rec st d <> NO_FLOW -> reach st y (recv st d).
Proof.
  induction 1 as [y | y x Hr Hreach IH]; intros Hd.
  - apply reach_next; [exact Hd | apply reach_refl].
  - apply reach_next; [exact Hr | now apply IH].
Qed.

Lemma reach_last st y x :
  reach st y x ->
  y = x \/ exists d, reach st y d /\ rec st d <> NO_FLOW /\ recv st d = x.
Proof.
  induction 1 as [y | y x Hr Hreach IH]; [now left|].
  right. destruct IH as [<- | (d & Hd & Hrd & Hx)].
  - exists y. repeat split; auto. apply reach_refl.
  - exists d. repeat split; auto. now apply reach_next.
Qed.

Lemma reach_linear st y a b :
  reach st y a -> reach st y b -> reach st a b \/ reach st b a.
Proof.
  induction 1 as [y | y a Hr Hreach IH]; intros Hb; [now left|].
  inversion Hb as [| ? ? Hr' Hreach']; subst.
  - right. now apply reach_next.
  - now apply IH.
Qed.

Lemma flows_to_reach_sound st fuel y x :
  flows_to st fuel y x = true -> reach st y x.
Proof.
  revert y. induction fuel as [|fuel IH]; intros y; simpl.
  - rewrite orb_false_r, Z.eqb_eq. intros ->. apply reach_refl.
  - rewrite orb_true_iff, andb_true_iff, negb_true_iff, Z.eqb_eq, Z.eqb_neq.
    intros [-> | [Hr Hf]]; [apply reach_refl|].
    apply reach_next; [exact Hr | now apply IH].
Qed.

Lemma flows_to_reach_complete st fuel y x :
  flow_graph st -> reach st y x -> In y (grid st) ->
  (rank st y <= fuel)%nat -> flows_to st fuel y x = true.
Proof.
  intros Hg Hreach. revert fuel.
  induction Hreach as [y | y x Hr Hreach IH]; intros fuel Hy Hrank.
  - destruct fuel; simpl; now rewrite Z.eqb_refl.
  - assert (Hlt := rank_recv st y Hg Hy Hr).
    destruct fuel as [|fuel]; [lia|]. simpl.
    apply orb_true_iff. right. apply andb_true_iff. split.
    + apply negb_true_iff, Z.eqb_neq. exact Hr.
    + apply IH; [|lia]. apply frame_grid. now apply recv_frame.
Qed.

Lemma In_upstream st x y :
  flow_graph st ->
  (In y (upstream st x) <-> In y (grid st) /\ reach st y x).
Proof.
  intros Hg. unfold upstream. rewrite filter_In. split.
  - intros [Hy Hf]. split; [exact Hy|]. exact (flows_to_reach_sound st _ y x Hf).
  - intros [Hy Hr]. split; [exact Hy|].
    apply flows_to_reach_complete; auto.
    assert (Hlt := rank_lt_grid st y Hy). lia.
Qed.

Lemma NoDup_upstream st x : NoDup (upstream st x).
Proof. unfold upstream. apply NoDup_filter, NoDup_grid. Qed.

(** *** Counting the cells upstream *)

(** The donors of [x] among the cells of the grid. *)
Definition donors_of (st : FastScape) (x : Z) : list Z :=
  filter (gives_to st x) (grid st).

Lemma In_donors_of st x d :
  In d (donors_of st x) <->
  In d (grid st) /\ rec st d <> NO_FLOW /\ recv st d = x.
Proof. unfold donors_of. now rewrite filter_In, gives_to_true. Qed.

Lemma filter_length_or {A : Type} (p q : A -> bool) l :
  (forall y, In y l -> p y = true -> q y = false) ->
  length (filter (fun y => p y || q y) l)
  = (length (filter p l) + length (filter q l))%nat.
Proof.
  induction l as [|a l IH]; intros Hex; simpl; [reflexivity|].
  assert (IH' := IH (fun y Hy => Hex y (or_intror Hy))).
  destruct (p a) eqn:Hp.
  - rewrite (Hex a (or_introl eq_refl) Hp). simpl. lia.
  - destruct (q a); simpl; lia.
Qed.

Lemma filter_length_existsb {A B : Type} (f : A -> B -> bool) l ds :
  NoDup ds ->
  (forall y d d', In y l -> In d ds -> In d' ds ->
     f y d = true -> f y d' = true -> d = d') ->
  length (filter (fun y => existsb (f y) ds) l)
  = list_sum (map (fun d => length (filter (fun y => f y d) l)) ds).
Proof.
  induction ds as [|d ds IH]; intros Hnd Hex; simpl.
  - clear Hex. induction l as [|a l IHl]; simpl; auto.
  - inversion Hnd as [|? ? Hnotin Hnd']; subst.
    rewrite filter_length_or.
    + f_equal. apply IH; auto.
      intros y d1 d2 Hy H1 H2. apply Hex; auto; now right.
    + intros y Hy Hf. apply not_true_is_false. intros He.
      apply existsb_exists in He. destruct He as (d' & Hd' & Hf').
      assert (d = d') by (apply (Hex y d d'); auto; [now left | now right]).
      subst d'. contradiction.
Qed.

Lemma filter_length_eq l x :
  NoDup l -> In x l -> length (filter (fun y => y =? x) l) = 1%nat.
Proof.
  induction l as [|a l IH]; intros Hnd Hx; [destruct Hx|].
  inversion Hnd as [|? ? Hnotin Hnd']; subst. simpl.
  destruct (Z.eqb_spec a x) as [->|Hne].
  - simpl. f_equal.
    assert (Hnone : forall l', ~ In x l' ->
              length (filter (fun y => y =? x) l') = O).
    { induction l' as [|b l' IHl']; intros Hb; simpl; [reflexivity|].
      destruct (Z.eqb_spec b x) as [->|Hbx].
      - exfalso. apply Hb. now left.
      - apply IHl'. intros Hin. apply Hb. now right. }
    now apply Hnone.
  - apply IH; auto. destruct Hx as [Hx|Hx]; [congruence | exact Hx].
Qed.

(** A cell reaches [x] either because it is [x] or through exactly one
    donor of [x]. *)
Lemma upstream_count st x :
  flow_graph st -> In x (grid st) ->
  length (upstream st x)
  = S (list_sum (map (fun d => length (upstream st d)) (donors_of st x))).
Proof.
  intros Hg Hx. unfold upstream at 1.
  set (F := length (grid st)).
  assert (Hiff : forall y d, In y (grid st) ->
            (flows_to st F y d = true <-> reach st y d)).
  { intros y d Hy. split; [apply flows_to_reach_sound|].
    intros Hr. apply flows_to_reach_complete; auto.
    assert (Hlt := rank_lt_grid st y Hy). unfold F. lia. }
  rewrite (filter_ext_in _
     (fun y => (y =? x) || existsb (flows_to st F y) (donors_of st x))).
  - rewrite filter_length_or.
    + rewrite (filter_length_eq (grid st) x (NoDup_grid st) Hx).
      simpl. f_equal.
      apply (filter_length_existsb (flows_to st F)).
      * unfold donors_of. apply NoDup_filter, NoDup_grid.
      * intros y d d' Hy Hd Hd' Hf Hf'.
        apply In_donors_of in Hd. apply In_donors_of in Hd'.
        destruct Hd as (Hdg & Hdr & Hdx), Hd' as (Hdg' & Hdr' & Hdx').
        apply (Hiff y d Hy) in Hf. apply (Hiff y d' Hy) in Hf'.
        destruct (Z.eq_dec d d') as [He | Hne]; [exact He | exfalso].
        assert (Hcyc : forall a b, In a (grid st) -> In b (grid st) ->
                  rec st a <> NO_FLOW -> rec st b <> NO_FLOW ->
                  recv st a = x -> recv st b = x -> a <> b ->
                  reach st a b -> False).
        { intros a b Ha Hb Hra Hrb Hax Hbx Hab Hreach.
          inversion Hreach as [| ? ? _ Hreach']; subst; [congruence|].
          destruct (reach_h st _ _ Hg Hreach'
                      (frame_grid st _ (recv_frame st a Hg Ha Hra))) as [Hle _].
          destruct (fg_rec st Hg b Hb Hrb) as (_ & _ & Hlt).
          rewrite Hax in Hle. rewrite Hbx in Hlt. lra. }
        destruct (reach_linear st y d d' Hf Hf') as [Hr | Hr].
        -- apply (Hcyc d d'); auto.
        -- apply (Hcyc d' d); auto.
    + intros y Hy Heq. apply Z.eqb_eq in Heq. subst y.
      apply not_true_is_false. intros He.
      apply existsb_exists in He. destruct He as (d & Hd & Hf).
      apply In_donors_of in Hd. destruct Hd as (Hdg & Hdr & Hdx).
      apply (Hiff x d Hx) in Hf.
      destruct (reach_h st _ _ Hg Hf Hx) as [Hle _].
      destruct (fg_rec st Hg d Hdg Hdr) as (_ & _ & Hlt).
      rewrite Hdx in Hlt. lra.
  - intros y Hy. apply eq_true_iff_eq.
    rewrite (Hiff y x Hy), orb_true_iff, Z.eqb_eq, existsb_exists. split.
    + intros Hr. destruct (reach_last st y x Hr) as [He | (d & Hd & Hrd & Hdx)];
        [now left|].
      right. exists d. split.
      * apply In_donors_of. repeat split; auto.
        now apply (reach_grid st y d).
      * now apply Hiff.
    + intros [-> | (d & Hd & Hf)]; [apply reach_refl|].
      apply In_donors_of in Hd. destruct Hd as (Hdg & Hdr & Hdx).
      apply (Hiff y d Hy) in Hf. rewrite <- Hdx. now apply reach_snoc.
Qed.

(** ** Stage 4: flow accumulation *)

(** The body of the accumulation loop, as a function of the cell. *)
Definition acc_push (c : Z) (st : FastScape) : FastScape :=
  if negb (rec st c =? NO_FLOW) then
    let n := c + nshift st (rec st c) in
    set_accum st (upd (accum st) n (accum st n + accum st c)%Q)
  else st.

(** The levels [k], [k-1], ..., [1], in the order in which
    [ComputeFlowAcc] visits them. *)
Fixpoint down (st : FastScape) (k : nat) : list Z :=
  match k with
  | O => []
  | S k' => lvl st (S k') ++ down st k'
  end.

Definition qn (n : nat) : Q := inject_Z (Z.of_nat n).

Lemma qn_add a b : (qn (a + b) == qn a + qn b)%Q.
Proof. unfold qn. now rewrite Nat2Z.inj_add, inject_Z_plus. Qed.

Lemma qn_nonneg n : (0 <= qn n)%Q.
Proof.
  unfold qn. change 0%Q with (inject_Z 0). rewrite <- Zle_Qle. lia.
Qed.

Lemma acc_push_frame c s a st :
  s = set_accum st a -> exists a', acc_push c s = set_accum st a'.
Proof.
  intros ->. unfold acc_push. cbv zeta. fs_simpl.
  destruct (negb _); eexists; reflexivity.
Qed.

Lemma accum_cells_fold st l s :
  stack s = stack st ->
  fold_left (fun s si => accum_cell si s) l s
  = fold_left (fun s c => acc_push c s) (map (stack st) l) s.
Proof.
  revert s. induction l as [|a l IH]; intros s Hs; [reflexivity|].
  cbn [fold_left map].
  change (accum_cell a s) with (acc_push (stack s a) s).
  rewrite Hs. apply IH. rewrite <- Hs. unfold acc_push. cbv zeta.
  destruct (negb _); reflexivity.
Qed.

Lemma In_down st k c :
  In c (down st k) <-> exists j, (1 <= j <= k)%nat /\ In c (lvl st j).
Proof.
  induction k as [|k IH].
  - simpl. split; [intros [] | intros (j & Hj & _); lia].
  - cbn [down]. rewrite in_app_iff, IH. split.
    + intros [Hc | (j & Hj & Hc)]; [exists (S k) | exists j]; split; auto; lia.
    + intros (j & Hj & Hc).
      destruct (Nat.eq_dec j (S k)) as [->|Hne]; [now left|].
      right. exists j. split; [lia | exact Hc].
Qed.

Lemma NoDup_down st k : flow_graph st -> NoDup (down st k).
Proof.
  intros Hg. induction k as [|k IH]; cbn [down]; [constructor|].
  apply NoDup_app; [now apply NoDup_lvl | exact IH |].
  intros c Hc Hc'. apply In_down in Hc'. destruct Hc' as (j & Hj & Hc').
  assert (S k = j) by (apply (lvl_unique st (S k) j c); auto). lia.
Qed.

(** The accumulated value of [x] when the cells of [P] have been visited:
    the cell itself and all that is upstream of its visited donors. *)
Definition acc_sum (st : FastScape) (P : list Z) (x : Z) : nat :=
  S (list_sum (map (fun d => length (upstream st d))
                   (filter (gives_to st x) P))).

Definition acc_inv (g st0 : FastScape) (P : list Z) (s : FastScape) : Prop :=
  (exists a, s = set_accum st0 a)
  /\ forall x, In x (grid g) ->
       (accum s x == cell_area * qn (acc_sum g P x))%Q.

Lemma list_sum_perm l l' : Permutation l l' -> list_sum l = list_sum l'.
Proof.
  induction 1 as [|a l l' Hp IH|a b l|l l' l'' H1 IH1 H2 IH2]; simpl; lia.
Qed.

(** When every donor of [c] has been visited, the value of [c] is final. *)
Lemma acc_sum_final g P c :
  flow_graph g -> In c (grid g) -> NoDup P ->
  (forall d, In d P -> In d (grid g)) ->
  (forall d, In d (donors_of g c) -> In d P) ->
  acc_sum g P c = length (upstream g c).
Proof.
  intros Hg Hc Hnd Hsub Hdon. unfold acc_sum.
  rewrite (upstream_count g c Hg Hc). f_equal.
  apply list_sum_perm, Permutation_map.
  apply NoDup_Permutation.
  - now apply NoDup_filter.
  - unfold donors_of. apply NoDup_filter, NoDup_grid.
  - intros d. rewrite filter_In. split.
    + intros [Hd Hgv]. unfold donors_of. apply filter_In. auto.
    + intros Hd. split; [now apply Hdon|].
      unfold donors_of in Hd. now apply filter_In in Hd.
Qed.

Lemma acc_fold_inv g st0 l :
  flow_graph g ->
  rec st0 = rec g -> nshift st0 = nshift g ->
  forall P s,
    acc_inv g st0 P s ->
    NoDup (P ++ l) ->
    (forall d, In d P -> In d (grid g)) ->
    (forall c, In c l -> In c (grid g) /\ rec g c <> NO_FLOW) ->
    (forall c d, In c l -> In d (donors_of g c) -> In d P) ->
    acc_inv g st0 (P ++ l) (fold_left (fun s c => acc_push c s) l s).
Proof.
  intros Hg Hrec Hns. induction l as [|c l IH];
    intros P s Hinv Hnd Hsub Hl Hdon.
  - now rewrite app_nil_r.
  - cbn [fold_left].
    replace (P ++ c :: l) with ((P ++ [c]) ++ l) in *
      by (now rewrite <- app_assoc).
    destruct (Hl c (or_introl eq_refl)) as [Hcg Hcr].
    assert (HndP : NoDup (P ++ [c])).
    { apply (NoDup_app_remove_r _ _ Hnd). }
    apply IH.
    + destruct Hinv as [(a & ->) Hval]. split.
      * apply (acc_push_frame c _ a st0 eq_refl).
      * intros x Hx. unfold acc_push. cbv zeta. fs_simpl.
        rewrite Hrec, Hns.
        assert (Hne : (rec g c =? NO_FLOW) = false) by now apply Z.eqb_neq.
        rewrite Hne. cbn [negb]. fs_simpl.
        fold (recv g c).
        assert (Hc_final : (a c == cell_area * qn (length (upstream g c)))%Q).
        { rewrite <- (acc_sum_final g P c Hg Hcg).
          - apply (Hval c Hcg).
          - apply (NoDup_app_remove_r _ _ HndP).
          - exact Hsub.
          - intros d Hd. apply (Hdon c d); auto. now left. }
        unfold acc_sum. rewrite filter_app, map_app, list_sum_app.
        cbn [filter].
        destruct (Z.eq_dec x (recv g c)) as [->|Hxn].
        -- rewrite upd_same.
           assert (Hgv : gives_to g (recv g c) c = true)
             by (apply gives_to_true; auto).
           rewrite Hgv. cbn [map].
           rewrite (Hval (recv g c) Hx), Hc_final. unfold acc_sum.
           set (A := list_sum (map (fun d => length (upstream g d))
                                   (filter (gives_to g (recv g c)) P))).
           change (list_sum [length (upstream g c)])
             with (length (upstream g c) + 0)%nat.
           replace (S (A + (length (upstream g c) + 0)))
             with (S A + length (upstream g c))%nat by lia.
           rewrite qn_add. ring.
        -- rewrite upd_other by exact Hxn.
           assert (Hgv : gives_to g x c = false).
           { apply not_true_is_false. intros Ht.
             apply gives_to_true in Ht. destruct Ht as [_ Ht]. congruence. }
           rewrite Hgv. cbn [map]. change (list_sum []) with O.
           rewrite Nat.add_0_r. apply (Hval x Hx).
    + exact Hnd.
    + intros d Hd. apply in_app_or in Hd. destruct Hd as [Hd | [<- | []]]; auto.
    + intros c' Hc'. apply Hl. now right.
    + intros c' d Hc' Hd. apply in_or_app. left. apply (Hdon c' d); auto.
      now right.
Qed.

Lemma acc_down_inv g st0 k :
  flow_graph g ->
  rec st0 = rec g -> nshift st0 = nshift g ->
  forall P s,
    acc_inv g st0 P s ->
    NoDup (P ++ down g k) ->
    (forall d, In d P -> In d (grid g)) ->
    (forall j d, (k < j)%nat -> In d (lvl g j) -> In d P) ->
    acc_inv g st0 (P ++ down g k)
      (fold_left (fun s c => acc_push c s) (down g k) s).
Proof.
  intros Hg Hrec Hns. induction k as [|k IH]; intros P s Hinv Hnd Hsub Hup.
  - cbn [down fold_left]. now rewrite app_nil_r.
  - cbn [down] in *. rewrite fold_left_app.
    rewrite app_assoc in *.
    apply IH.
    + apply acc_fold_inv; auto.
      * apply (NoDup_app_remove_r _ _ Hnd).
      * intros c Hc. apply (lvl_S g k c Hg) in Hc. tauto.
      * intros c d Hc Hd. apply (Hup (S (S k))); [lia|].
        apply In_donors_of in Hd. destruct Hd as (Hdg & Hdr & Hdx).
        apply lvl_S; auto. repeat split; auto. now rewrite Hdx.
    + exact Hnd.
    + intros d Hd. apply in_app_or in Hd. destruct Hd as [Hd | Hd]; auto.
      apply frame_grid. now apply (lvl_frame g (S k)).
    + intros j d Hj Hd. apply in_or_app.
      destruct (Nat.eq_dec j (S k)) as [->|Hne]; [now right|].
      left. apply (Hup j); [lia | exact Hd].
Qed.

Lemma fill_accum st n :
  exists a,
    for_loop 0 n (fun i s => set_accum s (upd (accum s) i cell_area)) st
    = set_accum st a
    /\ forall j, 0 <= j < n -> a j = cell_area.
Proof.
  destruct (Z_le_gt_dec 0 n) as [Hle | Hgt].
  2:{ rewrite for_loop_empty by lia. exists (accum st).
      split; [apply FastScape_eta | intros; lia]. }
  apply (for_loop_ind 0 n _
           (fun i s => exists a, s = set_accum st a
                                 /\ forall j, 0 <= j < i -> a j = cell_area));
    [exact Hle| |].
  - exists (accum st). split; [apply FastScape_eta | intros; lia].
  - intros i s Hi (a & -> & Hr). fs_simpl.
    exists (upd a i cell_area). split; [reflexivity|].
    intros j Hj. destruct (Z.eq_dec j i) as [->|Hne].
    + now rewrite upd_same.
    + rewrite upd_other by exact Hne. apply Hr. lia.
Qed.

Lemma acc_push_fold_frame st l s :
  (exists a, s = set_accum st a) ->
  exists a', fold_left (fun s c => acc_push c s) l s = set_accum st a'.
Proof.
  intros Hs. apply fold_left_inv; [exact Hs|].
  intros s' c _ (a & Ha). now apply (acc_push_frame c s' a st).
Qed.

(** The level loop of [ComputeFlowAcc] is a fold over [down]. *)
Lemma accum_levels_fold g st ns m :
  order_post g st ns m ->
  forall K, (K <= m)%nat -> forall s, (exists a, s = set_accum st a) ->
    fold_left (fun s li => accum_level li s)
      (rev (zrange 1 (Z.of_nat K + 1))) s
    = fold_left (fun s c => acc_push c s) (down g K) s.
Proof.
  intros (_&_&_&Hnl&Hlv&_&Hsl). induction K as [|K IH]; intros HK s Hs.
  - change (Z.of_nat 0 + 1) with 1. now rewrite zrange_nil by lia.
  - replace (Z.of_nat (S K) + 1) with (Z.of_nat K + 1 + 1) by lia.
    rewrite zrange_snoc by lia. rewrite rev_app_distr. cbn [rev app fold_left].
    cbn [down]. rewrite fold_left_app.
    assert (Hlevel : accum_level (Z.of_nat K + 1) s
                     = fold_left (fun s c => acc_push c s) (lvl g (S K)) s).
    { destruct Hs as (a & ->). unfold accum_level. cbv zeta. fs_simpl.
      replace (Z.of_nat K + 1) with (Z.of_nat (S K)) by lia.
      rewrite (Hlv (S K)) by lia.
      replace (Z.of_nat (S K) + 1) with (Z.of_nat (S (S K))) by lia.
      rewrite (Hlv (S (S K))) by lia.
      unfold for_loop.
      rewrite (accum_cells_fold st) by reflexivity.
      f_equal. apply (Hsl (S K)). lia. }
    rewrite Hlevel. apply IH; [lia|].
    now apply acc_push_fold_frame.
Qed.

(** After [ComputeFlowAcc], the value of a cell is the cell area times the
    number of cells upstream of it. *)
Lemma ComputeFlowAcc_spec g st ns m :
  flow_graph g -> size g = width g * height g ->
  order_post g st ns m ->
  exists a,
    ComputeFlowAcc st = set_accum st a
    /\ forall x, In x (grid g) ->
         (a x == cell_area * qn (length (upstream g x)))%Q.
Proof.
  intros Hg Hsize Hp.
  assert (Hsg : same_graph g st) by apply Hp.
  destruct Hsg as (Hw & Hh & Hsz & _ & _ & Hrec & _ & _ & Hns).
  assert (Hnl : nlevel st = Z.of_nat m + 2) by apply Hp.
  assert (Hm : lvl g m = []) by apply Hp.
  unfold ComputeFlowAcc. cbv zeta.
  destruct (fill_accum st (size st)) as (a0 & Ha0 & Hfill). rewrite Ha0.
  fs_simpl. rewrite Hnl.
  replace (Z.of_nat m + 2 - 1) with (Z.of_nat m + 1) by lia.
  rewrite (accum_levels_fold g st ns m Hp m (Nat.le_refl m))
    by (now exists a0).
  assert (Hinv0 : acc_inv g st [] (set_accum st a0)).
  { split; [now exists a0|]. intros x Hx. fs_simpl.
    rewrite Hfill.
    - unfold acc_sum. cbn [filter map]. change (list_sum []) with O.
      unfold qn. change (inject_Z (Z.of_nat 1)) with 1%Q. ring.
    - rewrite Hsz. now apply grid_index. }
  assert (Hfin := acc_down_inv g st m Hg Hrec Hns [] (set_accum st a0) Hinv0).
  cbn [app] in Hfin.
  destruct Hfin as [(a & Ha) Hval].
  - now apply NoDup_down.
  - intros d [].
  - intros j d Hj Hd. rewrite (lvl_nil_ge g m j Hm) in Hd by lia. destruct Hd.
  - exists a. split; [exact Ha|].
    intros x Hx. rewrite Ha in Hval. fs_simpl in Hval.
    rewrite (Hval x Hx).
    rewrite (acc_sum_final g (down g m) x Hg Hx); [reflexivity| | |].
    + now apply NoDup_down.
    + intros d Hd. apply In_down in Hd. destruct Hd as (j & _ & Hd).
      apply frame_grid. now apply (lvl_frame g j).
    + intros d Hd. apply In_donors_of in Hd. destruct Hd as (Hdg & Hdr & Hdx).
      destruct (fg_rec g Hg d Hdg Hdr) as (Hdi & _ & _).
      destruct (frame_in_lvl g d Hg (interior_frame g d Hdi)) as (k & _ & Hk).
      apply In_down. exists k. split; [|exact Hk].
      destruct k as [|k]; [apply lvl_0 in Hk; tauto|].
      destruct (Nat.lt_ge_cases m (S k)) as [Hlt | Hge]; [|lia].
      rewrite (lvl_nil_ge g m (S k) Hm) in Hk by lia. destruct Hk.
Qed.

(** ** The Newton-Raphson loop *)

(** The residual [F] of the implicit stream-power equation at [x]. *)
Definition residual (fact h0 hn x : Q) : Q :=
  (x - h0 + fact * ((x - hn) * (x - hn)))%Q.

(** The iterates stay between the receiver and the starting elevation, and
    the residual stays non-negative. *)
Definition newton_inv (fact h0 hn x : Q) : Prop :=
  (hn <= x)%Q /\ (x <= h0)%Q /\ (0 <= residual fact h0 hn x)%Q.

Lemma newton_step_inv fact h0 hn x :
  (0 <= fact)%Q -> newton_inv fact h0 hn x ->
  newton_inv fact h0 hn (newton_step fact h0 hn x)
  /\ (newton_step fact h0 hn x <= x)%Q.
Proof.
  intros Hf (Hlo & Hhi & Hres). unfold newton_inv, residual in *.
  unfold newton_step, pow_neq, pow_neq_1, neq.
  set (F := (x - h0 + fact * ((x - hn) * (x - hn)))%Q) in *.
  set (D := (1 + fact * 2 * (x - hn))%Q).
  assert (HD : (1 <= D)%Q).
  { unfold D. assert (0 <= fact * (x - hn))%Q by (apply Qmult_le_0_compat; lra).
    lra. }
  set (dl := (F / D)%Q).
  assert (Hdl : (dl * D == F)%Q) by (unfold dl; field; lra).
  assert (Hdl0 : (0 <= dl)%Q).
  { unfold dl. apply Qle_shift_div_l; lra. }
  assert (Hu : (0 <= x - hn)%Q) by lra.
  assert (Hfu2 : (0 <= fact * ((x - hn) * (x - hn)))%Q).
  { apply Qmult_le_0_compat; [lra|]. apply Qmult_le_0_compat; lra. }
  assert (Hlow : (0 <= (x - dl - hn) * D)%Q).
  { assert (He : ((x - dl - hn) * D
                  == (h0 - hn) + fact * ((x - hn) * (x - hn)))%Q).
    { transitivity ((x - hn) * D - dl * D)%Q; [ring|].
      rewrite Hdl. unfold F, D. ring. }
    rewrite He. lra. }
  assert (Hlow' : (hn <= x - dl)%Q).
  { destruct (Qlt_le_dec (x - dl) hn) as [Hlt | Hge]; [|exact Hge].
    exfalso.
    assert (Hneg : ((x - dl - hn) * D < 0)%Q).
    { assert (H1 : (0 < (hn - (x - dl)) * D)%Q)
        by (apply Qmult_lt_0_compat; lra).
      assert (H2 : ((x - dl - hn) * D == - ((hn - (x - dl)) * D))%Q) by ring.
      rewrite H2. lra. }
    lra. }
  assert (Hres' : (x - dl - h0 + fact * ((x - dl - hn) * (x - dl - hn))
                   == fact * (dl * dl))%Q).
  { transitivity (F - dl * D + fact * (dl * dl))%Q.
    - unfold F, D. ring.
    - rewrite Hdl. ring. }
  repeat split; try lra.
  rewrite Hres'. apply Qmult_le_0_compat; [lra|].
  apply Qmult_le_0_compat; lra.
Qed.

Lemma newton_inv_start fact h0 hn :
  (0 <= fact)%Q -> (hn <= h0)%Q -> newton_inv fact h0 hn h0.
Proof.
  intros Hf Hle. unfold newton_inv, residual. repeat split; try lra.
  assert (0 <= fact * ((h0 - hn) * (h0 - hn)))%Q.
  { apply Qmult_le_0_compat; [lra|]. apply Qmult_le_0_compat; lra. }
  lra.
Qed.

(** Partial correctness: a returned value lies between the receiver's
    elevation and the current iterate. *)
Lemma newton_sound fuel fact h0 hn x diff r :
  (0 <= fact)%Q -> newton_inv fact h0 hn x ->
  newton fuel fact h0 hn x x diff = Some r ->
  (hn <= r)%Q /\ (r <= x)%Q.
Proof.
  intros Hf. revert x diff.
  induction fuel as [|fuel IH]; intros x diff Hinv Hn; simpl in Hn.
  - destruct (Qgtb (Qabs diff) tol); [discriminate|].
    inversion Hn; subst. destruct Hinv as (? & ? & ?). lra.
  - destruct (Qgtb (Qabs diff) tol).
    + destruct (newton_step_inv fact h0 hn x Hf Hinv) as [Hinv' Hle].
      destruct (IH _ _ Hinv' Hn) as [H1 H2]. lra.
    + inversion Hn; subst. destruct Hinv as (? & ? & ?). lra.
Qed.

(** Termination: every iteration after the first that does not stop the
    loop lowers the iterate by more than [tol]. *)
Lemma newton_total fact h0 hn :
  (0 <= fact)%Q ->
  forall n x diff fuel,
    newton_inv fact h0 hn x ->
    (x - hn <= inject_Z (Z.of_nat n) * tol)%Q ->
    (S n <= fuel)%nat ->
    exists r, newton fuel fact h0 hn x x diff = Some r.
Proof.
  intros Hf. induction n as [|n IH]; intros x diff fuel Hinv Hbound Hfuel.
  - destruct fuel as [|fuel]; [lia|]. cbn [newton].
    destruct (Qgtb (Qabs diff) tol); [|eexists; reflexivity].
    destruct (newton_step_inv fact h0 hn x Hf Hinv) as [Hinv' Hle].
    set (x' := newton_step fact h0 hn x) in *.
    assert (Hx' : (x' - x == 0)%Q).
    { destruct Hinv' as (Hlo' & _). destruct Hinv as (Hlo & _).
      change (inject_Z (Z.of_nat 0)) with 0%Q in Hbound. lra. }
    assert (Hstop : Qgtb (Qabs (x' - x)) tol = false).
    { apply Qgtb_false. rewrite Hx'. unfold tol, Qle. simpl. lia. }
    destruct fuel; cbn [newton]; rewrite Hstop; eexists; reflexivity.
  - destruct fuel as [|fuel]; [lia|]. cbn [newton].
    destruct (Qgtb (Qabs diff) tol); [|eexists; reflexivity].
    destruct (newton_step_inv fact h0 hn x Hf Hinv) as [Hinv' Hle].
    set (x' := newton_step fact h0 hn x) in *.
    destruct (Qgtb (Qabs (x' - x)) tol) eqn:Hcont.
    + apply IH; [exact Hinv' | | lia].
      apply Qgtb_true in Hcont.
      assert (Habs : (Qabs (x' - x) == x - x')%Q).
      { rewrite Qabs_neg by lra. ring. }
      rewrite Habs in Hcont.
      replace (Z.of_nat (S n)) with (Z.of_nat n + 1)%Z in Hbound by lia.
      rewrite inject_Z_plus in Hbound.
      change (inject_Z 1) with 1%Q in Hbound. lra.
    + destruct fuel; cbn [newton]; rewrite Hcont; eexists; reflexivity.
Qed.

Lemma Qle_ceiling_nat q :
  (q <= inject_Z (Z.of_nat (Z.to_nat (Qceiling q))))%Q.
Proof.
  assert (H1 := Qle_ceiling q).
  destruct (Z_le_gt_dec 0 (Qceiling q)) as [Hle | Hgt].
  - now rewrite Z2Nat.id by exact Hle.
  - replace (Z.to_nat (Qceiling q)) with O by lia.
    assert (H2 : (inject_Z (Qceiling q) <= inject_Z 0)%Q)
      by (rewrite <- Zle_Qle; lia).
    change (inject_Z (Z.of_nat 0)) with (inject_Z 0). lra.
Qed.

(** Enough fuel for a Newton-Raphson loop that starts at most [B] above
    the receiver. *)
Definition newton_fuel (B : Q) : nat := S (Z.to_nat (Qceiling (B * 1000))).

Lemma newton_returns fact h0 hn B fuel :
  (0 <= fact)%Q -> (hn <= h0)%Q -> (h0 - hn <= B)%Q ->
  (newton_fuel B <= fuel)%nat ->
  exists r, newton fuel fact h0 hn h0 h0 (2 * tol) = Some r
            /\ (hn <= r)%Q /\ (r <= h0)%Q.
Proof.
  intros Hf Hle HB Hfuel.
  assert (Hinv := newton_inv_start fact h0 hn Hf Hle).
  destruct (newton_total fact h0 hn Hf (Z.to_nat (Qceiling (B * 1000)))
              h0 (2 * tol)%Q fuel Hinv) as (r & Hr).
  - assert (Hc := Qle_ceiling_nat (B * 1000)).
    unfold tol.
    set (N := inject_Z (Z.of_nat (Z.to_nat (Qceiling (B * 1000))))) in *.
    assert (He : (N * (1 # 1000) == N / 1000)%Q) by (field).
    rewrite He. apply Qle_shift_div_l; lra.
  - exact Hfuel.
  - exists r. split; [exact Hr|].
    now apply (newton_sound fuel fact h0 hn h0 (2 * tol)%Q r Hf Hinv).
Qed.

(** ** Stage 6: erosion over the whole stack *)

(** What [Erode] relies on in the state it starts from: [ns] stack entries,
    all distinct cells of the grid, and receivers inside the grid. *)
Record erode_ready (e : FastScape) (ns : Z) : Prop := {
  er_stack_grid : forall i, 0 <= i < ns -> In (stack e i) (grid e);
  er_stack_inj : forall i j, 0 <= i < ns -> 0 <= j < ns ->
                             stack e i = stack e j -> i = j;
  er_rec : forall c, In c (grid e) -> rec e c <> NO_FLOW ->
                     In c (interior e) /\ 0 <= rec e c < 8
                     /\ In (recv e c) (grid e)
}.

(** The numeric side: receivers are not higher than their donors, and the
    accumulated areas and elevations are non-negative. *)
Record erode_numeric (e : FastScape) (B : Q) : Prop := {
  en_lower : forall c, In c (grid e) -> rec e c <> NO_FLOW ->
                       (h e (recv e c) <= h e c)%Q;
  en_accum : forall c, In c (grid e) -> (0 <= accum e c)%Q;
  en_h : forall c, In c (grid e) -> (0 <= h e c <= B)%Q
}.

Section ErodeLoop.

Variable pow_meq : Q -> Q.
Variable e : FastScape.
Variable ns : Z.
Hypothesis Hready : erode_ready e ns.

(** The state of the erosion loop before stack position [i]. *)
Definition erode_inv (i : Z) (s : FastScape) : Prop :=
  (exists hh, s = set_h e hh)
  /\ forall c, (forall j, 0 <= j < i -> stack e j = c -> rec e c = NO_FLOW) ->
               h s c = h e c.

Lemma erode_inv_start : erode_inv 0 e.
Proof.
  split; [exists (h e); apply FastScape_eta|]. reflexivity.
Qed.

Lemma erode_cell_inv fuel i s s' :
  0 <= i < ns -> erode_inv i s ->
  erode_cell pow_meq fuel i s = Some s' -> erode_inv (i + 1) s'.
Proof.
  intros Hi [(hh & ->) Hsame]. unfold erode_cell. cbv zeta. fs_simpl.
  destruct (rec e (stack e i) =? NO_FLOW) eqn:Hr.
  - intros Heq. inversion Heq; subst. split; [now exists hh|].
    intros c Hc. apply Hsame. intros j Hj. apply Hc. lia.
  - destruct (newton _ _ _ _ _ _ _) as [hnew|]; [|discriminate].
    intros Heq. inversion Heq; subst. split; [eexists; reflexivity|].
    intros c Hc. fs_simpl.
    assert (Hne : c <> stack e i).
    { intros ->. apply Z.eqb_neq in Hr. apply Hr. apply (Hc i); [lia|auto]. }
    rewrite upd_other by exact Hne.
    apply Hsame. intros j Hj. apply Hc. lia.
Qed.

(** Erosion changes elevations only, and only those of interior cells. *)
Lemma erode_loop_frame fuel s' :
  0 <= ns ->
  for_loopM 0 ns (erode_cell pow_meq fuel) e = Some s' ->
  (exists hh, s' = set_h e hh)
  /\ forall c, ~ In c (interior e) -> h s' c = h e c.
Proof.
  intros Hns Hl.
  assert (Hinv : erode_inv ns s').
  { apply (for_loopM_ind 0 ns (erode_cell pow_meq fuel) erode_inv e s');
      auto using erode_inv_start.
    intros i s1 s2 Hi. now apply erode_cell_inv. }
  destruct Hinv as [Hf Hsame]. split; [exact Hf|].
  intros c Hc. apply Hsame. intros j Hj Hst.
  destruct (Z.eq_dec (rec e c) NO_FLOW) as [He | Hne]; [exact He|].
  exfalso. apply Hc. subst c.
  apply (er_rec e ns Hready _ (er_stack_grid e ns Hready j Hj) Hne).
Qed.

Variable B : Q.
Hypothesis Hnum : erode_numeric e B.
Hypothesis pow_meq_nonneg : forall a, (0 <= a)%Q -> (0 <= pow_meq a)%Q.

(** The numeric invariant: erosion has only lowered elevations, and never
    below zero. *)
Definition erode_num_inv (i : Z) (s : FastScape) : Prop :=
  erode_inv i s
  /\ forall c, In c (grid e) -> (0 <= h s c)%Q /\ (h s c <= h e c)%Q.

Lemma erode_fact_nonneg s c :
  (exists hh, s = set_h e hh) -> In c (grid e) -> rec e c <> NO_FLOW ->
  (0 <= keq * dt * pow_meq (accum s c) / pow_neq (dr (rec s c)))%Q.
Proof.
  intros (hh & ->) Hc Hr. fs_simpl.
  destruct (er_rec e ns Hready c Hc Hr) as (_ & Hd & _).
  assert (Hdr := dr_pos (rec e c) Hd).
  assert (Hp := pow_meq_nonneg _ (en_accum e B Hnum c Hc)).
  assert (Hd2 : (0 < pow_neq (dr (rec e c)))%Q).
  { unfold pow_neq. apply Qmult_lt_0_compat; exact Hdr. }
  apply Qle_shift_div_l; [exact Hd2|].
  assert (0 <= keq * dt * pow_meq (accum e c))%Q.
  { apply Qmult_le_0_compat; [|exact Hp]. unfold keq, dt, Qle. simpl. lia. }
  lra.
Qed.

Lemma erode_cell_num fuel i s :
  0 <= i < ns -> erode_num_inv i s ->
  (forall s', erode_cell pow_meq fuel i s = Some s' ->
              erode_num_inv (i + 1) s')
  /\ ((newton_fuel B <= fuel)%nat ->
      exists s', erode_cell pow_meq fuel i s = Some s').
Proof.
  intros Hi [Hinv Hval].
  assert (Hinv' := Hinv). destruct Hinv' as [(hh & Hs) Hsame].
  assert (Hcg := er_stack_grid e ns Hready i Hi).
  split.
  - intros s' Hcell. split; [now apply (erode_cell_inv fuel i s)|].
    revert Hcell. unfold erode_cell. cbv zeta.
    assert (Hfact := erode_fact_nonneg s (stack e i) (ex_intro _ hh Hs) Hcg).
    subst s. fs_simpl. fs_simpl in Hfact.
    destruct (rec e (stack e i) =? NO_FLOW) eqn:Hr.
    + intros Heq. inversion Heq; subst. exact Hval.
    + apply Z.eqb_neq in Hr. specialize (Hfact Hr).
      fold (recv e (stack e i)).
      destruct (newton _ _ _ _ _ _ _) as [hnew|] eqn:Hn; [|discriminate].
      intros Heq. inversion Heq; subst. fs_simpl.
      destruct (er_rec e ns Hready _ Hcg Hr) as (_ & _ & Hng).
      assert (Hc0 : hh (stack e i) = h e (stack e i)).
      { apply (Hsame (stack e i)). intros j Hj Hst.
        assert (j = i) by (apply (er_stack_inj e ns Hready); auto; lia). lia. }
      assert (Hle : (hh (recv e (stack e i)) <= hh (stack e i))%Q).
      { rewrite Hc0. destruct (Hval _ Hng) as [_ Hup]. fs_simpl in Hup.
        assert (Hl := en_lower e B Hnum _ Hcg Hr). lra. }
      destruct (newton_sound _ _ _ _ _ _ _ Hfact
                  (newton_inv_start _ _ _ Hfact Hle) Hn) as [H1 H2].
      intros c Hc. destruct (Z.eq_dec c (stack e i)) as [->|Hne].
      * rewrite upd_same. destruct (Hval _ Hng) as [Hn0 _]. fs_simpl in Hn0.
        rewrite Hc0 in H2. split; lra.
      * rewrite upd_other by exact Hne. apply (Hval c Hc).
  - intros Hfuel. unfold erode_cell. cbv zeta.
    assert (Hfact := erode_fact_nonneg s (stack e i) (ex_intro _ hh Hs) Hcg).
    subst s. fs_simpl. fs_simpl in Hfact.
    destruct (rec e (stack e i) =? NO_FLOW) eqn:Hr; [eexists; reflexivity|].
    apply Z.eqb_neq in Hr. specialize (Hfact Hr).
    fold (recv e (stack e i)).
    destruct (er_rec e ns Hready _ Hcg Hr) as (_ & _ & Hng).
    assert (Hc0 : hh (stack e i) = h e (stack e i)).
    { apply (Hsame (stack e i)). intros j Hj Hst.
      assert (j = i) by (apply (er_stack_inj e ns Hready); auto; lia). lia. }
    destruct (Hval _ Hng) as [Hn0 Hup]. fs_simpl in Hn0. fs_simpl in Hup.
    assert (Hle : (hh (recv e (stack e i)) <= hh (stack e i))%Q).
    { rewrite Hc0. assert (Hl := en_lower e B Hnum _ Hcg Hr). lra. }
    assert (HB : (hh (stack e i) - hh (recv e (stack e i)) <= B)%Q).
    { rewrite Hc0. destruct (en_h e B Hnum _ Hcg) as [_ Hb]. lra. }
    destruct (newton_returns _ _ _ B fuel Hfact Hle HB Hfuel) as (r & Hr' & _).
    rewrite Hr'. eexists. reflexivity.
Qed.

Lemma erode_num_inv_start : erode_num_inv 0 e.
Proof.
  split; [apply erode_inv_start|].
  intros c Hc. destruct (en_h e B Hnum c Hc). split; lra.
Qed.

(** Partial correctness of the erosion loop. *)
Lemma erode_loop_sound fuel s' :
  0 <= ns ->
  for_loopM 0 ns (erode_cell pow_meq fuel) e = Some s' ->
  forall c, In c (grid e) -> (0 <= h s' c)%Q /\ (h s' c <= h e c)%Q.
Proof.
  intros Hns Hl.
  assert (Hinv : erode_num_inv ns s').
  { apply (for_loopM_ind 0 ns (erode_cell pow_meq fuel) erode_num_inv e s');
      auto using erode_num_inv_start.
    intros i s1 s2 Hi Hinv. now apply (erode_cell_num fuel i s1). }
  apply Hinv.
Qed.

(** Total correctness: with [newton_fuel B] the loop returns. *)
Lemma erode_loop_total fuel :
  0 <= ns -> (newton_fuel B <= fuel)%nat ->
  exists s', for_loopM 0 ns (erode_cell pow_meq fuel) e = Some s'.
Proof.
  intros Hns Hfuel.
  destruct (for_loopM_total 0 ns (erode_cell pow_meq fuel) erode_num_inv e
              Hns erode_num_inv_start) as (s' & Hs' & _).
  - intros i s1 Hi Hinv.
    destruct (erode_cell_num fuel i s1 Hi Hinv) as [Hsound Htot].
    destruct (Htot Hfuel) as (s2 & Hs2). exists s2. split; [exact Hs2|].
    now apply Hsound.
  - now exists s'.
Qed.

End ErodeLoop.

(** ** One step of the driver *)

Lemma same_dims_lists st st' :
  width st' = width st -> height st' = height st ->
  grid st' = grid st /\ frame st' = frame st /\ interior st' = interior st.
Proof.
  intros Hw Hh. unfold grid, frame, interior. now rewrite Hw, Hh.
Qed.

Lemma NoDup_map_inj {A B : Type} (f : A -> B) l a b :
  NoDup (map f l) -> In a l -> In b l -> f a = f b -> a = b.
Proof.
  induction l as [|x l IH]; intros Hnd Ha Hb Heq; [destruct Ha|].
  cbn [map] in Hnd. inversion Hnd as [|? ? Hnotin Hnd']; subst.
  destruct Ha as [->|Ha], Hb as [->|Hb]; auto.
  - exfalso. apply Hnotin. rewrite Heq. now apply in_map.
  - exfalso. apply Hnotin. rewrite <- Heq. now apply in_map.
Qed.

(** The state in which [Erode] starts, given the flow graph [g], the
    ordered state [st], the accumulated areas [a] and the uplifted
    elevations [hh]. *)
Lemma erode_ready_intro g st ns m a hh :
  flow_graph g -> order_post g st ns m ->
  erode_ready (set_h (set_accum st a) hh) ns.
Proof.
  intros Hg Hp.
  assert (Hsg : same_graph g st) by apply Hp.
  destruct Hsg as (Hw & Hh & _ & _ & _ & Hrec & _ & _ & Hns).
  set (e := set_h (set_accum st a) hh).
  destruct (same_dims_lists g e Hw Hh) as (Hgrid & Hframe & Hint).
  assert (Hstack := order_post_stack g st ns m Hp).
  assert (Hm : lvl g m = []) by apply Hp.
  constructor.
  - intros i Hi. rewrite Hgrid. change (stack e i) with (stack st i).
    assert (Hin : In (stack st i) (stack_slice st 0 ns))
      by (apply In_stack_slice; exists i; auto).
    rewrite Hstack in Hin. apply frame_grid.
    now apply (In_upto_frame g m _ Hg Hm).
  - intros i j Hi Hj Heq. change (stack e) with (stack st) in Heq.
    apply (NoDup_map_inj (stack st) (zrange 0 ns)); auto.
    + change (map (stack st) (zrange 0 ns)) with (stack_slice st 0 ns).
      rewrite Hstack. now apply NoDup_upto.
    + now apply In_zrange.
    + now apply In_zrange.
  - intros c Hc Hr. rewrite Hgrid in *. rewrite Hint.
    change (rec e) with (rec st) in *. unfold recv.
    change (nshift e) with (nshift st). change (rec e) with (rec st).
    rewrite Hrec, Hns in *.
    destruct (fg_rec g Hg c Hc Hr) as (Hi & Hd & _).
    repeat split; auto; try lia.
    apply frame_grid. now apply recv_frame.
Qed.

Lemma uplift_positive : (0 < ueq * dt)%Q.
Proof. reflexivity. Qed.

Lemma erode_numeric_intro g st ns m a hh B :
  flow_graph g -> size g = width g * height g ->
  order_post g st ns m ->
  (forall x, In x (grid g) ->
     (a x == cell_area * qn (length (upstream g x)))%Q) ->
  (forall c, In c (interior g) -> hh c = (h g c + ueq * dt)%Q) ->
  (forall c, ~ In c (interior g) -> hh c = h g c) ->
  (forall c, In c (grid g) -> (0 <= h g c <= B)%Q) ->
  erode_numeric (set_h (set_accum st a) hh) (B + ueq * dt).
Proof.
  intros Hg Hsize Hp Ha Hup Hkeep HB.
  assert (Hsg : same_graph g st) by apply Hp.
  destruct Hsg as (Hw & Hh & _ & _ & _ & Hrec & _ & _ & Hns).
  set (e := set_h (set_accum st a) hh).
  destruct (same_dims_lists g e Hw Hh) as (Hgrid & Hframe & Hint).
  assert (Hpos := uplift_positive).
  assert (Hhh : forall c, (h g c <= hh c <= h g c + ueq * dt)%Q).
  { intros c. destruct (In_dec_Z c (interior g)) as [Hi | Hni].
    - rewrite (Hup c Hi). lra.
    - rewrite (Hkeep c Hni). lra. }
  constructor.
  - intros c Hc Hr. rewrite Hgrid in Hc.
    change (rec e) with (rec st) in Hr. unfold recv.
    change (nshift e) with (nshift st). change (rec e) with (rec st).
    change (h e) with hh.
    rewrite Hrec, Hns in *. fold (recv g c).
    destruct (fg_rec g Hg c Hc Hr) as (Hi & _ & Hlt).
    rewrite (Hup c Hi). destruct (Hhh (recv g c)). lra.
  - intros c Hc. rewrite Hgrid in Hc. change (accum e c) with (a c).
    rewrite (Ha c Hc).
    apply Qmult_le_0_compat; [unfold cell_area, Qle; simpl; lia|].
    apply qn_nonneg.
  - intros c Hc. rewrite Hgrid in Hc. change (h e c) with (hh c).
    destruct (Hhh c). destruct (HB c Hc). lra.
Qed.

Section Step.

Variable pow_meq : Q -> Q.

(** The intermediate states of a step that returns. *)
Lemma step_anatomy fuel st st' :
  shape_inv st -> step pow_meq fuel st = Some st' ->
  exists g o m a hh,
    g = ComputeDonors (ComputeReceivers st)
    /\ flow_graph g /\ shape_inv g /\ h g = h st
    /\ GenerateOrder_locals fuel g = Some o
    /\ (m <= length (grid g))%nat
    /\ order_post g (o_st o) (nstack o) m
    /\ ComputeFlowAcc (o_st o) = set_accum (o_st o) a
    /\ (forall x, In x (grid g) ->
          (a x == cell_area * qn (length (upstream g x)))%Q)
    /\ AddUplift (set_accum (o_st o) a) = set_h (set_accum (o_st o) a) hh
    /\ (forall c, In c (interior g) -> hh c = (h g c + ueq * dt)%Q)
    /\ (forall c, ~ In c (interior g) -> hh c = h g c)
    /\ for_loopM 0 (nstack o) (erode_cell pow_meq fuel)
         (set_h (set_accum (o_st o) a) hh) = Some st'.
Proof.
  intros Hs Hstep. unfold step in Hstep. cbv zeta in Hstep.
  set (g := ComputeDonors (ComputeReceivers st)) in *.
  assert (Hg : flow_graph g) by now apply graph_stages_flow_graph.
  assert (Hsg : shape_inv g)
    by now apply ComputeDonors_shape, ComputeReceivers_shape.
  assert (Hhg : h g = h st).
  { unfold g. destruct (ComputeReceivers_spec st) as (r & Hr & _).
    destruct (ComputeDonors_spec (ComputeReceivers st)) as (d & nd & Hd & _).
    rewrite Hd, Hr. reflexivity. }
  unfold GenerateOrder in Hstep.
  destruct (GenerateOrder_locals fuel g) as [o|] eqn:Ho; [|discriminate].
  cbn [option_map] in Hstep.
  destruct (GenerateOrder_locals_post fuel g o Hg Ho) as (m & Hm & Hp).
  destruct (ComputeFlowAcc_spec g (o_st o) (nstack o) m Hg
              (si_size g Hsg) Hp) as (a & Ha & Hav).
  rewrite Ha in Hstep.
  destruct (AddUplift_spec (set_accum (o_st o) a)) as (hh & Hu & Hup & Hkeep).
  rewrite Hu in Hstep.
  assert (Hsame : same_graph g (o_st o)) by apply Hp.
  destruct Hsame as (Hw & Hh & _ & Hho & _).
  destruct (same_dims_lists g (set_accum (o_st o) a) Hw Hh) as (_ & _ & Hint).
  rewrite Hint in Hup, Hkeep.
  change (h (set_accum (o_st o) a)) with (h (o_st o)) in Hup, Hkeep.
  rewrite Hho in Hup, Hkeep.
  assert (Hnl : nlevel (o_st o) = Z.of_nat m + 2) by apply Hp.
  assert (Hlv : forall i, (i <= S m)%nat ->
            levels (o_st o) (Z.of_nat i) = pre g i) by apply Hp.
  rewrite (Erode_flat pow_meq g (set_h (set_accum (o_st o) a) hh) m fuel
             Hnl Hlv) in Hstep.
  assert (Hns : nstack o = pre g (S m)).
  { assert (Hn : nstack o = pre g m) by apply Hp.
    assert (Hl : lvl g m = []) by apply Hp.
    rewrite Hn. cbn [pre]. rewrite Hl. cbn [length]. lia. }
  rewrite <- Hns in Hstep.
  exists g, o, m, a, hh.
  split; [reflexivity|]. split; [exact Hg|]. split; [exact Hsg|].
  split; [exact Hhg|]. split; [exact Ho|]. split; [exact Hm|].
  split; [exact Hp|]. split; [exact Ha|]. split; [exact Hav|].
  split; [exact Hu|]. split; [exact Hup|]. split; [exact Hkeep|].
  exact Hstep.
Qed.

(** The state between steps: its shape, its two zero rings. *)
Record run_inv (st : FastScape) : Prop := {
  ri_shape : shape_inv st;
  ri_zero : zero_rings st
}.

Lemma step_run_inv fuel st st' :
  run_inv st -> step pow_meq fuel st = Some st' -> run_inv st'.
Proof.
  intros [Hs Hz] Hstep.
  destruct (step_anatomy fuel st st' Hs Hstep)
    as (g & o & m & a & hh & Hgeq & Hg & Hsg & Hhg & Ho & Hm & Hp & Ha & Hav
        & Hu & Hup & Hkeep & Herode).
  set (e := set_h (set_accum (o_st o) a) hh) in *.
  assert (Hready := erode_ready_intro g (o_st o) (nstack o) m a hh Hg Hp).
  fold e in Hready.
  assert (Hns : 0 <= nstack o).
  { assert (Hn : nstack o = pre g m) by apply Hp. rewrite Hn.
    apply pre_nonneg. }
  destruct (erode_loop_frame pow_meq e (nstack o) Hready fuel st' Hns Herode)
    as [(h' & Hst') Hsame].
  assert (Hsgo : same_graph g (o_st o)) by apply Hp.
  destruct Hsgo as (Hw & Hh & Hsz & _ & _ & Hrec & _ & Hnd & Hnsh).
  assert (Hdims : width st' = width g /\ height st' = height g).
  { rewrite Hst'. split; [exact Hw | exact Hh]. }
  destruct Hdims as [Hw' Hh'].
  destruct (same_dims_lists g st' Hw' Hh') as (Hgrid & Hframe & Hint).
  destruct (same_dims_lists g e Hw Hh) as (_ & _ & Hinte).
  assert (Hdimg : width g = width st /\ height g = height st).
  { rewrite Hgeq. destruct (ComputeReceivers_spec st) as (r & Hr & _).
    destruct (ComputeDonors_spec (ComputeReceivers st)) as (d & nd & Hd & _).
    rewrite Hd, Hr. split; reflexivity. }
  destruct Hdimg as [Hwg Hhg'].
  destruct (same_dims_lists st g Hwg Hhg') as (Hgridg & _ & Hintg).
  split.
  - constructor.
    + rewrite Hst'. change (size (set_h e h')) with (size (o_st o)).
      change (width (set_h e h')) with (width (o_st o)).
      change (height (set_h e h')) with (height (o_st o)).
      rewrite Hsz, Hw, Hh. apply Hsg.
    + rewrite Hst'. change (nshift (set_h e h')) with (nshift (o_st o)).
      change (width (set_h e h')) with (width (o_st o)).
      rewrite Hnsh, Hw. apply Hsg.
    + intros c Hc Hni. rewrite Hgrid in Hc. rewrite Hint in Hni.
      rewrite Hst'. change (rec (set_h e h')) with (rec (o_st o)).
      rewrite Hrec. now apply Hsg.
    + intros c Hc. rewrite Hgrid in Hc.
      rewrite Hst'. change (rec (set_h e h')) with (rec (o_st o)).
      rewrite Hrec. now apply Hsg.
    + intros c Hc. rewrite Hgrid in Hc.
      rewrite Hst'. change (ndon (set_h e h')) with (ndon (o_st o)).
      rewrite Hnd. now apply Hsg.
    + intros c Hc Hnf. rewrite Hgrid in Hc. rewrite Hframe in Hnf.
      rewrite Hst'. change (ndon (set_h e h')) with (ndon (o_st o)).
      rewrite Hnd. now apply Hsg.
  - intros c Hc Hni. rewrite Hgrid in Hc. rewrite Hint in Hni.
    rewrite Hsame by (now rewrite Hinte).
    change (h e c) with (hh c). rewrite (Hkeep c Hni), Hhg.
    apply Hz; [now rewrite <- Hgridg | now rewrite <- Hintg].
Qed.

Lemma reachable_run_inv st : reachable pow_meq st -> run_inv st.
Proof.
  induction 1 as [width0 height0 rnd u u' Hrnd | fuel st st' Hreach IH Hstep].
  - split; [apply start_shape|].
    apply (start_heights width0 height0 rnd u u' Hrnd).
  - now apply (step_run_inv fuel st st').
Qed.

End Step.

Section NumericRuns.

Variable pow_meq : Q -> Q.
Hypothesis pow_meq_nonneg : forall a, (0 <= a)%Q -> (0 <= pow_meq a)%Q.

(** The elevations of the grid lie in [[0,B]]. *)
Definition bounded (st : FastScape) (B : Q) : Prop :=
  forall c, In c (grid st) -> (0 <= h st c <= B)%Q.

(** A step that returns has lowered no elevation below zero, and erosion
    has raised none. *)
Lemma step_bounded fuel st st' B :
  run_inv st -> bounded st B -> step pow_meq fuel st = Some st' ->
  bounded st' (B + ueq * dt).
Proof.
  intros [Hs Hz] HB Hstep.
  destruct (step_anatomy pow_meq fuel st st' Hs Hstep)
    as (g & o & m & a & hh & Hgeq & Hg & Hsg & Hhg & Ho & Hm & Hp & Ha & Hav
        & Hu & Hup & Hkeep & Herode).
  set (e := set_h (set_accum (o_st o) a) hh) in *.
  assert (Hready := erode_ready_intro g (o_st o) (nstack o) m a hh Hg Hp).
  assert (Hdimg : width g = width st /\ height g = height st).
  { rewrite Hgeq. destruct (ComputeReceivers_spec st) as (r & Hr & _).
    destruct (ComputeDonors_spec (ComputeReceivers st)) as (d & nd & Hd & _).
    rewrite Hd, Hr. split; reflexivity. }
  destruct Hdimg as [Hwg Hhg'].
  destruct (same_dims_lists st g Hwg Hhg') as (Hgridg & _ & _).
  assert (HBg : forall c, In c (grid g) -> (0 <= h g c <= B)%Q).
  { intros c Hc. rewrite Hhg. apply HB. now rewrite <- Hgridg. }
  assert (Hnum := erode_numeric_intro g (o_st o) (nstack o) m a hh B Hg
                    (si_size g Hsg) Hp Hav Hup Hkeep HBg).
  fold e in Hready, Hnum.
  assert (Hns : 0 <= nstack o).
  { assert (Hn : nstack o = pre g m) by apply Hp. rewrite Hn.
    apply pre_nonneg. }
  assert (Hsound := erode_loop_sound pow_meq e (nstack o) Hready
                      (B + ueq * dt) Hnum pow_meq_nonneg fuel st' Hns Herode).
  destruct (erode_loop_frame pow_meq e (nstack o) Hready fuel st' Hns Herode)
    as [(h' & Hst') _].
  assert (Hgrid : grid st' = grid e).
  { rewrite Hst'. reflexivity. }
  intros c Hc. rewrite Hgrid in Hc.
  destruct (Hsound c Hc) as [H0 H1].
  destruct (en_h e _ Hnum c Hc) as [_ H2]. lra.
Qed.

Lemma reachable_bounded st :
  reachable pow_meq st -> exists B, bounded st B.
Proof.
  induction 1 as [width0 height0 rnd u u' Hrnd | fuel st st' Hreach IH Hstep].
  - exists 1%Q.
    destruct (start_heights width0 height0 rnd u u' Hrnd) as [_ Hb].
    exact Hb.
  - destruct IH as (B & HB). exists (B + ueq * dt)%Q.
    apply (step_bounded fuel st st' B); auto.
    now apply (reachable_run_inv pow_meq).
Qed.

(** Fuel that lets a step return from a state bounded by [B]. *)
Definition step_fuel (st : FastScape) (B : Q) : nat :=
  Nat.max (S (length (grid st))) (newton_fuel (B + ueq * dt)).

Lemma step_total fuel st B :
  run_inv st -> bounded st B -> (step_fuel st B <= fuel)%nat ->
  exists st', step pow_meq fuel st = Some st'.
Proof.
  intros [Hs Hz] HB Hfuel. unfold step_fuel in Hfuel.
  unfold step. cbv zeta.
  set (g := ComputeDonors (ComputeReceivers st)).
  assert (Hg : flow_graph g) by now apply graph_stages_flow_graph.
  assert (Hsg : shape_inv g)
    by now apply ComputeDonors_shape, ComputeReceivers_shape.
  assert (Hdimg : width g = width st /\ height g = height st /\ h g = h st).
  { unfold g. destruct (ComputeReceivers_spec st) as (r & Hr & _).
    destruct (ComputeDonors_spec (ComputeReceivers st)) as (d & nd & Hd & _).
    rewrite Hd, Hr. repeat split; reflexivity. }
  destruct Hdimg as (Hwg & Hhg' & Hhg). clearbody g.
  destruct (same_dims_lists st g Hwg Hhg') as (Hgridg & _ & _).
  destruct (GenerateOrder_total fuel g Hg) as (o & m & Ho & Hm & Hp).
  { rewrite Hgridg. lia. }
  unfold GenerateOrder. rewrite Ho. cbn [option_map].
  destruct (ComputeFlowAcc_spec g (o_st o) (nstack o) m Hg
              (si_size g Hsg) Hp) as (a & Ha & Hav).
  rewrite Ha.
  destruct (AddUplift_spec (set_accum (o_st o) a)) as (hh & Hu & Hup & Hkeep).
  rewrite Hu.
  assert (Hsame : same_graph g (o_st o)) by apply Hp.
  destruct Hsame as (Hw & Hh & _ & Hho & _).
  destruct (same_dims_lists g (set_accum (o_st o) a) Hw Hh) as (_ & _ & Hint).
  rewrite Hint in Hup, Hkeep.
  change (h (set_accum (o_st o) a)) with (h (o_st o)) in Hup, Hkeep.
  rewrite Hho in Hup, Hkeep.
  assert (Hnl : nlevel (o_st o) = Z.of_nat m + 2) by apply Hp.
  assert (Hlv : forall i, (i <= S m)%nat ->
            levels (o_st o) (Z.of_nat i) = pre g i) by apply Hp.
  rewrite (Erode_flat pow_meq g (set_h (set_accum (o_st o) a) hh) m fuel
             Hnl Hlv).
  assert (Hns : nstack o = pre g (S m)).
  { assert (Hn : nstack o = pre g m) by apply Hp.
    assert (Hl : lvl g m = []) by apply Hp.
    rewrite Hn. cbn [pre]. rewrite Hl. cbn [length]. lia. }
  rewrite <- Hns.
  set (e := set_h (set_accum (o_st o) a) hh).
  assert (Hready := erode_ready_intro g (o_st o) (nstack o) m a hh Hg Hp).
  assert (HBg : forall c, In c (grid g) -> (0 <= h g c <= B)%Q).
  { intros c Hc. rewrite Hhg. apply HB. now rewrite <- Hgridg. }
  assert (Hnum := erode_numeric_intro g (o_st o) (nstack o) m a hh B Hg
                    (si_size g Hsg) Hp Hav Hup Hkeep HBg).
  fold e in Hready, Hnum.
  apply (erode_loop_total pow_meq e (nstack o) Hready (B + ueq * dt) Hnum
           pow_meq_nonneg fuel).
  - rewrite Hns. apply pre_nonneg.
  - lia.
Qed.

End NumericRuns.

(** ** Reachability depends on the receivers only *)

Lemma reach_ext st st' y x :
  rec st' = rec st -> nshift st' = nshift st ->
  reach st y x -> reach st' y x.
Proof.
  intros Hr Hn. induction 1 as [y | y x Hrec Hreach IH].
  - apply reach_refl.
  - apply reach_next; [now rewrite Hr|].
    unfold recv in *. now rewrite Hr, Hn.
Qed.

Lemma flows_to_ext st st' fuel y x :
  rec st' = rec st -> nshift st' = nshift st ->
  flows_to st' fuel y x = flows_to st fuel y x.
Proof.
  intros Hr Hn. revert y. induction fuel as [|fuel IH]; intros y; simpl.
  - reflexivity.
  - unfold recv. now rewrite Hr, Hn, IH.
Qed.

Lemma upstream_ext st st' x :
  rec st' = rec st -> nshift st' = nshift st ->
  width st' = width st -> height st' = height st ->
  upstream st' x = upstream st x.
Proof.
  intros Hr Hn Hw Hh. unfold upstream.
  destruct (same_dims_lists st st' Hw Hh) as (Hgrid & _ & _).
  rewrite Hgrid. apply filter_ext. intros y. now apply flows_to_ext.
Qed.

(** Every cell drains to a cell without a receiver. *)
Lemma reach_root st c :
  flow_graph st -> In c (grid st) ->
  exists root, reach st c root /\ In root (grid st)
               /\ rec st root = NO_FLOW.
Proof.
  intros Hg.
  assert (Hgen : forall n c, (rank st c < n)%nat -> In c (grid st) ->
            exists root, reach st c root /\ In root (grid st)
                         /\ rec st root = NO_FLOW).
  { induction n as [|n IH]; intros c' Hr Hc; [lia|].
    destruct (Z.eq_dec (rec st c') NO_FLOW) as [He | Hne].
    - exists c'. repeat split; auto. apply reach_refl.
    - assert (Hlt := rank_recv st c' Hg Hc Hne).
      destruct (IH (recv st c') ltac:(lia)
                  (frame_grid st _ (recv_frame st c' Hg Hc Hne)))
        as (root & Hreach & Hroot).
      exists root. split; [now apply reach_next | exact Hroot]. }
  intros Hc. apply (Hgen (S (rank st c))); auto.
Qed.

(** No cell is on a cycle of receiver links. *)
Lemma reach_antisym st x y :
  flow_graph st -> In x (grid st) ->
  reach st x y -> reach st y x -> x = y.
Proof.
  intros Hg Hx Hxy Hyx.
  destruct (Z.eq_dec x y) as [He | Hne]; [exact He | exfalso].
  assert (Hy := reach_grid st x y Hg Hxy Hx).
  destruct (reach_h st x y Hg Hxy Hx) as [_ H1].
  destruct (reach_h st y x Hg Hyx Hy) as [H2 _].
  specialize (H1 Hne). lra.
Qed.

(** The flow graph of the receiver stage alone. *)
Lemma receivers_graph st :
  shape_inv st ->
  let st1 := ComputeReceivers st in
  h st1 = h st /\ grid st1 = grid st /\ interior st1 = interior st
  /\ rec (ComputeDonors st1) = rec st1
  /\ nshift (ComputeDonors st1) = nshift st1
  /\ h (ComputeDonors st1) = h st
  /\ grid (ComputeDonors st1) = grid st.
Proof.
  intros Hs. cbv zeta.
  destruct (ComputeReceivers_spec st) as (r & Hr & _).
  destruct (ComputeDonors_spec (ComputeReceivers st)) as (d & nd & Hd & _).
  rewrite Hd, Hr. repeat split; reflexivity.
Qed.

(** * The claims *)

(** ** Concrete runs used as examples *)

(** Fresh memory filled with zeros. *)
Definition zero_uninit : Uninit :=
  mkUninit (fun _ => 0%Q) (fun _ => 0%Q) (fun _ => 0) (fun _ => 0)
           (fun _ => 0) (fun _ => 0) (fun _ => 0) 0.

(** The state at the head of the first step on an [n] x [n] grid when every
    random draw is 0. *)
Definition flat_start (n : Z) : FastScape :=
  run_init zero_uninit (new_FastScape n n (fun _ => 0%Q) zero_uninit).

(** A stand-in for [std::pow(x,0.8)] in the examples. *)
Definition pow_example (a : Q) : Q := a.

Lemma pow_example_nonneg a : (0 <= a)%Q -> (0 <= pow_example a)%Q.
Proof. intros Ha. exact Ha. Qed.

Lemma flat_start_reachable n : reachable pow_example (flat_start n).
Proof.
  unfold flat_start. apply reach_start. intros c. split; discriminate.
Qed.

(** The cells on the two outermost rings keep elevation 0 and no receiver. *)
Definition rings_fixed (s : FastScape) : Prop :=
  forall x y, 0 <= x < width s -> 0 <= y < height s ->
    (x = 0 \/ x = 1 \/ x = width s - 2 \/ x = width s - 1
     \/ y = 0 \/ y = 1 \/ y = height s - 2 \/ y = height s - 1) ->
    h s (y * width s + x) = 0%Q /\ rec s (y * width s + x) = NO_FLOW.

Lemma rings_fixed_intro s :
  zero_rings s ->
  (forall c, In c (grid s) -> ~ In c (interior s) -> rec s c = NO_FLOW) ->
  rings_fixed s.
Proof.
  intros Hz Hr x y Hx Hy Hring.
  assert (Hg : In (y * width s + x) (grid s)).
  { unfold grid. apply In_cells. exists y, x. auto. }
  assert (Hni : ~ In (y * width s + x) (interior s)).
  { rewrite In_interior_coords by exact Hx. lia. }
  split; [now apply Hz | now apply Hr].
Qed.

Lemma rings_fixed_same s s' :
  width s' = width s -> height s' = height s ->
  h s' = h s -> rec s' = rec s -> rings_fixed s -> rings_fixed s'.
Proof.
  intros Hw Hh Hhh Hr Hs x y. rewrite Hw, Hh, Hhh, Hr. apply Hs.
Qed.

(** [step] written stage by stage. *)
Lemma step_stages pow_meq fuel st s3 s6 :
  GenerateOrder fuel (ComputeDonors (ComputeReceivers st)) = Some s3 ->
  Erode pow_meq fuel (AddUplift (ComputeFlowAcc s3)) = Some s6 ->
  step pow_meq fuel st = Some s6.
Proof.
  intros H3 H6. unfold step. cbv zeta. now rewrite H3.
Qed.

(** The stack entries after the ordering stage. *)
Definition stack_entries (s : FastScape) : list Z :=
  stack_slice s 0 (levels s (nlevel s - 1)).

Lemma GenerateOrder_post fuel g s3 :
  flow_graph g -> GenerateOrder fuel g = Some s3 ->
  exists m, (m <= length (grid g))%nat
            /\ order_post g s3 (levels s3 (nlevel s3 - 1)) m.
Proof.
  intros Hg H3. unfold GenerateOrder in H3.
  destruct (GenerateOrder_locals fuel g) as [o|] eqn:Ho; [|discriminate].
  cbn [option_map] in H3. inversion H3; subst.
  destruct (GenerateOrder_locals_post fuel g o Hg Ho) as (m & Hm & Hp).
  exists m. split; [exact Hm|].
  assert (Hnl : nlevel (o_st o) = Z.of_nat m + 2) by apply Hp.
  assert (Hlv : levels (o_st o) (Z.of_nat (S m)) = pre g (S m))
    by (apply Hp; lia).
  assert (Hns : nstack o = pre g m) by apply Hp.
  assert (Hl : lvl g m = []) by apply Hp.
  replace (levels (o_st o) (nlevel (o_st o) - 1)) with (nstack o);
    [exact Hp|].
  rewrite Hnl. replace (Z.of_nat m + 2 - 1) with (Z.of_nat (S m)) by lia.
  rewrite Hlv, Hns. cbn [pre]. rewrite Hl. cbn [length]. lia.
Qed.

(** ** C1: the ordering stage *)

(** The claim as the specification words it, for the state [s] left by
    [GenerateOrder]. *)
Definition ordering_as_claimed (s : FastScape) : Prop :=
  let ns := levels s (nlevel s - 1) in
  (forall c, In c (grid s) ->
     count_occ Z.eq_dec (stack_entries s) c = 1%nat)
  /\ (forall i d, 0 <= i < ns -> In d (grid s) -> rec s d <> NO_FLOW ->
        recv s d = stack s i -> exists j, i < j < ns /\ stack s j = d)
  /\ (forall k, 0 <= k -> k + 1 < nlevel s -> levels s k < levels s (k + 1)).

Lemma flat5_ordering :
  match GenerateOrder 10 (ComputeDonors (ComputeReceivers (flat_start 5)))
  with
  | Some s3 =>
      stack_entries s3 = [6; 7; 8; 11; 12; 13; 16; 17; 18]
      /\ map (levels s3) (zrange 0 (nlevel s3)) = [0; 9; 9]
      /\ width s3 = 5 /\ height s3 = 5
  | None => False
  end.
Proof. vm_compute. repeat split; reflexivity. Qed.




(** ** C2: the receiver stage picks the steepest descent *)



(** ** C3: receivers are strictly lower, so the graph is a forest *)



(** ** C4: accumulation counts the cells upstream *)



(** ** C5: donors are the inverse of receivers *)



(** ** The state in which erosion starts *)

Lemma before_erode g s3 ns m B :
  flow_graph g -> shape_inv g -> order_post g s3 ns m ->
  (forall c, In c (grid g) -> (0 <= h g c <= B)%Q) ->
  let s5 := AddUplift (ComputeFlowAcc s3) in
  erode_ready s5 ns
  /\ erode_numeric s5 (B + ueq * dt)
  /\ (forall pow_meq fuel,
        Erode pow_meq fuel s5 = for_loopM 0 ns (erode_cell pow_meq fuel) s5)
  /\ 0 <= ns /\ grid s5 = grid g /\ interior s5 = interior g
  /\ rec s5 = rec g
  /\ (forall c, ~ In c (interior g) -> h s5 c = h g c).
Proof.
  intros Hg Hsg Hp HB. cbv zeta.
  destruct (ComputeFlowAcc_spec g s3 ns m Hg (si_size g Hsg) Hp)
    as (a & Ha & Hav).
  rewrite Ha.
  destruct (AddUplift_spec (set_accum s3 a)) as (hh & Hu & Hup & Hkeep).
  rewrite Hu.
  assert (Hsame : same_graph g s3) by apply Hp.
  destruct Hsame as (Hw & Hh & _ & Hho & _ & Hrec & _).
  destruct (same_dims_lists g (set_accum s3 a) Hw Hh) as (_ & _ & Hint).
  rewrite Hint in Hup, Hkeep.
  change (h (set_accum s3 a)) with (h s3) in Hup, Hkeep.
  rewrite Hho in Hup, Hkeep.
  assert (Hnl : nlevel s3 = Z.of_nat m + 2) by apply Hp.
  assert (Hlv : forall i, (i <= S m)%nat ->
            levels s3 (Z.of_nat i) = pre g i) by apply Hp.
  assert (Hns : ns = pre g (S m)).
  { assert (Hn : ns = pre g m) by apply Hp.
    assert (Hl : lvl g m = []) by apply Hp.
    rewrite Hn. cbn [pre]. rewrite Hl. cbn [length]. lia. }
  split; [now apply (erode_ready_intro g s3 ns m)|].
  split; [exact (erode_numeric_intro g s3 ns m a hh B Hg (si_size g Hsg) Hp
                  Hav Hup Hkeep HB)|].
  split.
  { intros pow_meq fuel. rewrite Hns.
    apply (Erode_flat pow_meq g (set_h (set_accum s3 a) hh) m fuel Hnl Hlv). }
  split; [rewrite Hns; apply pre_nonneg|].
  destruct (same_dims_lists g (set_h (set_accum s3 a) hh) Hw Hh)
    as (Hgrid5 & _ & Hint5).
  split; [exact Hgrid5|]. split; [exact Hint5|]. split; [exact Hrec|].
  exact Hkeep.
Qed.

(** ** C6: uplift raises, erosion lowers *)



(** ** C9: the two outer rings stay fixed *)

Lemma flat2_ordering :
  match GenerateOrder 10 (ComputeDonors (ComputeReceivers (flat_start 2)))
  with
  | Some s3 => levels s3 0 = 0 /\ levels s3 1 = 0
  | None => False
  end.
Proof. vm_compute. split; reflexivity. Qed.

(** C9, counterexample: on a 2 x 2 grid the seed loop visits no cell, so
    the seed level [levels[0], levels[1]) of the first step is empty. *)
Lemma C9_counterexample :
  reachable pow_example (flat_start 2)
  /\ seeds (ComputeDonors (ComputeReceivers (flat_start 2))) = []
  /\ exists s3,
       GenerateOrder 10 (ComputeDonors (ComputeReceivers (flat_start 2)))
       = Some s3
       /\ ~ (levels s3 0 < levels s3 1).
Proof.
  split; [apply flat_start_reachable|]. split; [reflexivity|].
  assert (H := flat2_ordering).
  destruct (GenerateOrder 10 _) as [s3|]; [|contradiction].
  exists s3. split; [reflexivity|]. lia.
Qed.

Lemma erode_frame g s3 ns m pow_meq fuel s6 :
  flow_graph g -> shape_inv g -> order_post g s3 ns m ->
  Erode pow_meq fuel (AddUplift (ComputeFlowAcc s3)) = Some s6 ->
  width s6 = width g /\ height s6 = height g /\ rec s6 = rec g
  /\ forall c, ~ In c (interior g) -> h s6 c = h g c.
Proof.
  intros Hg Hsg Hp H6.
  destruct (ComputeFlowAcc_spec g s3 ns m Hg (si_size g Hsg) Hp)
    as (a & Ha & _).
  rewrite Ha in H6.
  destruct (AddUplift_spec (set_accum s3 a)) as (hh & Hu & _ & Hkeep).
  rewrite Hu in H6.
  assert (Hsame : same_graph g s3) by apply Hp.
  destruct Hsame as (Hw & Hh & _ & Hho & _ & Hrec & _).
  destruct (same_dims_lists g (set_accum s3 a) Hw Hh) as (_ & _ & Hint).
  rewrite Hint in Hkeep.
  change (h (set_accum s3 a)) with (h s3) in Hkeep. rewrite Hho in Hkeep.
  assert (Hnl : nlevel s3 = Z.of_nat m + 2) by apply Hp.
  assert (Hlv : forall i, (i <= S m)%nat ->
            levels s3 (Z.of_nat i) = pre g i) by apply Hp.
  assert (Hns : ns = pre g (S m)).
  { assert (Hn : ns = pre g m) by apply Hp.
    assert (Hl : lvl g m = []) by apply Hp.
    rewrite Hn. cbn [pre]. rewrite Hl. cbn [length]. lia. }
  rewrite (Erode_flat pow_meq g (set_h (set_accum s3 a) hh) m fuel Hnl Hlv)
    in H6.
  rewrite <- Hns in H6.
  assert (Hready := erode_ready_intro g s3 ns m a hh Hg Hp).
  destruct (erode_loop_frame pow_meq _ ns Hready fuel s6
              ltac:(rewrite Hns; apply pre_nonneg) H6) as [(h' & ->) Hsame].
  destruct (same_dims_lists g (set_h (set_accum s3 a) hh) Hw Hh)
    as (_ & _ & Hint5).
  split; [exact Hw|]. split; [exact Hh|]. split; [exact Hrec|].
  intros c Hc. rewrite Hsame by (now rewrite Hint5).
  now apply Hkeep.
Qed.

(** C9, as amended: at every stage boundary of every step the cells of the
    two outermost rings have elevation 0 and no receiver; when the grid is
    at least 3 x 3 the seed level of the ordering stage is non-empty. *)
Theorem C9_rings_fixed_and_seeds :
  forall pow_meq st, reachable pow_meq st ->
    let s1 := ComputeReceivers st in
    let s2 := ComputeDonors s1 in
    rings_fixed st /\ rings_fixed s1 /\ rings_fixed s2
    /\ (3 <= width st -> 3 <= height st -> seeds s2 <> [])
    /\ forall fuel s3, GenerateOrder fuel s2 = Some s3 ->
         let s4 := ComputeFlowAcc s3 in
         let s5 := AddUplift s4 in
         rings_fixed s3 /\ rings_fixed s4 /\ rings_fixed s5
         /\ (3 <= width st -> 3 <= height st -> levels s3 0 < levels s3 1)
         /\ forall fuel' s6, Erode pow_meq fuel' s5 = Some s6 ->
              rings_fixed s6.
Proof.
  intros pow_meq st Hreach s1 s2.
  destruct (reachable_run_inv pow_meq st Hreach) as [Hs Hz].
  assert (H0 : rings_fixed st)
    by (apply rings_fixed_intro; [exact Hz | apply Hs]).
  assert (Hg : flow_graph s2) by now apply graph_stages_flow_graph.
  assert (Hsg : shape_inv s2)
    by now apply ComputeDonors_shape, ComputeReceivers_shape.
  assert (Hs1 : shape_inv s1) by now apply ComputeReceivers_shape.
  assert (Hf1 : width s1 = width st /\ height s1 = height st
                /\ h s1 = h st).
  { unfold s1. destruct (ComputeReceivers_spec st) as (r & Hr & _).
    rewrite Hr. repeat split; reflexivity. }
  assert (Hf2 : width s2 = width st /\ height s2 = height st
                /\ h s2 = h st /\ rec s2 = rec s1).
  { unfold s2, s1. destruct (ComputeReceivers_spec st) as (r & Hr & _).
    destruct (ComputeDonors_spec (ComputeReceivers st)) as (d & nd & Hd & _).
    rewrite Hd, Hr. repeat split; reflexivity. }
  destruct Hf1 as (Hw1 & Hh1 & Hhh1). destruct Hf2 as (Hw2 & Hh2 & Hhh2 & Hr2).
  destruct (same_dims_lists st s1 Hw1 Hh1) as (Hgrid1 & _ & Hint1).
  destruct (same_dims_lists st s2 Hw2 Hh2) as (Hgrid2 & Hframe2 & Hint2).
  assert (Hz2 : zero_rings s2).
  { intros c Hc Hni. rewrite Hhh2. apply Hz; congruence. }
  assert (H1 : rings_fixed s1).
  { apply rings_fixed_intro; [|apply Hs1].
    intros c Hc Hni. rewrite Hhh1. apply Hz; congruence. }
  assert (H2 : rings_fixed s2)
    by (apply rings_fixed_intro; [exact Hz2 | apply Hsg]).
  assert (Hseed : 3 <= width st -> 3 <= height st ->
                  In (1 * width st + 1) (seeds s2)).
  { intros HW HH. unfold seeds. apply filter_In. split.
    - rewrite Hframe2. unfold frame. apply In_cells. exists 1, 1. lia.
    - apply Z.eqb_eq. apply (si_rec s2 Hsg).
      + rewrite Hgrid2. unfold grid. apply In_cells. exists 1, 1. lia.
      + rewrite Hint2. rewrite In_interior_coords by lia. lia. }
  clearbody s2 s1.
  split; [exact H0|]. split; [exact H1|]. split; [exact H2|]. split.
  { intros HW HH He. specialize (Hseed HW HH). rewrite He in Hseed.
    destruct Hseed. }
  intros fuel s3 H3 s4 s5.
  destruct (GenerateOrder_post fuel s2 s3 Hg H3) as (m & Hm & Hp).
  assert (Hsame : same_graph s2 s3) by apply Hp.
  destruct Hsame as (Hw & Hh & _ & Hho & _ & Hrec & _).
  assert (H3' : rings_fixed s3) by now apply (rings_fixed_same s2 s3).
  destruct (ComputeFlowAcc_frame s3) as (a & Ha).
  assert (H4 : rings_fixed s4).
  { unfold s4. rewrite Ha. now apply (rings_fixed_same s3). }
  destruct (AddUplift_spec s4) as (hh & Hu & _ & Hkeep).
  assert (H5 : rings_fixed s5).
  { apply rings_fixed_intro.
    - intros c Hc Hni. unfold s5 in *. rewrite Hu in *.
      change (h (set_h s4 hh) c) with (hh c).
      change (interior (set_h s4 hh)) with (interior s4) in Hni.
      change (grid (set_h s4 hh)) with (grid s4) in Hc.
      rewrite (Hkeep c Hni). unfold s4 in *. rewrite Ha in *.
      change (h (set_accum s3 a) c) with (h s3 c).
      change (interior (set_accum s3 a)) with (interior s3) in Hni.
      change (grid (set_accum s3 a)) with (grid s3) in Hc.
      destruct (same_dims_lists s2 s3 Hw Hh) as (Hg3 & _ & Hi3).
      rewrite Hho. apply Hz2; congruence.
    - intros c Hc Hni. unfold s5 in *. rewrite Hu in *.
      unfold s4 in *. rewrite Ha in *.
      change (rec (set_h (set_accum s3 a) hh) c) with (rec s3 c).
      change (interior (set_h (set_accum s3 a) hh)) with (interior s3) in Hni.
      change (grid (set_h (set_accum s3 a) hh)) with (grid s3) in Hc.
      destruct (same_dims_lists s2 s3 Hw Hh) as (Hg3 & _ & Hi3).
      rewrite Hrec. apply (si_rec s2 Hsg); congruence. }
  split; [exact H3'|]. split; [exact H4|]. split; [exact H5|]. split.
  { intros HW HH. specialize (Hseed HW HH).
    assert (Hl0 : levels s3 (Z.of_nat 0) = pre s2 0) by (apply Hp; lia).
    assert (Hl1 : levels s3 (Z.of_nat 1) = pre s2 1) by (apply Hp; lia).
    change (Z.of_nat 0) with 0 in Hl0. change (Z.of_nat 1) with 1 in Hl1.
    rewrite Hl0, Hl1. cbn [pre lvl].
    destruct (seeds s2); [destruct Hseed|]. cbn [length]. lia. }
  intros fuel' s6 H6.
  destruct (erode_frame s2 s3 _ m pow_meq fuel' s6 Hg Hsg Hp H6)
    as (Hw6 & Hh6 & Hrec6 & Hh6').
  destruct (same_dims_lists s2 s6 Hw6 Hh6) as (Hg6 & _ & Hi6).
  apply rings_fixed_intro.
  - intros c Hc Hni. rewrite Hh6' by congruence. apply Hz2; congruence.
  - intros c Hc Hni. rewrite Hrec6. apply (si_rec s2 Hsg); congruence.
Qed.

Lemma C9_witness :
  reachable pow_example (flat_start 5)
  /\ rings_fixed (flat_start 5).
Proof.
  split; [apply flat_start_reachable|].
  pose proof (C9_rings_fixed_and_seeds pow_example (flat_start 5)
                (flat_start_reachable 5)) as H.
  cbv zeta in H. destruct H as [H1 _]. exact H1.
Defined.

(** ** C10: the donor blocks are never overrun *)

Lemma ComputeDonors_cells st :
  ComputeDonors st = fold_left (fun s c => donor_cell c s) (frame st) st.
Proof.
  unfold ComputeDonors, frame. cbv zeta.
  apply (for_loop_cells (width st) 1 (height st - 1) 1 (width st - 1)
           (fun c s => donor_cell c s)).
Qed.



(** ** C7: the number of iterations of the step loop *)

(** [n] executions of the six-stage pipeline. *)
Fixpoint steps (pow_meq : Q -> Q) (fuel : nat) (n : nat) (st : FastScape)
  : option FastScape :=
  match n with
  | O => Some st
  | S n' => match step pow_meq fuel st with
            | Some st' => steps pow_meq fuel n' st'
            | None => None
            end
  end.

Lemma foldM_steps pow_meq fuel (l : list Z) s :
  foldM (fun _ => step pow_meq fuel) l s = steps pow_meq fuel (length l) s.
Proof.
  revert s. induction l as [|a l IH]; intros s; [reflexivity|].
  cbn [foldM length steps].
  destruct (step pow_meq fuel s); [apply IH | reflexivity].
Qed.

(** C7, on the code: invoked with [steps = N], [run] executes the pipeline
    [N + 1] times after its initialisation, not [N] times. *)
Theorem C7_run_executes_pipeline_N_plus_1_times :
  forall pow_meq fuel (N : nat) u st,
    run pow_meq fuel (Z.of_nat N) u st
    = steps pow_meq fuel (S N) (run_init u st).
Proof.
  intros pow_meq fuel N u st. unfold run, for_loopM. cbv zeta.
  rewrite foldM_steps, zrange_length.
  replace (Z.to_nat (Z.of_nat N + 1 - 0)) with (S N) by lia.
  reflexivity.
Qed.

(** With [steps = 0] the grid written to the output is not the initial
    one: the centre of the flat 5 x 5 grid has been uplifted once. *)
Lemma C7_zero_steps_uplifts_once :
  option_map (map (map Qred))
    (main_grid pow_example 10 5 0 (fun _ => 0%Q) zero_uninit zero_uninit)
  = Some [[0; 0; 0]; [0; 2; 0]; [0; 0; 0]]%Q.
Proof. vm_compute. reflexivity. Qed.

(** ** C8: the linear ramp *)

(** The state at the head of the first step when the 10 x 10 grid holds
    [h[y,x] = x]. *)
Definition ramp_start : FastScape :=
  run_init zero_uninit
    (set_h (new_FastScape 10 10 (fun _ => 0%Q) zero_uninit)
           (fun c => inject_Z (c mod 10))).

(** The scenario as the specification words it. *)
Definition ramp_as_claimed (s1 s4 : FastScape) : Prop :=
  (forall x y, 1 <= x <= 8 -> 1 <= y <= 8 -> rec s1 (y * 10 + x) = 0)
  /\ (forall x y, 1 <= x <= 8 -> 1 <= y <= 8 ->
        (accum s4 (y * 10 + x) == cell_area * inject_Z x)%Q).

(** What the code computes on the ramp, cell by cell. *)
Definition ramp_rec (y x : Z) : Z :=
  if (2 <=? x) && (x <=? 7) && (2 <=? y) && (y <=? 7) then 0 else NO_FLOW.

Definition ramp_accum (y x : Z) : Q :=
  (cell_area
   * inject_Z (if (1 <=? x) && (x <=? 7) && (2 <=? y) && (y <=? 7)
               then 8 - x else 1))%Q.

Lemma ramp_check :
  match GenerateOrder 20 (ComputeDonors (ComputeReceivers ramp_start)) with
  | Some s3 =>
      forallb (fun p =>
                 (rec (ComputeReceivers ramp_start) (fst p * 10 + snd p)
                  =? ramp_rec (fst p) (snd p))
                 && Qeq_bool (accum (ComputeFlowAcc s3) (fst p * 10 + snd p))
                             (ramp_accum (fst p) (snd p)))
              (coords 0 10 0 10) = true
  | None => False
  end.
Proof. vm_compute. reflexivity. Qed.

(** C8, as amended: on the ramp every interior cell (2 <= x,y <= 7) takes
    direction 0 and every other cell keeps [NO_FLOW]; [accum] is
    [cell_area * (8 - x)] in the rows 2..7 for 1 <= x <= 7 and [cell_area]
    everywhere else. *)
Theorem C8_ramp_flows_left :
  exists s3,
    GenerateOrder 20 (ComputeDonors (ComputeReceivers ramp_start)) = Some s3
    /\ forall x y, 0 <= x < 10 -> 0 <= y < 10 ->
         rec (ComputeReceivers ramp_start) (y * 10 + x) = ramp_rec y x
         /\ (accum (ComputeFlowAcc s3) (y * 10 + x) == ramp_accum y x)%Q.
Proof.
  assert (H := ramp_check).
  destruct (GenerateOrder 20 _) as [s3|]; [|contradiction].
  exists s3. split; [reflexivity|].
  intros x y Hx Hy. rewrite forallb_forall in H.
  specialize (H (y, x)). cbn [fst snd] in H.
  assert (Hin : In (y, x) (coords 0 10 0 10)) by (apply In_coords; lia).
  specialize (H Hin). apply andb_true_iff in H. destruct H as [H1 H2].
  split; [now apply Z.eqb_eq | now apply Qeq_bool_iff].
Qed.

(** C8, counterexample: the cell [(y,x) = (1,1)] keeps [NO_FLOW], and the
    cell [(2,2)] accumulates six cell areas, not two. *)
Lemma C8_counterexample :
  exists s3,
    GenerateOrder 20 (ComputeDonors (ComputeReceivers ramp_start)) = Some s3
    /\ rec (ComputeReceivers ramp_start) (1 * 10 + 1) = NO_FLOW
    /\ (accum (ComputeFlowAcc s3) (2 * 10 + 2) == cell_area * 6)%Q
    /\ ~ ramp_as_claimed (ComputeReceivers ramp_start) (ComputeFlowAcc s3).
Proof.
  assert (H := ramp_check).
  destruct (GenerateOrder 20 _) as [s3|]; [|contradiction].
  exists s3. split; [reflexivity|].
  rewrite forallb_forall in H.
  assert (H11 := H (1, 1) ltac:(apply In_coords; lia)).
  assert (H22 := H (2, 2) ltac:(apply In_coords; lia)).
  cbn [fst snd] in H11, H22.
  apply andb_true_iff in H11. destruct H11 as [Hr _].
  apply andb_true_iff in H22. destruct H22 as [_ Ha].
  apply Z.eqb_eq in Hr. apply Qeq_bool_iff in Ha.
  split; [exact Hr|]. split; [exact Ha|].
  intros [Hrec _]. specialize (Hrec 1 1 ltac:(lia) ltac:(lia)).
  rewrite Hr in Hrec. discriminate.
Qed.

(** * Further properties of the code *)

(** ** The constructor *)

Lemma new_FastScape_fields width0 height0 rnd u :
  exists hh,
    new_FastScape width0 height0 rnd u
    = mkFastScape width0 height0 (width0 * height0) hh (u_accum u) (u_rec u)
        (u_donor u) (u_ndon u) (u_stack u) (nshift_of width0) (u_levels u)
        (u_nlevel u)
    /\ forall y x, 0 <= y < height0 -> 0 <= x < width0 ->
         hh (y * width0 + x) = terrain width0 height0 rnd y x.
Proof.
  unfold new_FastScape.
  set (st0 := mkFastScape _ _ _ _ _ _ _ _ _ _ _ _).
  destruct (GenerateRandomTerrain_spec rnd st0) as (hh & Heq & Hh).
  exists hh. split; [rewrite Heq; reflexivity | exact Hh].
Qed.

(** X1: the constructor leaves elevation 0 on the two outermost rings and
    the random draw of the cell everywhere else. *)
Theorem X1_initial_terrain :
  forall width0 height0 rnd u x y,
    0 <= x < width0 -> 0 <= y < height0 ->
    let st := new_FastScape width0 height0 rnd u in
    let c := y * width0 + x in
    (x = 0 \/ x = 1 \/ x = width0 - 2 \/ x = width0 - 1
     \/ y = 0 \/ y = 1 \/ y = height0 - 2 \/ y = height0 - 1 ->
     h st c = 0%Q)
    /\ (2 <= x <= width0 - 3 -> 2 <= y <= height0 - 3 -> h st c = rnd c).
Proof.
  intros width0 height0 rnd u x y Hx Hy st c.
  destruct (new_FastScape_fields width0 height0 rnd u) as (hh & Heq & Hh).
  unfold st. rewrite Heq. fs_simpl. unfold c. rewrite (Hh y x Hy Hx).
  unfold terrain, on_rings. split.
  - intros Hring.
    assert (Ht : ((x =? 0) || (y =? 0) || (x =? width0 - 1)
                  || (y =? height0 - 1) || (x =? 1) || (y =? 1)
                  || (x =? width0 - 2) || (y =? height0 - 2)) = true).
    { rewrite !orb_true_iff, !Z.eqb_eq. lia. }
    now rewrite Ht.
  - intros Hx2 Hy2.
    assert (Ht : ((x =? 0) || (y =? 0) || (x =? width0 - 1)
                  || (y =? height0 - 1) || (x =? 1) || (y =? 1)
                  || (x =? width0 - 2) || (y =? height0 - 2)) = false).
    { rewrite !orb_false_iff, !Z.eqb_neq. lia. }
    now rewrite Ht.
Qed.

Lemma X1_witness :
  0 <= 2 < 5 /\ 0 <= 2 < 5
  /\ (2 <= 2 <= 5 - 3 -> 2 <= 2 <= 5 - 3 ->
      h (new_FastScape 5 5 (fun _ => (1 # 2)%Q) zero_uninit) (2 * 5 + 2)
      = (1 # 2)%Q).
Proof.
  split; [lia|]. split; [lia|].
  pose proof (X1_initial_terrain 5 5 (fun _ => (1 # 2)%Q) zero_uninit 2 2
                ltac:(lia) ltac:(lia)) as H.
  cbv zeta in H. destruct H as [_ H2]. exact H2.
Defined.

(** X2: in the offset table of the constructor, direction [d xor 4] is the
    opposite of direction [d]; for a width of at least 3 the eight offsets
    are pairwise distinct. *)
Theorem X2_nshift_opposite_and_distinct :
  forall width0 height0 rnd u d,
    0 <= d < 8 ->
    let st := new_FastScape width0 height0 rnd u in
    nshift st (Z.lxor d 4) = - nshift st d
    /\ (3 <= width0 ->
        forall d', 0 <= d' < 8 -> nshift st d = nshift st d' -> d = d').
Proof.
  intros width0 height0 rnd u d Hd st.
  destruct (new_FastScape_fields width0 height0 rnd u) as (hh & Heq & _).
  unfold st. rewrite Heq. fs_simpl. split.
  - apply (nshift_opp width0 d Hd).
  - intros HW d' Hd' He. now apply (nshift_inj width0 d d').
Qed.

Lemma X2_witness :
  0 <= 3 < 8
  /\ nshift (new_FastScape 5 5 (fun _ => 0%Q) zero_uninit) (Z.lxor 3 4)
     = - nshift (new_FastScape 5 5 (fun _ => 0%Q) zero_uninit) 3.
Proof.
  split; [lia|].
  pose proof (X2_nshift_opposite_and_distinct 5 5 (fun _ => 0%Q) zero_uninit
                3 ltac:(lia)) as H.
  cbv zeta in H. destruct H as [H1 _]. exact H1.
Defined.

(** ** The receiver and donor stages, run twice *)

Lemma ComputeReceivers_scan st :
  exists r,
    ComputeReceivers st = set_rec st r
    /\ (forall c, In c (interior st) -> r c = snd (receiver_scan st c))
    /\ (forall c, ~ In c (interior st) -> r c = rec st c).
Proof.
  unfold ComputeReceivers. cbv zeta.
  rewrite (for_loop_cells (width st) 2 (height st - 2) 2 (width st - 2)
             (fun c s => set_rec s (upd (rec s) c (snd (receiver_scan s c))))).
  apply receivers_fold.
Qed.



(** ** The levels of the ordering *)



(** ** The capacity of [stack] and [levels] *)

Lemma cells_length W y0 y1 x0 x1 :
  length (cells W y0 y1 x0 x1)
  = (Z.to_nat (y1 - y0) * Z.to_nat (x1 - x0))%nat.
Proof.
  unfold cells. rewrite <- (zrange_length y0 y1).
  induction (zrange y0 y1) as [|y ys IH]; [reflexivity|].
  cbn [flat_map length]. rewrite length_app, IH, length_map, zrange_length.
  lia.
Qed.

Lemma down_length_ge g k :
  (forall i, (1 <= i <= k)%nat -> lvl g i <> []) ->
  (k <= length (down g k))%nat.
Proof.
  induction k as [|k IH]; intros Hne; [simpl; lia|].
  cbn [down]. rewrite length_app.
  assert (Hk : lvl g (S k) <> []) by (apply Hne; lia).
  assert (IH' := IH (fun i Hi => Hne i ltac:(lia))).
  destruct (lvl g (S k)); [congruence|]. cbn [length]. lia.
Qed.

Lemma down_interior g k c :
  flow_graph g -> In c (down g k) -> In c (interior g).
Proof.
  intros Hg Hc. apply In_down in Hc. destruct Hc as (j & Hj & Hc).
  destruct j as [|j]; [lia|].
  apply (lvl_S g j c Hg) in Hc. destruct Hc as (Hcg & Hr & _).
  now apply (fg_rec g Hg c Hcg Hr).
Qed.

(** X5: on a grid of at least 2 x 2 cells the ordering stage fills
    [stack] with exactly the [(W-2)*(H-2)] frame cells, fewer than its
    [size] slots, and the number of level boundaries it stores (the final
    [nlevel] and the duplicate it drops) stays within the [size] slots of
    [levels]. *)
Theorem X5_ordering_within_capacity :
  forall pow_meq st, reachable pow_meq st ->
    2 <= width st -> 2 <= height st ->
  forall fuel s3,
    GenerateOrder fuel (ComputeDonors (ComputeReceivers st)) = Some s3 ->
    levels s3 (nlevel s3 - 1) = (width st - 2) * (height st - 2)
    /\ levels s3 (nlevel s3 - 1) < size st
    /\ nlevel s3 < size st.
Proof.
  intros pow_meq st Hreach HW HH fuel s3 H3.
  assert (Hs : shape_inv st) by apply (reachable_run_inv pow_meq st Hreach).
  assert (Hg : flow_graph (ComputeDonors (ComputeReceivers st)))
    by now apply graph_stages_flow_graph.
  assert (Hdims : width (ComputeDonors (ComputeReceivers st)) = width st
                  /\ height (ComputeDonors (ComputeReceivers st)) = height st).
  { destruct (ComputeReceivers_spec st) as (r & Hr & _).
    destruct (ComputeDonors_spec (ComputeReceivers st)) as (d & nd & Hd & _).
    rewrite Hd, Hr. split; reflexivity. }
  destruct Hdims as [Hw Hh].
  set (g := ComputeDonors (ComputeReceivers st)) in *. clearbody g.
  destruct (same_dims_lists st g Hw Hh) as (Hgrid & Hframe & Hint).
  destruct (GenerateOrder_post fuel g s3 Hg H3) as (m & Hm & Hp).
  assert (Hstack := order_post_stack g s3 _ m Hp).
  destruct Hp as (Hsg & Hlm & Hfirst & Hnl & Hlv & Hns & Hsl).
  assert (Hperm : Permutation (upto g m) (frame g)).
  { apply NoDup_Permutation.
    - now apply NoDup_upto.
    - apply NoDup_frame.
    - intros c. now apply In_upto_frame. }
  assert (Hlen : pre g m = Z.of_nat (length (frame g))).
  { rewrite <- upto_length. now rewrite (Permutation_length Hperm). }
  assert (Hfl : Z.of_nat (length (frame g))
                = (width st - 2) * (height st - 2)).
  { rewrite Hframe. unfold frame. rewrite cells_length. nia. }
  assert (Hml : (m <= S (length (interior g)))%nat).
  { destruct m as [|m']; [lia|].
    assert (H1 := down_length_ge g m' (fun i Hi => Hfirst i ltac:(lia))).
    assert (H2 : (length (down g m') <= length (interior g))%nat).
    { apply NoDup_incl_length; [now apply NoDup_down|].
      intros c Hc. now apply (down_interior g m'). }
    lia. }
  assert (Hil : Z.of_nat (length (interior g)) + 3 < size st).
  { rewrite Hint. unfold interior. rewrite cells_length.
    rewrite (si_size st Hs).
    destruct (Z_le_gt_dec (width st) 4) as [H4 | H4].
    - replace (Z.to_nat (width st - 2 - 2)) with O by lia. nia.
    - destruct (Z_le_gt_dec (height st) 4) as [H5 | H5].
      + replace (Z.to_nat (height st - 2 - 2)) with O by lia. nia.
      + nia. }
  rewrite Hns, Hlen, Hfl, Hnl. split; [reflexivity|]. split.
  - rewrite (si_size st Hs). nia.
  - lia.
Qed.

Lemma X5_witness :
  reachable pow_example (flat_start 5)
  /\ 2 <= width (flat_start 5) /\ 2 <= height (flat_start 5)
  /\ forall s3,
       GenerateOrder 30 (ComputeDonors (ComputeReceivers (flat_start 5)))
       = Some s3 ->
       nlevel s3 < size (flat_start 5).
Proof.
  assert (HW : 2 <= width (flat_start 5)) by (vm_compute; discriminate).
  assert (HH : 2 <= height (flat_start 5)) by (vm_compute; discriminate).
  split; [apply flat_start_reachable|]. split; [exact HW|].
  split; [exact HH|]. intros s3 H3.
  exact (proj2 (proj2 (X5_ordering_within_capacity pow_example (flat_start 5)
                         (flat_start_reachable 5) HW HH 30%nat s3 H3))).
Defined.

(** ** The Newton-Raphson loop of [Erode] *)

(** The residual of the update that [newton_step] has just made is the
    square of the update, scaled by [fact]. *)
Lemma newton_step_residual fact h0 hn x :
  (0 <= fact)%Q -> (hn <= x)%Q ->
  (residual fact h0 hn (newton_step fact h0 hn x)
   == fact * ((x - newton_step fact h0 hn x)
              * (x - newton_step fact h0 hn x)))%Q.
Proof.
  intros Hf Hx.
  assert (Hp : (0 <= fact * (x - hn))%Q) by (apply Qmult_le_0_compat; lra).
  unfold residual, newton_step, pow_neq, pow_neq_1, neq. field. lra.
Qed.

Lemma newton_exit fuel fact h0 hn x diff r :
  (0 <= fact)%Q -> newton_inv fact h0 hn x ->
  ((Qabs diff <= tol)%Q ->
   (residual fact h0 hn x <= fact * (tol * tol))%Q) ->
  newton fuel fact h0 hn x x diff = Some r ->
  newton_inv fact h0 hn r /\ (r <= x)%Q
  /\ (residual fact h0 hn r <= fact * (tol * tol))%Q.
Proof.
  intros Hf. revert x diff.
  assert (Hstep : forall x, newton_inv fact h0 hn x ->
            (Qabs (newton_step fact h0 hn x - x) <= tol)%Q ->
            (residual fact h0 hn (newton_step fact h0 hn x)
             <= fact * (tol * tol))%Q).
  { intros x Hinv Hd.
    destruct (newton_step_inv fact h0 hn x Hf Hinv) as [_ Hle].
    rewrite newton_step_residual by (try exact Hf; apply Hinv).
    set (x' := newton_step fact h0 hn x) in *.
    assert (Habs : (Qabs (x' - x) == x - x')%Q).
    { rewrite Qabs_neg by lra. ring. }
    rewrite Habs in Hd.
    apply Qmult_le_compat_nonneg; [split; [exact Hf | lra]|].
    split; [apply Qmult_le_0_compat; lra|].
    apply Qmult_le_compat_nonneg; split; lra. }
  assert (Hdone : forall x diff,
            newton_inv fact h0 hn x ->
            ((Qabs diff <= tol)%Q ->
             (residual fact h0 hn x <= fact * (tol * tol))%Q) ->
            Qgtb (Qabs diff) tol = false -> Some x = Some r ->
            newton_inv fact h0 hn r /\ (r <= x)%Q
            /\ (residual fact h0 hn r <= fact * (tol * tol))%Q).
  { intros x diff Hinv Hacc Hc Heq. inversion Heq; subst.
    apply Qgtb_false in Hc. split; [exact Hinv|]. split; [lra|].
    now apply Hacc. }
  induction fuel as [|fuel IH]; intros x diff Hinv Hacc Hn; cbn [newton] in Hn.
  - destruct (Qgtb (Qabs diff) tol) eqn:Hc; [discriminate|].
    now apply (Hdone x diff).
  - destruct (Qgtb (Qabs diff) tol) eqn:Hc.
    + destruct (newton_step_inv fact h0 hn x Hf Hinv) as [Hinv' Hle].
      destruct (IH _ _ Hinv' (Hstep x Hinv) Hn) as (H1 & H2 & H3).
      split; [exact H1|]. split; [lra | exact H3].
    + now apply (Hdone x diff).
Qed.



(** ** Slopes along the flow lines after erosion *)

Section ErodeSlopes.

Variable pow_meq : Q -> Q.
Hypothesis pow_meq_nonneg : forall a, (0 <= a)%Q -> (0 <= pow_meq a)%Q.
Variable e : FastScape.
Variable ns : Z.
Variable B : Q.
Hypothesis Hready : erode_ready e ns.
Hypothesis Hnum : erode_numeric e B.
Hypothesis Hstrict : forall c, In c (grid e) -> rec e c <> NO_FLOW ->
                               (h e (recv e c) < h e c)%Q.

(** Every cell with a receiver is strictly above it. *)
Definition slope_inv (s : FastScape) : Prop :=
  (exists hh, s = set_h e hh)
  /\ forall c, In c (grid e) -> rec e c <> NO_FLOW ->
               (h s (recv e c) < h s c)%Q.

Lemma newton_above_receiver fuel fact h0 hn r :
  (0 <= fact)%Q -> (hn < h0)%Q ->
  newton fuel fact h0 hn h0 h0 (2 * tol) = Some r ->
  (hn < r)%Q /\ (r <= h0)%Q.
Proof.
  intros Hf Hlt Hn.
  assert (Hinv := newton_inv_start fact h0 hn Hf ltac:(lra)).
  destruct (newton_exit fuel fact h0 hn h0 (2 * tol)%Q r Hf Hinv) as
    ((H1 & H2 & H3) & _ & _).
  - intros Habs. exfalso. revert Habs. unfold tol, Qle. simpl. lia.
  - exact Hn.
  - split; [|exact H2].
    destruct (Qlt_le_dec hn r) as [Hgt | Hle]; [exact Hgt|]. exfalso.
    assert (E : (r - hn == 0)%Q) by lra.
    unfold residual in H3. rewrite E in H3.
    assert (E2 : (fact * (0 * 0) == 0)%Q) by ring.
    rewrite E2 in H3. lra.
Qed.

Lemma erode_cell_slope fuel i s s' :
  0 <= i < ns -> slope_inv s ->
  erode_cell pow_meq fuel i s = Some s' -> slope_inv s'.
Proof.
  intros Hi [(hh & Hs) Hsl].
  assert (Hcg := er_stack_grid e ns Hready i Hi).
  assert (Hfact := erode_fact_nonneg pow_meq e ns Hready B Hnum
                     pow_meq_nonneg s (stack e i) (ex_intro _ hh Hs) Hcg).
  subst s. unfold erode_cell. cbv zeta. fs_simpl. fs_simpl in Hfact.
  destruct (rec e (stack e i) =? NO_FLOW) eqn:Hr.
  - intros Heq. inversion Heq; subst. split; [now exists hh | exact Hsl].
  - apply Z.eqb_neq in Hr. specialize (Hfact Hr).
    fold (recv e (stack e i)).
    destruct (newton _ _ _ _ _ _ _) as [hnew|] eqn:Hn; [|discriminate].
    intros Heq. inversion Heq; subst. split; [eexists; reflexivity|].
    assert (H0 := Hsl _ Hcg Hr). fs_simpl in H0.
    destruct (newton_above_receiver _ _ _ _ _ Hfact H0 Hn) as [H1 H2].
    intros c Hc Hrc. fs_simpl.
    assert (Hcur := Hsl c Hc Hrc). fs_simpl in Hcur.
    destruct (Z.eq_dec c (stack e i)) as [->|Hne].
    + rewrite upd_same.
      assert (Hd : recv e (stack e i) <> stack e i).
      { intros Heq'. rewrite Heq' in H0. lra. }
      rewrite upd_other by exact Hd. exact H1.
    + rewrite (upd_other hh (stack e i) c hnew) by exact Hne.
      destruct (Z.eq_dec (recv e c) (stack e i)) as [Hrv | Hrv].
      * rewrite Hrv, upd_same. rewrite Hrv in Hcur. lra.
      * rewrite upd_other by exact Hrv. exact Hcur.
Qed.

Lemma erode_loop_slopes fuel s' :
  0 <= ns ->
  for_loopM 0 ns (erode_cell pow_meq fuel) e = Some s' ->
  forall c, In c (grid e) -> rec e c <> NO_FLOW ->
            (h s' (recv e c) < h s' c)%Q.
Proof.
  intros Hns Hl.
  assert (Hinv : slope_inv s').
  { apply (for_loopM_ind 0 ns (erode_cell pow_meq fuel)
             (fun _ => slope_inv) e s'); auto.
    - split; [exists (h e); apply FastScape_eta | exact Hstrict].
    - intros i s1 s2 Hi. now apply erode_cell_slope. }
  apply Hinv.
Qed.

End ErodeSlopes.



(** ** The change of elevation in one step *)

Lemma erode_loop_sinks pow_meq e ns fuel s' :
  0 <= ns ->
  for_loopM 0 ns (erode_cell pow_meq fuel) e = Some s' ->
  forall c, rec e c = NO_FLOW -> h s' c = h e c.
Proof.
  intros Hns Hl.
  assert (Hinv : erode_inv e ns s').
  { apply (for_loopM_ind 0 ns (erode_cell pow_meq fuel) (erode_inv e) e s');
      auto using erode_inv_start.
    intros i s1 s2 Hi. now apply (erode_cell_inv pow_meq e ns fuel i s1 s2). }
  destruct Hinv as [_ Hsame]. intros c Hc. apply Hsame. intros j _ _.
  exact Hc.
Qed.



(** ** Whole runs *)

Lemma newton_fuel_mono B B' :
  (B <= B')%Q -> (newton_fuel B <= newton_fuel B')%nat.
Proof.
  intros HB. unfold newton_fuel.
  assert (H : (Qceiling (B * 1000) <= Qceiling (B' * 1000))%Z).
  { apply Qceiling_resp_le. lra. }
  lia.
Qed.

Lemma bounded_mono st B B' : (B <= B')%Q -> bounded st B -> bounded st B'.
Proof.
  intros HB Hb c Hc. destruct (Hb c Hc). split; lra.
Qed.

Lemma step_dims pow_meq fuel st st' :
  run_inv st -> step pow_meq fuel st = Some st' ->
  width st' = width st /\ height st' = height st.
Proof.
  intros [Hs Hz] Hstep.
  destruct (step_anatomy pow_meq fuel st st' Hs Hstep)
    as (g & o & m & a & hh & Hgeq & Hg & Hsg & Hhg & Ho & Hm & Hp & Ha & Hav
        & Hu & Hup & Hkeep & Herode).
  assert (Hready := erode_ready_intro g (o_st o) (nstack o) m a hh Hg Hp).
  assert (Hns : 0 <= nstack o).
  { assert (Hn : nstack o = pre g m) by apply Hp. rewrite Hn.
    apply pre_nonneg. }
  destruct (erode_loop_frame pow_meq _ (nstack o) Hready fuel st' Hns Herode)
    as [(h' & Hst') _].
  assert (Hsgo : same_graph g (o_st o)) by apply Hp.
  destruct Hsgo as (Hw & Hh & _).
  assert (Hdimg : width g = width st /\ height g = height st).
  { rewrite Hgeq. destruct (ComputeReceivers_spec st) as (r & Hr & _).
    destruct (ComputeDonors_spec (ComputeReceivers st)) as (d & nd & Hd & _).
    rewrite Hd, Hr. split; reflexivity. }
  destruct Hdimg as [Hwg Hhg'].
  rewrite Hst'. fs_simpl. split; congruence.
Qed.

Lemma inject_Z_succ n :
  (inject_Z (Z.of_nat (S n)) == inject_Z (Z.of_nat n) + 1)%Q.
Proof.
  rewrite Nat2Z.inj_succ. unfold Z.succ. rewrite inject_Z_plus. reflexivity.
Qed.

Section WholeRuns.

Variable pow_meq : Q -> Q.
Hypothesis pow_meq_nonneg : forall a, (0 <= a)%Q -> (0 <= pow_meq a)%Q.

(** The bound on the elevations after [n] steps from a state bounded by
    [B]. *)
Definition bound_after (B : Q) (n : nat) : Q :=
  (B + inject_Z (Z.of_nat n) * (ueq * dt))%Q.

Lemma steps_sound fuel n : forall st B st',
  run_inv st -> bounded st B ->
  steps pow_meq fuel n st = Some st' ->
  run_inv st' /\ bounded st' (bound_after B n)
  /\ width st' = width st /\ height st' = height st.
Proof.
  unfold bound_after.
  induction n as [|n IH]; intros st B st' Hri Hb Hst; cbn [steps] in Hst.
  - inversion Hst; subst. split; [exact Hri|]. split; [|split; reflexivity].
    apply (bounded_mono st' B); [|exact Hb].
    change (inject_Z (Z.of_nat 0)) with 0%Q. lra.
  - destruct (step pow_meq fuel st) as [s1|] eqn:Hs1; [|discriminate].
    assert (Hri1 := step_run_inv pow_meq fuel st s1 Hri Hs1).
    assert (Hb1 := step_bounded pow_meq pow_meq_nonneg fuel st s1 B Hri Hb Hs1).
    destruct (step_dims pow_meq fuel st s1 Hri Hs1) as [Hw1 Hh1].
    destruct (IH s1 _ st' Hri1 Hb1 Hst) as (H1 & H2 & H3 & H4).
    split; [exact H1|]. split; [|split; congruence].
    apply (bounded_mono st' (B + ueq * dt
                             + inject_Z (Z.of_nat n) * (ueq * dt)));
      [|exact H2].
    rewrite inject_Z_succ. lra.
Qed.

Lemma steps_total fuel n : forall st B,
  run_inv st -> bounded st B ->
  (S (length (grid st)) <= fuel)%nat ->
  (newton_fuel (bound_after B n) <= fuel)%nat ->
  exists st', steps pow_meq fuel n st = Some st'.
Proof.
  unfold bound_after.
  induction n as [|n IH]; intros st B Hri Hb Hf1 Hf2; cbn [steps].
  - now exists st.
  - assert (Hpos := uplift_positive).
    assert (Hn0 : (0 <= inject_Z (Z.of_nat n) * (ueq * dt))%Q).
    { apply Qmult_le_0_compat; [|lra].
      change 0%Q with (inject_Z 0). rewrite <- Zle_Qle. lia. }
    assert (Hbnd : (B + ueq * dt + inject_Z (Z.of_nat n) * (ueq * dt)
                    == B + inject_Z (Z.of_nat (S n)) * (ueq * dt))%Q).
    { rewrite inject_Z_succ. ring. }
    destruct (step_total pow_meq pow_meq_nonneg fuel st B Hri Hb) as (s1 & Hs1).
    { unfold step_fuel. apply Nat.max_lub; [exact Hf1|].
      etransitivity; [|exact Hf2]. apply newton_fuel_mono.
      rewrite <- Hbnd. lra. }
    rewrite Hs1.
    assert (Hri1 := step_run_inv pow_meq fuel st s1 Hri Hs1).
    assert (Hb1 := step_bounded pow_meq pow_meq_nonneg fuel st s1 B Hri Hb Hs1).
    destruct (step_dims pow_meq fuel st s1 Hri Hs1) as [Hw1 Hh1].
    destruct (same_dims_lists st s1 Hw1 Hh1) as (Hgrid & _ & _).
    apply (IH s1 (B + ueq * dt)%Q Hri1 Hb1).
    + now rewrite Hgrid.
    + etransitivity; [|exact Hf2]. apply newton_fuel_mono.
      rewrite Hbnd. lra.
Qed.

End WholeRuns.

(** Fuel for the level loop and the Newton-Raphson loops of a run of [n]
    steps on a [W] x [H] grid. *)
Definition run_fuel (W H : Z) (n : nat) : nat :=
  Nat.max (S (length (cells W 0 H 0 W))) (newton_fuel (bound_after 1 n)).

Lemma start_grid width0 height0 rnd u u' :
  width (run_init u' (new_FastScape width0 height0 rnd u)) = width0
  /\ height (run_init u' (new_FastScape width0 height0 rnd u)) = height0.
Proof.
  destruct (new_FastScape_fields width0 height0 rnd u) as (hh & Heq & _).
  rewrite Heq.
  destruct (run_init_spec u' (mkFastScape width0 height0 (width0 * height0)
              hh (u_accum u) (u_rec u) (u_donor u) (u_ndon u) (u_stack u)
              (nshift_of width0) (u_levels u) (u_nlevel u)))
    as (r & nd & Hri & _).
  rewrite Hri. split; reflexivity.
Qed.

Lemma run_as_steps pow_meq fuel (N : nat) u st :
  run pow_meq fuel (Z.of_nat N) u st
  = steps pow_meq fuel (S N) (run_init u st).
Proof.
  unfold run, for_loopM. cbv zeta. rewrite foldM_steps, zrange_length.
  replace (Z.to_nat (Z.of_nat N + 1 - 0)) with (S N) by lia. reflexivity.
Qed.



(** X10: whenever [run] returns for a step count [N >= 0] on a terrain
    drawn from [[0,1]], the two outermost rings of the grid are still at
    elevation 0 and every elevation lies between 0 and
    [1 + (N+1)*ueq*dt]. *)
Theorem X10_run_elevation_range :
  forall pow_meq,
    (forall a, (0 <= a)%Q -> (0 <= pow_meq a)%Q) ->
  forall width0 height0 rnd u u' (N : nat) fuel st',
    (forall c, 0 <= rnd c <= 1)%Q ->
    run pow_meq fuel (Z.of_nat N) u' (new_FastScape width0 height0 rnd u)
    = Some st' ->
    width st' = width0 /\ height st' = height0
    /\ forall x y, 0 <= x < width0 -> 0 <= y < height0 ->
         (0 <= h st' (y * width0 + x) <= bound_after 1 (S N))%Q
         /\ (x < 2 \/ width0 - 2 <= x \/ y < 2 \/ height0 - 2 <= y ->
             h st' (y * width0 + x) = 0%Q).
Proof.
  intros pow_meq Hpow width0 height0 rnd u u' N fuel st' Hrnd Hrun.
  rewrite run_as_steps in Hrun.
  set (st := run_init u' (new_FastScape width0 height0 rnd u)) in *.
  assert (Hri : run_inv st).
  { apply (reachable_run_inv pow_meq). now apply reach_start. }
  assert (Hb : bounded st 1).
  { destruct (start_heights width0 height0 rnd u u' Hrnd) as [_ Hb0].
    exact Hb0. }
  destruct (start_grid width0 height0 rnd u u') as [Hw Hh].
  fold st in Hw, Hh. clearbody st.
  destruct (steps_sound pow_meq Hpow fuel (S N) st 1 st' Hri Hb Hrun)
    as ([_ Hz] & Hb' & Hw' & Hh').
  rewrite Hw in Hw'. rewrite Hh in Hh'.
  split; [exact Hw'|]. split; [exact Hh'|].
  intros x y Hx Hy.
  assert (Hc : In (y * width0 + x) (grid st')).
  { unfold grid. rewrite Hw', Hh'. apply In_cells. exists y, x. auto. }
  split; [now apply Hb'|].
  intros Hring. apply Hz; [exact Hc|].
  unfold interior. rewrite Hw', Hh', In_cells.
  intros (y' & x' & Heq & Hy' & Hx').
  destruct (cell_coords_unique width0 x y x' y' Hx ltac:(lia) Heq) as [-> ->].
  lia.
Qed.

Lemma X10_witness :
  (forall a, (0 <= a)%Q -> (0 <= pow_example a)%Q)
  /\ (forall c : Z, 0 <= (fun _ => 0) c <= 1)%Q
  /\ forall fuel st',
       run pow_example fuel (Z.of_nat 0) zero_uninit
         (new_FastScape 5 5 (fun _ => 0%Q) zero_uninit) = Some st' ->
       width st' = 5.
Proof.
  assert (Hrnd : (forall c : Z, 0 <= (fun _ => 0) c <= 1)%Q)
    by (intros c; split; discriminate).
  split; [exact pow_example_nonneg|]. split; [exact Hrnd|].
  intros fuel st' Hrun.
  exact (proj1 (X10_run_elevation_range pow_example pow_example_nonneg 5 5
                  (fun _ => 0%Q) zero_uninit zero_uninit 0 fuel st' Hrnd
                  Hrun)).
Defined.

(** ** The raster written by [PrintDEM] *)

(** The values of the [ncols] and [nrows] lines of the header. *)
Definition PrintDEM_header (width height : Z) : Z * Z :=
  (width - 2, height - 2).

Lemma nth_map_zrange {A : Type} (f : Z -> A) lo hi n d :
  (n < Z.to_nat (hi - lo))%nat ->
  nth n (map f (zrange lo hi)) d = f (lo + Z.of_nat n).
Proof.
  intros Hn. unfold zrange. rewrite map_map.
  rewrite nth_indep with (d' := f (lo + Z.of_nat 0))
    by (rewrite length_map, length_seq; exact Hn).
  rewrite (map_nth (fun k => f (lo + Z.of_nat k))).
  rewrite seq_nth by exact Hn. reflexivity.
Qed.

Lemma PrintDEM_rows_nth hh width height r k d :
  0 <= r < height - 2 -> 0 <= k < width - 2 ->
  nth (Z.to_nat k) (nth (Z.to_nat r) (PrintDEM_rows hh width height) []) d
  = hh ((r + 1) * width + (k + 1)).
Proof.
  intros Hr Hk. unfold PrintDEM_rows.
  rewrite nth_map_zrange by lia. rewrite nth_map_zrange by lia.
  rewrite !Z2Nat.id by lia. f_equal. ring.
Qed.

Lemma PrintDEM_rows_length hh width height :
  length (PrintDEM_rows hh width height) = Z.to_nat (height - 2)
  /\ forall row, In row (PrintDEM_rows hh width height) ->
                 length row = Z.to_nat (width - 2).
Proof.
  unfold PrintDEM_rows. split.
  - rewrite length_map, zrange_length. lia.
  - intros row Hrow. apply in_map_iff in Hrow. destruct Hrow as (y & <- & _).
    rewrite length_map, zrange_length. lia.
Qed.



(** X12: the raster that [main] hands to [PrintDEM] after a run of
    [N >= 0] steps on a terrain drawn from [[0,1]] has [dimension-2] rows,
    all its values lie between 0 and [1 + (N+1)*ueq*dt], and the values on
    its border are 0. *)
Theorem X12_main_output :
  forall pow_meq,
    (forall a, (0 <= a)%Q -> (0 <= pow_meq a)%Q) ->
  forall fuel dimension (N : nat) rnd u u' rows,
    (forall c, 0 <= rnd c <= 1)%Q ->
    main_grid pow_meq fuel dimension (Z.of_nat N) rnd u u' = Some rows ->
    length rows = Z.to_nat (dimension - 2)
    /\ forall r k, 0 <= r < dimension - 2 -> 0 <= k < dimension - 2 ->
         let v := nth (Z.to_nat k) (nth (Z.to_nat r) rows []) 0%Q in
         (0 <= v <= bound_after 1 (S N))%Q
         /\ (r = 0 \/ r = dimension - 3 \/ k = 0 \/ k = dimension - 3 ->
             v = 0%Q).
Proof.
  intros pow_meq Hpow fuel dimension N rnd u u' rows Hrnd Hmain.
  unfold main_grid in Hmain. cbv zeta in Hmain.
  destruct (run pow_meq fuel (Z.of_nat N) u'
              (new_FastScape dimension dimension rnd u)) as [tm|] eqn:Hrun;
    [|discriminate].
  inversion Hmain; subst rows. clear Hmain.
  rewrite run_as_steps in Hrun.
  set (st := run_init u' (new_FastScape dimension dimension rnd u)) in *.
  assert (Hri : run_inv st).
  { apply (reachable_run_inv pow_meq). now apply reach_start. }
  assert (Hb : bounded st 1).
  { destruct (start_heights dimension dimension rnd u u' Hrnd) as [_ Hb0].
    exact Hb0. }
  destruct (start_grid dimension dimension rnd u u') as [Hw Hh].
  fold st in Hw, Hh. clearbody st.
  destruct (steps_sound pow_meq Hpow fuel (S N) st 1 tm Hri Hb Hrun)
    as ([_ Hz] & Hb' & Hw' & Hh').
  rewrite Hw in Hw'. rewrite Hh in Hh'.
  split; [apply PrintDEM_rows_length|].
  intros r k Hr Hk v. unfold v. rewrite PrintDEM_rows_nth by lia.
  assert (Hc : In ((r + 1) * dimension + (k + 1)) (grid tm)).
  { unfold grid. rewrite Hw', Hh'. apply In_cells.
    exists (r + 1), (k + 1). split; [reflexivity | lia]. }
  split; [now apply Hb'|].
  intros Hring. apply Hz; [exact Hc|].
  unfold interior. rewrite Hw', Hh', In_cells.
  intros (y' & x' & Heq & Hy' & Hx').
  destruct (cell_coords_unique dimension (k + 1) (r + 1) x' y'
              ltac:(lia) ltac:(lia) Heq) as [Hx Hy].
  lia.
Qed.

Lemma X12_witness :
  (forall a, (0 <= a)%Q -> (0 <= pow_example a)%Q)
  /\ (forall c : Z, 0 <= (fun _ => 0) c <= 1)%Q
  /\ forall fuel rows,
       main_grid pow_example fuel 5 (Z.of_nat 0) (fun _ => 0%Q)
         zero_uninit zero_uninit = Some rows ->
       length rows = Z.to_nat (5 - 2).
Proof.
  assert (Hrnd : (forall c : Z, 0 <= (fun _ => 0) c <= 1)%Q)
    by (intros c; split; discriminate).
  split; [exact pow_example_nonneg|]. split; [exact Hrnd|].
  intros fuel rows Hmain.
  exact (proj1 (X12_main_output pow_example pow_example_nonneg fuel 5 0
                  (fun _ => 0%Q) zero_uninit zero_uninit rows Hrnd Hmain)).
Defined.

(** X13: with a negative step count the step loop of [run] is not
    entered: [run] returns after its initialisation whatever the fuel, the
    elevations are the ones the constructor drew, and these are what [main]
    hands to [PrintDEM]. *)
Theorem X13_negative_step_count :
  forall pow_meq fuel nstep,
    nstep < 0 ->
    (forall u st,
       run pow_meq fuel nstep u st = Some (run_init u st)
       /\ h (run_init u st) = h st)
    /\ forall dimension rnd u u',
         main_grid pow_meq fuel dimension nstep rnd u u'
         = Some (PrintDEM_rows (h (new_FastScape dimension dimension rnd u))
                   dimension dimension).
Proof.
  intros pow_meq fuel nstep Hneg.
  assert (Hrun : forall u st,
            run pow_meq fuel nstep u st = Some (run_init u st)
            /\ h (run_init u st) = h st).
  { intros u st. split.
    - unfold run, for_loopM. cbv zeta. rewrite zrange_nil by lia.
      reflexivity.
    - destruct (run_init_spec u st) as (r & nd & Hri & _).
      rewrite Hri. reflexivity. }
  split; [exact Hrun|].
  intros dimension rnd u u'. unfold main_grid. cbv zeta.
  destruct (Hrun u' (new_FastScape dimension dimension rnd u)) as [H1 H2].
  rewrite H1, H2. reflexivity.
Qed.

Lemma X13_witness :
  -1 < 0
  /\ main_grid pow_example 0 5 (-1) (fun _ => 0%Q) zero_uninit zero_uninit
     = Some (PrintDEM_rows
               (h (new_FastScape 5 5 (fun _ => 0%Q) zero_uninit)) 5 5).
Proof.
  split; [lia|].
  exact (proj2 (X13_negative_step_count pow_example 0 (-1) ltac:(lia))
           5 (fun _ => 0%Q) zero_uninit zero_uninit).
Defined.

(** * The serial variant [FastScape_RBP] *)

(** The class [FastScape_RBP] of [fastscape_RB+P.cpp] keeps the same
    members (as [std::vector]s), so its functions act on the record
    [FastScape] as well.  [ComputeReceivers] and [AddUplift] are the loops
    of [FastScape_RBGPU] word for word and are not repeated.  The other
    stages differ: [ComputeDonors] has every cell announce itself to its
    receiver, [GenerateOrder] seeds the stack with every cell without a
    receiver, [ComputeFlowAcc] is one backward pass over the stack, and
    [Erode] starts at level 1. *)
Module RBP.

(** One iteration of the cell loop of [ComputeDonors]. *)
Definition donor_push (c : Z) (st : FastScape) : FastScape :=
  if rec st c =? NO_FLOW then st
  else
    let n := c + nshift st (rec st c) in
    let st := set_donor st (upd (donor st) (8 * n + ndon st n) c) in
    set_ndon st (upd (ndon st) n (ndon st n + 1)).

Definition ComputeDonors (st : FastScape) : FastScape :=
  let st := for_loop 0 (size st) (fun i st =>
              set_ndon st (upd (ndon st) i 0)) st in
  for_loop 0 (size st) donor_push st.

(** The seed loop runs over every cell; the level loop that follows is the
    one of [FastScape_RBGPU]. *)
Definition load_seeds (o : OrderLocals) : OrderLocals :=
  for_loop 0 (size (o_st o)) (fun c o =>
    if rec (o_st o) c =? NO_FLOW then push_stack c o else o) o.

Definition GenerateOrder_locals (fuel : nat) (st : FastScape)
  : option OrderLocals :=
  let st := set_levels st (upd (levels st) 0 0) in
  let st := set_nlevel st 1 in
  let o := mkOrder st 0 0 0 in
  let o := load_seeds o in
  let o := push_level o in
  let o := mkOrder (o_st o) (nstack o) (-1) 0 in
  match level_loop fuel o with
  | None => None
  | Some o =>
      Some (mkOrder (set_nlevel (o_st o) (nlevel (o_st o) - 1))
                    (nstack o) (level_bottom o) (level_top o))
  end.

Definition GenerateOrder (fuel : nat) (st : FastScape) : option FastScape :=
  option_map o_st (GenerateOrder_locals fuel st).

(** [for(int s=size-1;s>=0;s--)] visits [size-1], ..., [0]. *)
Definition ComputeFlowAcc (st : FastScape) : FastScape :=
  let st := for_loop 0 (size st) (fun i st =>
              set_accum st (upd (accum st) i cell_area)) st in
  fold_left (fun st s => accum_cell s st) (rev (zrange 0 (size st))) st.

(** [for(int li=1;li<nlevel-1;li++)]. *)
Definition Erode (pow_meq : Q -> Q) (fuel : nat) (st : FastScape)
  : option FastScape :=
  for_loopM 1 (nlevel st - 1) (erode_level pow_meq fuel) st.

(** The body of the step loop of [run]. *)
Definition step (pow_meq : Q -> Q) (fuel : nat) (st : FastScape)
  : option FastScape :=
  let st := ComputeReceivers st in
  let st := ComputeDonors st in
  match GenerateOrder fuel st with
  | None => None
  | Some st =>
      let st := ComputeFlowAcc st in
      let st := AddUplift st in
      Erode pow_meq fuel st
  end.

End RBP.

(** ** Donors by announcement *)

(** The cells below [i] whose receiver is [n], in increasing order. *)
Definition givers (st : FastScape) (n i : Z) : list Z :=
  filter (gives_to st n) (zrange 0 i).

Lemma givers_bound st n i :
  (forall c, 0 <= c < i -> rec st c <> NO_FLOW -> 0 <= rec st c < 8) ->
  (length (givers st n i) <= 8)%nat.
Proof.
  intros Hr.
  change 8%nat with (length (map (fun d => n - nshift st d) (zrange 0 8))).
  apply NoDup_incl_length.
  - apply NoDup_filter, NoDup_zrange.
  - intros c Hc. unfold givers in Hc. apply filter_In in Hc.
    destruct Hc as [Hc Hg]. apply In_zrange in Hc.
    apply gives_to_true in Hg. destruct Hg as [Hnf Hrv]. unfold recv in Hrv.
    apply in_map_iff. exists (rec st c). split; [lia|].
    apply In_zrange. now apply Hr.
Qed.

Lemma givers_snoc st n i :
  0 <= i ->
  givers st n (i + 1)
  = givers st n i ++ (if gives_to st n i then [i] else []).
Proof.
  intros Hi. unfold givers. rewrite zrange_snoc by exact Hi.
  rewrite filter_app. reflexivity.
Qed.

(** The state of the cell loop of [RBP.ComputeDonors] before cell [i]. *)
Definition push_inv (st : FastScape) (i : Z) (s : FastScape) : Prop :=
  exists d nd,
    s = set_ndon (set_donor st d) nd
    /\ forall n, 0 <= n < size st ->
         nd n = Z.of_nat (length (givers st n i))
         /\ map (fun k => d (8 * n + k)) (zrange 0 (nd n)) = givers st n i.

Lemma donor_push_inv st i s :
  (forall c, 0 <= c < size st -> rec st c <> NO_FLOW ->
     0 <= rec st c < 8 /\ 0 <= recv st c < size st) ->
  0 <= i < size st -> push_inv st i s ->
  push_inv st (i + 1) (RBP.donor_push i s).
Proof.
  intros Hrec Hi (d & nd & -> & Hinv).
  assert (Hrange : forall c, 0 <= c < i + 1 -> rec st c <> NO_FLOW ->
                             0 <= rec st c < 8).
  { intros c Hc Hnf. apply Hrec; [lia | exact Hnf]. }
  unfold RBP.donor_push. cbv zeta. fs_simpl.
  destruct (rec st i =? NO_FLOW) eqn:Hr.
  - exists d, nd. split; [reflexivity|]. intros n Hn.
    rewrite givers_snoc by lia.
    assert (Hg : gives_to st n i = false).
    { unfold gives_to. now rewrite Hr. }
    rewrite Hg, app_nil_r. now apply Hinv.
  - apply Z.eqb_neq in Hr. destruct (Hrec i Hi Hr) as [Hd Hn0].
    fold (recv st i). set (n0 := recv st i) in *.
    exists (upd d (8 * n0 + nd n0) i), (upd nd n0 (nd n0 + 1)).
    split; [reflexivity|]. intros n Hn.
    rewrite givers_snoc by lia.
    destruct (Hinv n Hn) as [Hlen Hlist].
    destruct (Hinv n0 Hn0) as [Hlen0 _].
    assert (Hb0 := givers_bound st n0 (i + 1) Hrange).
    assert (Hg0 : gives_to st n0 i = true).
    { apply gives_to_true. split; [exact Hr | reflexivity]. }
    rewrite (givers_snoc st n0 i) in Hb0 by lia.
    rewrite Hg0, length_app in Hb0. cbn [length] in Hb0.
    destruct (Z.eq_dec n n0) as [-> | Hne].
    + rewrite Hg0, upd_same, length_app. cbn [length]. split; [lia|].
      rewrite zrange_snoc, map_app by lia. cbn [map]. rewrite upd_same.
      f_equal. rewrite <- Hlist. apply map_ext_in. intros k Hk.
      apply In_zrange in Hk. apply upd_other. lia.
    + assert (Hg : gives_to st n i = false).
      { destruct (gives_to st n i) eqn:Hgt; [|reflexivity].
        apply gives_to_true in Hgt. destruct Hgt as [_ Hrv].
        fold n0 in Hrv. congruence. }
      rewrite Hg, app_nil_r, (upd_other nd n0 n) by exact Hne.
      split; [exact Hlen|]. rewrite <- Hlist. apply map_ext_in.
      intros k Hk. apply In_zrange in Hk. apply upd_other.
      assert (Hb := givers_bound st n i
                      (fun c Hc => Hrange c ltac:(lia))).
      lia.
Qed.

Lemma RBP_ComputeDonors_spec st :
  (forall c, 0 <= c < size st -> rec st c <> NO_FLOW ->
     0 <= rec st c < 8 /\ 0 <= recv st c < size st) ->
  exists d nd,
    RBP.ComputeDonors st = set_ndon (set_donor st d) nd
    /\ forall n, 0 <= n < size st ->
         nd n = Z.of_nat (length (givers st n (size st)))
         /\ map (fun k => d (8 * n + k)) (zrange 0 (nd n))
            = givers st n (size st).
Proof.
  intros Hrec. unfold RBP.ComputeDonors. cbv zeta.
  destruct (fill_ndon st (size st)) as (nd0 & Hnd0 & Hz).
  rewrite Hnd0. change (size (set_ndon st nd0)) with (size st).
  destruct (Z_le_gt_dec 0 (size st)) as [Hs | Hs].
  - assert (Hinv : push_inv st (size st)
                     (for_loop 0 (size st) RBP.donor_push (set_ndon st nd0))).
    { apply (for_loop_ind 0 (size st) RBP.donor_push (push_inv st));
        [exact Hs | |].
      - exists (donor st), nd0. split.
        + rewrite (FastScape_eta st) at 1. reflexivity.
        + intros n Hn. unfold givers. rewrite (zrange_nil 0 0) by lia.
          cbn [filter length]. rewrite (Hz n Hn).
          change (Z.of_nat 0) with 0. rewrite (zrange_nil 0 0) by lia.
          split; reflexivity.
      - intros i s Hi. now apply donor_push_inv. }
    exact Hinv.
  - unfold for_loop. rewrite zrange_nil by lia. cbn [fold_left].
    exists (donor st), nd0. split.
    + rewrite (FastScape_eta st) at 1. reflexivity.
    + intros n Hn. lia.
Qed.

Lemma index_grid st c :
  size st = width st * height st -> 0 < width st -> 0 < height st ->
  0 <= c < size st -> In c (grid st).
Proof.
  intros Hs HW HH Hc. unfold grid. apply In_cells.
  exists (c / width st), (c mod width st).
  split; [rewrite Z.mul_comm; apply Z.div_mod; lia|].
  split.
  - split; [apply Z.div_pos; lia|].
    apply Z.div_lt_upper_bound; [lia|]. rewrite <- Hs. lia.
  - apply Z.mod_pos_bound. lia.
Qed.

Lemma donor_list_length st c :
  length (donor_list st c) = Z.to_nat (ndon st c).
Proof.
  unfold donor_list. rewrite length_map, zrange_length. f_equal. lia.
Qed.



(** ** Erosion may skip level 0 *)

Lemma foldM_unchanged {T : Type} (body : Z -> T -> option T) l s :
  (forall i, In i l -> body i s = Some s) -> foldM body l s = Some s.
Proof.
  induction l as [|a l IH]; intros Hb; [reflexivity|].
  cbn [foldM]. rewrite (Hb a) by now left.
  apply IH. intros i Hi. apply Hb. now right.
Qed.

Lemma erode_level_sinks pow_meq fuel li st :
  (forall i, levels st li <= i < levels st (li + 1) ->
             rec st (stack st i) = NO_FLOW) ->
  erode_level pow_meq fuel li st = Some st.
Proof.
  intros Hsink. unfold erode_level, for_loopM. cbv zeta.
  apply foldM_unchanged. intros i Hi. apply In_zrange in Hi.
  unfold erode_cell. cbv zeta. rewrite (Hsink i Hi).
  rewrite Z.eqb_refl. reflexivity.
Qed.

Lemma level_0_sinks g s3 ns m :
  order_post g s3 ns m ->
  forall i, levels s3 0 <= i < levels s3 1 -> rec s3 (stack s3 i) = NO_FLOW.
Proof.
  intros Hp i Hi.
  destruct Hp as (Hsg & Hlm & Hfirst & Hnl & Hlv & Hns & Hsl).
  destruct Hsg as (_ & _ & _ & _ & _ & Hrec & _).
  assert (Hl0 : levels s3 (Z.of_nat 0) = pre g 0) by (apply Hlv; lia).
  assert (Hl1 : levels s3 (Z.of_nat 1) = pre g 1) by (apply Hlv; lia).
  change (Z.of_nat 0) with 0 in Hl0. change (Z.of_nat 1) with 1 in Hl1.
  rewrite Hl0, Hl1 in Hi.
  assert (Hin : In (stack s3 i) (lvl g 0)).
  { rewrite <- (Hsl O) by lia. apply In_stack_slice. exists i. auto. }
  apply lvl_0 in Hin. rewrite Hrec. tauto.
Qed.



(** ** The balance of accumulated area at a cell *)

(** The sum of a list of doubles. *)
Definition Qsum (l : list Q) : Q := fold_right Qplus 0%Q l.

Lemma Qsum_perm (f : Z -> Q) l l' :
  Permutation l l' -> (Qsum (map f l) == Qsum (map f l'))%Q.
Proof.
  induction 1 as [|x l l' Hp IH|x y l|l l' l'' H1 IH1 H2 IH2];
    cbn [map Qsum fold_right].
  - reflexivity.
  - fold (Qsum (map f l)). fold (Qsum (map f l')). rewrite IH. reflexivity.
  - ring.
  - now rewrite IH1.
Qed.

Lemma Qsum_scaled (f : Z -> Q) (n : Z -> nat) k l :
  (forall d, In d l -> (f d == k * qn (n d))%Q) ->
  (Qsum (map f l) == k * qn (list_sum (map n l)))%Q.
Proof.
  induction l as [|a l IH]; intros Hf.
  - change (0 == k * qn 0)%Q. unfold qn.
    change (inject_Z (Z.of_nat 0)) with 0%Q. ring.
  - change (f a + Qsum (map f l)
            == k * qn (n a + list_sum (map n l)))%Q.
    rewrite IH by (intros d Hd; apply Hf; now right).
    rewrite (Hf a) by now left. rewrite qn_add. ring.
Qed.

Lemma list_sum_ge (n : Z -> nat) l a :
  In a l -> (n a <= list_sum (map n l))%nat.
Proof.
  induction l as [|b l IH]; intros Ha; [destruct Ha|].
  change (list_sum (map n (b :: l))) with (n b + list_sum (map n l))%nat.
  destruct Ha as [-> | Ha]; [lia|].
  specialize (IH Ha). lia.
Qed.

Lemma qn_S n : (qn (S n) == 1 + qn n)%Q.
Proof.
  change (S n) with (1 + n)%nat. rewrite qn_add. reflexivity.
Qed.

Lemma qn_le a b : (a <= b)%nat -> (qn a <= qn b)%Q.
Proof.
  intros Hab. unfold qn. rewrite <- Zle_Qle. lia.
Qed.



(** ** The ordering stage of [FastScape_RBP] *)

(** The seeds of [RBP.GenerateOrder]: every cell without a receiver. *)
Definition seeds_all (st : FastScape) : list Z :=
  filter (fun c => rec st c =? NO_FLOW) (zrange 0 (size st)).

Lemma RBP_load_seeds_push o :
  RBP.load_seeds o = push_all (seeds_all (o_st o)) o.
Proof.
  unfold RBP.load_seeds, seeds_all, for_loop.
  assert (Hgen : forall l o',
     same_graph (o_st o) (o_st o') ->
     fold_left (fun o1 c =>
        if rec (o_st o1) c =? NO_FLOW then push_stack c o1 else o1) l o'
     = push_all (filter (fun c => rec (o_st o) c =? NO_FLOW) l) o').
  { induction l as [|a l IH]; intros o' Hs; simpl; [reflexivity|].
    assert (Hrec : rec (o_st o') = rec (o_st o)) by (apply Hs).
    rewrite Hrec. destruct (rec (o_st o) a =? NO_FLOW).
    - unfold push_all. simpl. apply IH.
      eapply same_graph_trans; [exact Hs|].
      unfold push_stack, same_graph. simpl. repeat split.
    - now apply IH. }
  apply Hgen, same_graph_refl.
Qed.

(** Level [k] of the traversal that [RBP.GenerateOrder] performs from state
    [st]: the cells without a receiver, then the donors of the previous
    level. *)
Fixpoint lvl_all (st : FastScape) (k : nat) : list Z :=
  match k with
  | O => seeds_all st
  | S k' => flat_map (donor_list st) (lvl_all st k')
  end.

(** The number of cells in the levels below [k]. *)
Fixpoint pre_all (st : FastScape) (k : nat) : Z :=
  match k with
  | O => 0
  | S k' => pre_all st k' + Z.of_nat (length (lvl_all st k'))
  end.

Lemma pre_all_nonneg st k : 0 <= pre_all st k.
Proof. induction k as [|k IH]; simpl; lia. Qed.

Lemma pre_all_mono st i j : (i <= j)%nat -> pre_all st i <= pre_all st j.
Proof.
  induction 1 as [|j Hle IH]; [lia|]. simpl. lia.
Qed.

Lemma lvl_all_nil_succ st k : lvl_all st k = [] -> lvl_all st (S k) = [].
Proof. intros Hk. simpl. now rewrite Hk. Qed.

Lemma first_empty_level_all st M :
  lvl_all st M = [] ->
  exists m, (m <= M)%nat /\ lvl_all st m = []
            /\ forall i, (i < m)%nat -> lvl_all st i <> [].
Proof.
  induction M as [|M IH]; intros HM.
  - exists O. repeat split; auto. intros i Hi. lia.
  - destruct (lvl_all st M) as [|a l] eqn:HlM.
    + destruct (IH eq_refl) as [m [Hm [He Hf]]]. exists m. repeat split; auto.
    + exists (S M). repeat split; auto. intros i Hi.
      destruct (Nat.eq_dec i M) as [->|Hne]; [congruence|].
      intros Hi0.
      assert (Hall : forall d, lvl_all st (i + d) = []).
      { induction d as [|d IHd].
        - now rewrite Nat.add_0_r.
        - replace (i + S d)%nat with (S (i + d)) by lia.
          now apply lvl_all_nil_succ. }
      specialize (Hall (M - i)%nat).
      replace (i + (M - i))%nat with M in Hall by lia. congruence.
Qed.

(** The loop invariant of [while(level_bottom<level_top)] after [j]
    iterations, for the traversal started in [st0]. *)
Definition order_inv_all (st0 : FastScape) (j : nat) (o : OrderLocals) : Prop :=
  same_graph st0 (o_st o)
  /\ nstack o = pre_all st0 (S j)
  /\ (forall i, (i <= j)%nat ->
        stack_slice (o_st o) (pre_all st0 i) (pre_all st0 (S i)) = lvl_all st0 i)
  /\ nlevel (o_st o) = Z.of_nat j + 2
  /\ (forall i, (i <= S j)%nat -> levels (o_st o) (Z.of_nat i) = pre_all st0 i)
  /\ level_top o = pre_all st0 j
  /\ level_bottom o = match j with O => -1 | S j' => pre_all st0 j' end.

Lemma level_step_inv_all st0 j o :
  order_inv_all st0 j o -> order_inv_all st0 (S j) (level_step o).
Proof.
  intros (Hsg & Hns & Hsl & Hnl & Hlv & Htop & Hbot).
  unfold level_step. cbv zeta. fs_simpl.
  set (o1 := mkOrder (o_st o) (nstack o) (level_top o) (nstack o)).
  assert (Hpush : for_loop (level_top o) (nstack o) expand_cell o1
                  = push_all (lvl_all st0 (S j)) o1).
  { rewrite expand_level_push.
    - unfold o1. fs_simpl. f_equal. cbn [lvl_all].
      rewrite Htop, Hns, (Hsl j (Nat.le_refl j)).
      apply flat_map_ext. intros c. now apply donor_list_same_graph.
    - rewrite Htop. apply pre_all_nonneg.
    - unfold o1. fs_simpl. lia. }
  rewrite Hpush.
  assert (Hn1 : 0 <= nstack o1)
    by (unfold o1; fs_simpl; rewrite Hns; apply pre_all_nonneg).
  destruct (push_all_spec (lvl_all st0 (S j)) o1 Hn1)
    as [s' [[Hst [Hb Ht]] [Hns' [Hlow Hmap]]]].
  destruct (push_all_levels (lvl_all st0 (S j)) o1) as [Hlv' Hnl'].
  set (o2 := push_all (lvl_all st0 (S j)) o1) in *.
  unfold o1 in Hst, Hb, Ht, Hns', Hlow, Hmap, Hlv', Hnl'.
  fs_simpl in Hst. fs_simpl in Hb. fs_simpl in Ht. fs_simpl in Hns'.
  fs_simpl in Hlow. fs_simpl in Hmap. fs_simpl in Hlv'. fs_simpl in Hnl'.
  unfold order_inv_all, push_level. cbv zeta. fs_simpl.
  rewrite Hst. fs_simpl. rewrite Hns'.
  split; [|split; [|split; [|split; [|split; [|split]]]]].
  - destruct Hsg as (?&?&?&?&?&?&?&?&?). unfold same_graph. fs_simpl.
    repeat split; assumption.
  - rewrite Hns. reflexivity.
  - intros i Hi. unfold stack_slice.
    destruct (Nat.eq_dec i (S j)) as [->|Hne].
    + change (pre_all st0 (S (S j)))
        with (pre_all st0 (S j) + Z.of_nat (length (lvl_all st0 (S j)))).
      rewrite <- Hns. exact Hmap.
    + rewrite <- (Hsl i) by lia. unfold stack_slice.
      apply map_ext_in. intros k Hk. apply In_zrange in Hk.
      apply Hlow. rewrite Hns.
      assert (pre_all st0 (S i) <= pre_all st0 (S j)) by (apply pre_all_mono; lia). lia.
  - rewrite Hnl. lia.
  - intros i Hi. rewrite Hnl.
    destruct (Nat.eq_dec i (S (S j))) as [->|Hne].
    + replace (Z.of_nat (S (S j))) with (Z.of_nat j + 2) by lia.
      rewrite upd_same, Hns. reflexivity.
    + rewrite upd_other by lia. apply Hlv. lia.
  - rewrite Ht. exact Hns.
  - rewrite Hb. exact Htop.
Qed.

Lemma level_loop_spec_all st0 m :
  lvl_all st0 m = [] -> (forall i, (i < m)%nat -> lvl_all st0 i <> []) ->
  forall d j o fuel,
    (j + d = S m)%nat -> order_inv_all st0 j o -> (d <= fuel)%nat ->
    exists o', level_loop fuel o = Some o' /\ order_inv_all st0 (S m) o'.
Proof.
  intros Hm Hfirst. induction d as [|d IH]; intros j o fuel Hj Hinv Hfuel.
  - assert (j = S m) by lia. subst j.
    exists o. split; [|exact Hinv].
    destruct Hinv as (_&_&_&_&_&Htop&Hbot).
    assert (Hnlt : (level_bottom o <? level_top o) = false).
    { apply Z.ltb_ge. rewrite Htop, Hbot. simpl. rewrite Hm. simpl. lia. }
    destruct fuel; simpl; now rewrite Hnlt.
  - destruct fuel as [|fuel]; [lia|].
    assert (Hlt : (level_bottom o <? level_top o) = true).
    { apply Z.ltb_lt. destruct Hinv as (_&_&_&_&_&Htop&Hbot).
      rewrite Htop, Hbot. destruct j as [|j'].
      - simpl. lia.
      - simpl. assert (Hne : lvl_all st0 j' <> []) by (apply Hfirst; lia).
        destruct (lvl_all st0 j'); [congruence|]. simpl. lia. }
    simpl. rewrite Hlt.
    apply (IH (S j)); [lia | now apply level_step_inv_all | lia].
Qed.

(** What [RBP.GenerateOrder] establishes: [m] is the first empty level. *)
Definition order_post_all (st0 st' : FastScape) (ns : Z) (m : nat) : Prop :=
  same_graph st0 st'
  /\ lvl_all st0 m = [] /\ (forall i, (i < m)%nat -> lvl_all st0 i <> [])
  /\ nlevel st' = Z.of_nat m + 2
  /\ (forall i, (i <= S m)%nat -> levels st' (Z.of_nat i) = pre_all st0 i)
  /\ ns = pre_all st0 m
  /\ (forall i, (i <= m)%nat ->
        stack_slice st' (pre_all st0 i) (pre_all st0 (S i)) = lvl_all st0 i).

Lemma RBP_GenerateOrder_locals_spec st0 M fuel :
  lvl_all st0 M = [] -> (S M <= fuel)%nat ->
  exists o m,
    RBP.GenerateOrder_locals fuel st0 = Some o
    /\ (m <= M)%nat /\ order_post_all st0 (o_st o) (nstack o) m.
Proof.
  intros HM Hfuel.
  destruct (first_empty_level_all st0 M HM) as [m [HmM [Hm Hfirst]]].
  unfold RBP.GenerateOrder_locals. cbv zeta.
  set (st1 := set_nlevel (set_levels st0 (upd (levels st0) 0 0)) 1).
  set (o0 := mkOrder st1 0 0 0).
  rewrite RBP_load_seeds_push.
  assert (Hseeds : seeds_all (o_st o0) = seeds_all st0) by reflexivity.
  rewrite Hseeds.
  destruct (push_all_spec (seeds_all st0) o0 ltac:(simpl; lia))
    as [s' [[Hst [Hb Ht]] [Hns [Hlow Hmap]]]].
  destruct (push_all_levels (seeds_all st0) o0) as [Hlv Hnl].
  set (o1 := push_all (seeds_all st0) o0) in *.
  unfold o0, st1 in Hst, Hb, Ht, Hns, Hlow, Hmap, Hlv, Hnl.
  fs_simpl in Hst. fs_simpl in Hb. fs_simpl in Ht. fs_simpl in Hns.
  fs_simpl in Hlow. fs_simpl in Hmap. fs_simpl in Hlv. fs_simpl in Hnl.
  set (o2 := mkOrder (o_st (push_level o1)) (nstack (push_level o1)) (-1) 0).
  assert (Hinv : order_inv_all st0 O o2).
  { unfold order_inv_all, o2, push_level. cbv zeta. fs_simpl. rewrite Hst.
    fs_simpl. rewrite Hns.
    split; [|split; [|split; [|split; [|split; [|split]]]]].
    - unfold same_graph. fs_simpl. repeat split.
    - cbn [pre_all lvl_all]. lia.
    - intros i Hi. assert (i = O) by lia. subst i.
      unfold stack_slice. fs_simpl. cbn [pre_all lvl_all]. exact Hmap.
    - lia.
    - intros i Hi. destruct i as [|[|i]]; [| |lia].
      + rewrite upd_other by lia. now rewrite upd_same.
      + change (Z.of_nat 1) with 1. rewrite upd_same. cbn [pre_all lvl_all]. lia.
    - reflexivity.
    - reflexivity. }
  destruct (level_loop_spec_all st0 m Hm Hfirst (S m) O o2 fuel
              ltac:(lia) Hinv ltac:(lia)) as [o' [Hloop Hinv']].
  rewrite Hloop.
  eexists. exists m. split; [reflexivity|]. split; [exact HmM|].
  destruct Hinv' as (Hsg & Hns' & Hsl & Hnl' & Hlv' & Htop & Hbot).
  unfold order_post_all. fs_simpl.
  split; [|split; [|split; [|split; [|split; [|split]]]]].
  - exact Hsg.
  - exact Hm.
  - exact Hfirst.
  - rewrite Hnl'. lia.
  - intros i Hi. apply Hlv'. lia.
  - rewrite Hns'. cbn [pre_all]. rewrite (lvl_all_nil_succ st0 m Hm), Hm.
    cbn [length]. lia.
  - intros i Hi. apply Hsl. lia.
Qed.

Lemma lvl_all_nil_ge st m k : lvl_all st m = [] -> (m <= k)%nat -> lvl_all st k = [].
Proof.
  intros Hm. induction 1 as [|k Hle IH]; [exact Hm|]. now apply lvl_all_nil_succ.
Qed.

(** The concatenation of the levels below [k]. *)
Fixpoint upto_all (st : FastScape) (k : nat) : list Z :=
  match k with
  | O => []
  | S k' => upto_all st k' ++ lvl_all st k'
  end.

Lemma In_upto_all st k c :
  In c (upto_all st k) <-> exists i, (i < k)%nat /\ In c (lvl_all st i).
Proof.
  induction k as [|k IH]; simpl.
  - split; [intros [] | intros (i & Hi & _); lia].
  - rewrite in_app_iff, IH. split.
    + intros [(i & Hi & Hc) | Hc]; [exists i | exists k]; split; auto; lia.
    + intros (i & Hi & Hc). destruct (Nat.eq_dec i k) as [->|Hne]; [now right|].
      left. exists i. split; [lia | exact Hc].
Qed.

Lemma upto_all_length st k : Z.of_nat (length (upto_all st k)) = pre_all st k.
Proof.
  induction k as [|k IH]; simpl; [reflexivity|].
  rewrite length_app. lia.
Qed.

Lemma stack_upto_all st0 st' ns m k :
  order_post_all st0 st' ns m -> (k <= S m)%nat ->
  stack_slice st' 0 (pre_all st0 k) = upto_all st0 k.
Proof.
  intros (_&_&_&_&_&_&Hsl). induction k as [|k IH]; intros Hk.
  - simpl. unfold stack_slice. now rewrite zrange_nil by lia.
  - rewrite (stack_slice_app st' 0 (pre_all st0 k) (pre_all st0 (S k))).
    + simpl upto_all. rewrite IH by lia. f_equal. apply Hsl. lia.
    + split; [apply pre_all_nonneg | apply pre_all_mono; lia].
Qed.

Lemma order_post_all_stack st0 st' ns m :
  order_post_all st0 st' ns m -> stack_slice st' 0 ns = upto_all st0 m.
Proof.
  intros Hp. assert (Hns : ns = pre_all st0 m) by apply Hp.
  rewrite Hns. apply (stack_upto_all st0 st' ns m m Hp). lia.
Qed.

Lemma find_level_all st K i :
  0 <= i < pre_all st K ->
  exists k, (k < K)%nat /\ pre_all st k <= i < pre_all st (S k).
Proof.
  induction K as [|K IH]; intros Hi; [simpl in Hi; lia|].
  destruct (Z_lt_ge_dec i (pre_all st K)) as [Hlt | Hge].
  - destruct (IH ltac:(lia)) as (k & Hk & Hr). exists k. split; [lia | exact Hr].
  - exists K. split; [lia|]. lia.
Qed.

Lemma RBP_GenerateOrder_locals_mono fuel fuel' st o :
  RBP.GenerateOrder_locals fuel st = Some o -> (fuel <= fuel')%nat ->
  RBP.GenerateOrder_locals fuel' st = Some o.
Proof.
  unfold RBP.GenerateOrder_locals. cbv zeta. intros Hg Hle.
  destruct (level_loop fuel _) as [o1|] eqn:Hl; [|discriminate].
  now rewrite (level_loop_mono fuel fuel' _ o1 Hl Hle).
Qed.

(** *** The levels of the serial traversal *)

(** [gP] carries the receivers of the flow graph [g] and, for every cell,
    the donors in increasing order. *)
Definition serial_of (g gP : FastScape) : Prop :=
  width gP = width g /\ height gP = height g /\ size gP = size g
  /\ (forall c, h gP c = h g c) /\ rec gP = rec g /\ nshift gP = nshift g
  /\ zrange 0 (size g) = grid g
  /\ forall c, In c (grid g) -> donor_list gP c = donors_of g c.

Section SerialLevels.

Variables g gP : FastScape.
Hypothesis Hg : flow_graph g.
Hypothesis Hser : serial_of g gP.

Lemma lvl_all_0 c :
  In c (lvl_all gP 0) <-> In c (grid g) /\ rec g c = NO_FLOW.
Proof.
  destruct Hser as (_ & _ & Hsz & _ & Hrec & _ & Hzr & _).
  cbn [lvl_all]. unfold seeds_all.
  rewrite filter_In, Z.eqb_eq, Hsz, Hzr, Hrec. tauto.
Qed.

Lemma lvl_all_grid k c : In c (lvl_all gP k) -> In c (grid g).
Proof.
  revert c. induction k as [|k IH]; intros c Hc.
  - now apply lvl_all_0 in Hc.
  - cbn [lvl_all] in Hc. apply in_flat_map in Hc.
    destruct Hc as (t & Ht & Hc).
    destruct Hser as (_ & _ & _ & _ & _ & _ & _ & Hdon).
    rewrite (Hdon t (IH t Ht)) in Hc. now apply In_donors_of in Hc.
Qed.

Lemma lvl_all_S k c :
  In c (lvl_all gP (S k)) <->
  In c (grid g) /\ rec g c <> NO_FLOW /\ In (recv g c) (lvl_all gP k).
Proof.
  assert (Hdon : forall t, In t (grid g) -> donor_list gP t = donors_of g t)
    by apply Hser.
  cbn [lvl_all]. rewrite in_flat_map. split.
  - intros (t & Ht & Hc). rewrite (Hdon t (lvl_all_grid k t Ht)) in Hc.
    apply In_donors_of in Hc. destruct Hc as (Hc & Hr & Hrv).
    subst t. auto.
  - intros (Hc & Hr & Ht). exists (recv g c). split; [exact Ht|].
    rewrite (Hdon _ (lvl_all_grid k _ Ht)). apply In_donors_of. auto.
Qed.

Lemma lvl_all_unique k k' c :
  In c (lvl_all gP k) -> In c (lvl_all gP k') -> k = k'.
Proof.
  revert k' c. induction k as [|k IH]; intros k' c Hk Hk'.
  - destruct k' as [|k']; [reflexivity|].
    apply lvl_all_0 in Hk. apply lvl_all_S in Hk'. tauto.
  - destruct k' as [|k'].
    + apply lvl_all_0 in Hk'. apply lvl_all_S in Hk. tauto.
    + apply lvl_all_S in Hk. apply lvl_all_S in Hk'.
      f_equal. apply (IH k' (recv g c)); tauto.
Qed.

Lemma NoDup_lvl_all k : NoDup (lvl_all gP k).
Proof.
  assert (Hdon : forall t, In t (grid g) -> donor_list gP t = donors_of g t)
    by apply Hser.
  induction k as [|k IH].
  - cbn [lvl_all]. unfold seeds_all. apply NoDup_filter, NoDup_zrange.
  - cbn [lvl_all]. apply NoDup_flat_map; [exact IH| |].
    + intros t Ht. rewrite (Hdon t (lvl_all_grid k t Ht)).
      apply NoDup_filter, NoDup_grid.
    + intros t t' c Ht Ht' Hc Hc'.
      rewrite (Hdon t (lvl_all_grid k t Ht)) in Hc.
      rewrite (Hdon t' (lvl_all_grid k t' Ht')) in Hc'.
      apply In_donors_of in Hc. apply In_donors_of in Hc'.
      destruct Hc as (_ & _ & <-), Hc' as (_ & _ & <-). reflexivity.
Qed.

(** Every cell of the grid lies in a level, no deeper than its rank. *)
Lemma grid_in_lvl_all c :
  In c (grid g) -> exists k, (k <= rank g c)%nat /\ In c (lvl_all gP k).
Proof.
  assert (Hgen : forall n c, (rank g c < n)%nat -> In c (grid g) ->
            exists k, (k <= rank g c)%nat /\ In c (lvl_all gP k)).
  { induction n as [|n IH]; intros c' Hr Hc; [lia|].
    destruct (Z.eq_dec (rec g c') NO_FLOW) as [He | Hne].
    - exists O. split; [lia|]. apply lvl_all_0. auto.
    - assert (Hlt := rank_recv g c' Hg Hc Hne).
      assert (Hrg : In (recv g c') (grid g))
        by now apply frame_grid, recv_frame.
      destruct (IH (recv g c') ltac:(lia) Hrg) as (k & Hk & Hin).
      exists (S k). split; [lia|]. apply lvl_all_S; auto. }
  intros Hc. apply (Hgen (S (rank g c))); auto.
Qed.

Lemma lvl_all_grid_empty : lvl_all gP (length (grid g)) = [].
Proof.
  destruct (lvl_all gP (length (grid g))) as [|c l] eqn:Hl; [reflexivity|].
  assert (Hc : In c (lvl_all gP (length (grid g)))) by (rewrite Hl; now left).
  assert (Hcg := lvl_all_grid _ c Hc).
  destruct (grid_in_lvl_all c Hcg) as (k & Hk & Hin).
  assert (Hkk := lvl_all_unique _ _ c Hc Hin).
  assert (H2 := rank_lt_grid g c Hcg). lia.
Qed.

Lemma NoDup_upto_all k : NoDup (upto_all gP k).
Proof.
  induction k as [|k IH]; cbn [upto_all]; [constructor|].
  apply NoDup_app; [exact IH | apply NoDup_lvl_all |].
  intros c Hc Hc'. apply In_upto_all in Hc. destruct Hc as (i & Hi & Hc).
  assert (i = k) by (apply (lvl_all_unique i k c); auto). lia.
Qed.

(** When the traversal has stopped, it has listed exactly the grid. *)
Lemma In_upto_all_grid m c :
  lvl_all gP m = [] -> (In c (upto_all gP m) <-> In c (grid g)).
Proof.
  intros Hm. rewrite In_upto_all. split.
  - intros (i & _ & Hc). now apply (lvl_all_grid i).
  - intros Hc. destruct (grid_in_lvl_all c Hc) as (k & _ & Hin).
    exists k. split; [|exact Hin].
    destruct (Nat.lt_ge_cases k m) as [Hlt | Hge]; [exact Hlt|].
    rewrite (lvl_all_nil_ge gP m k Hm Hge) in Hin. destruct Hin.
Qed.

Lemma RBP_GenerateOrder_total fuel :
  (S (length (grid g)) <= fuel)%nat ->
  exists o m, RBP.GenerateOrder_locals fuel gP = Some o
              /\ (m <= length (grid g))%nat
              /\ order_post_all gP (o_st o) (nstack o) m.
Proof.
  intros Hf.
  apply (RBP_GenerateOrder_locals_spec gP (length (grid g)) fuel); auto.
  apply lvl_all_grid_empty.
Qed.

Lemma RBP_GenerateOrder_locals_post fuel o :
  RBP.GenerateOrder_locals fuel gP = Some o ->
  exists m, (m <= length (grid g))%nat
            /\ order_post_all gP (o_st o) (nstack o) m.
Proof.
  intros Ho.
  set (M := length (grid g)).
  destruct (RBP_GenerateOrder_locals_spec gP M (Nat.max fuel (S M))
              lvl_all_grid_empty ltac:(lia)) as (o' & m & Ho' & Hm & Hp).
  rewrite (RBP_GenerateOrder_locals_mono fuel (Nat.max fuel (S M)) gP o Ho
             ltac:(lia)) in Ho'.
  inversion Ho'; subst. exists m. auto.
Qed.

End SerialLevels.

Lemma RBP_GenerateOrder_post g gP fuel s3 :
  flow_graph g -> serial_of g gP ->
  RBP.GenerateOrder fuel gP = Some s3 ->
  exists m, (m <= length (grid g))%nat
            /\ order_post_all gP s3 (levels s3 (nlevel s3 - 1)) m.
Proof.
  intros Hg Hser H3. unfold RBP.GenerateOrder in H3.
  destruct (RBP.GenerateOrder_locals fuel gP) as [o|] eqn:Ho; [|discriminate].
  cbn [option_map] in H3. inversion H3; subst.
  destruct (RBP_GenerateOrder_locals_post g gP Hg Hser fuel o Ho)
    as (m & Hm & Hp).
  exists m. split; [exact Hm|].
  assert (Hnl : nlevel (o_st o) = Z.of_nat m + 2) by apply Hp.
  assert (Hlv : levels (o_st o) (Z.of_nat (S m)) = pre_all gP (S m))
    by (apply Hp; lia).
  assert (Hns : nstack o = pre_all gP m) by apply Hp.
  assert (Hl : lvl_all gP m = []) by apply Hp.
  replace (levels (o_st o) (nlevel (o_st o) - 1)) with (nstack o);
    [exact Hp|].
  rewrite Hnl. replace (Z.of_nat m + 2 - 1) with (Z.of_nat (S m)) by lia.
  rewrite Hlv, Hns. cbn [pre_all]. rewrite Hl. cbn [length]. lia.
Qed.

(** The cells of the grid are the indices below [size], in increasing
    order. *)
Lemma cells_zrange W H :
  0 < W -> 0 <= H -> cells W 0 H 0 W = zrange 0 (W * H).
Proof.
  intros HW HH.
  assert (Hgen : forall n : nat,
            cells W 0 (Z.of_nat n) 0 W = zrange 0 (W * Z.of_nat n)).
  { induction n as [|n IH].
    - unfold cells. change (Z.of_nat 0) with 0.
      rewrite (zrange_nil 0 0), (zrange_nil 0 (W * 0)) by lia. reflexivity.
    - replace (Z.of_nat (S n)) with (Z.of_nat n + 1) by lia.
      unfold cells in *. rewrite zrange_snoc, flat_map_app by lia.
      rewrite IH. cbn [flat_map]. rewrite app_nil_r.
      rewrite (zrange_app 0 (W * Z.of_nat n) (W * (Z.of_nat n + 1))) by nia.
      f_equal. unfold zrange. rewrite map_map.
      replace (Z.to_nat (W * (Z.of_nat n + 1) - W * Z.of_nat n))
        with (Z.to_nat (W - 0)) by nia.
      apply map_ext. intros k. lia. }
  specialize (Hgen (Z.to_nat H)). rewrite Z2Nat.id in Hgen by exact HH.
  exact Hgen.
Qed.

(** Two states with the same dimensions, offsets and receivers, and the
    same elevation in every cell. *)
Definition same_terrain (st1 st2 : FastScape) : Prop :=
  width st2 = width st1 /\ height st2 = height st1 /\ size st2 = size st1
  /\ nshift st2 = nshift st1 /\ rec st2 = rec st1
  /\ forall c, h st2 c = h st1 c.

Lemma same_terrain_refl st : same_terrain st st.
Proof. unfold same_terrain. repeat split. Qed.

Lemma fold_left_ext_eq {A B : Type} (f f' : A -> B -> A) l a :
  (forall x y, f x y = f' x y) -> fold_left f l a = fold_left f' l a.
Proof.
  intros Hf. revert a. induction l as [|b l IH]; intros a; [reflexivity|].
  cbn [fold_left]. rewrite Hf. apply IH.
Qed.

Lemma receiver_scan_same st1 st2 c :
  nshift st2 = nshift st1 -> (forall x, h st2 x = h st1 x) ->
  receiver_scan st2 c = receiver_scan st1 c.
Proof.
  intros Hn Hh. unfold receiver_scan, for_loop.
  apply fold_left_ext_eq. intros [ms mn] n.
  rewrite Hn, !Hh. reflexivity.
Qed.

(** The receiver stage reads the elevations and the offsets only. *)
Lemma ComputeReceivers_same st1 st2 :
  same_terrain st1 st2 ->
  same_terrain (ComputeReceivers st1) (ComputeReceivers st2).
Proof.
  intros Hsame. unfold ComputeReceivers. cbv zeta.
  destruct Hsame as (Hw & Hh & Hsz & Hn & Hr & Hhh) eqn:E. clear E.
  rewrite !(for_loop_cells _ 2 _ 2 _
              (fun c s => set_rec s (upd (rec s) c (snd (receiver_scan s c))))).
  rewrite Hw, Hh.
  generalize (cells (width st1) 2 (height st1 - 2) 2 (width st1 - 2)) as l.
  intros l.
  assert (Hgen : forall s1 s2, same_terrain s1 s2 ->
     same_terrain
       (fold_left (fun s c =>
          set_rec s (upd (rec s) c (snd (receiver_scan s c)))) l s1)
       (fold_left (fun s c =>
          set_rec s (upd (rec s) c (snd (receiver_scan s c)))) l s2)).
  { induction l as [|c l IH]; intros s1 s2 Hs; [exact Hs|].
    cbn [fold_left]. apply IH.
    destruct Hs as (Hw' & Hh' & Hsz' & Hn' & Hr' & Hhh').
    unfold same_terrain. fs_simpl.
    rewrite (receiver_scan_same s1 s2 c Hn' Hhh'), Hr'.
    repeat split; assumption. }
  apply Hgen. unfold same_terrain. repeat split; assumption.
Qed.

Lemma serial_of_same st1 st2 :
  shape_inv st1 -> same_terrain st1 st2 ->
  0 < width st1 -> 0 < height st1 ->
  serial_of (ComputeDonors (ComputeReceivers st1))
            (RBP.ComputeDonors (ComputeReceivers st2)).
Proof.
  intros Hs Hsame HW HH.
  assert (Hs1 : shape_inv (ComputeReceivers st1))
    by now apply ComputeReceivers_shape.
  assert (Hdim1 : width (ComputeReceivers st1) = width st1
                  /\ height (ComputeReceivers st1) = height st1).
  { destruct (ComputeReceivers_spec st1) as (r & Hr & _).
    rewrite Hr. split; reflexivity. }
  destruct Hdim1 as [Hw1 Hh1].
  assert (Hsame1 := ComputeReceivers_same st1 st2 Hsame).
  set (s1 := ComputeReceivers st1) in *. clearbody s1.
  set (s2 := ComputeReceivers st2) in *. clearbody s2.
  destruct Hsame1 as (Hw2 & Hh2 & Hsz2 & Hn2 & Hr2 & Hhh2).
  destruct (ComputeDonors_spec s1) as (dg & ndg & Hdg & _).
  assert (Hzr : zrange 0 (size s1) = grid s1).
  { unfold grid. rewrite (si_size s1 Hs1). symmetry.
    apply cells_zrange; lia. }
  assert (Hidx : forall n, 0 <= n < size s1 <-> In n (grid s1)).
  { intros n. rewrite <- Hzr. symmetry. apply In_zrange. }
  destruct (RBP_ComputeDonors_spec s2) as (d & nd & Hp & Hpv).
  { intros n Hn Hnf. unfold recv. rewrite Hsz2, Hr2, Hn2 in *.
    apply Hidx in Hn.
    assert (Hi : In n (interior s1)).
    { destruct (In_dec_Z n (interior s1)) as [Hi | Hni]; [exact Hi|].
      exfalso. apply Hnf. now apply (si_rec s1 Hs1). }
    assert (Hd : 0 <= rec s1 n < 8).
    { assert (Hr := si_rec_range s1 Hs1 n Hn). unfold NO_FLOW in Hnf. lia. }
    split; [exact Hd|]. apply Hidx, frame_grid.
    apply interior_neighbour; [apply Hs1 | exact Hd | exact Hi]. }
  rewrite Hdg, Hp. unfold serial_of. fs_simpl.
  split; [exact Hw2|]. split; [exact Hh2|]. split; [exact Hsz2|].
  split; [exact Hhh2|]. split; [exact Hr2|]. split; [exact Hn2|].
  split; [exact Hzr|].
  intros c Hc. change (grid (set_ndon (set_donor s1 dg) ndg)) with (grid s1)
    in Hc.
  unfold donor_list. fs_simpl.
  assert (Hc2 : 0 <= c < size s2) by (rewrite Hsz2; now apply Hidx).
  destruct (Hpv c Hc2) as [_ Hlist].
  rewrite Hlist. unfold givers, donors_of.
  change (grid (set_ndon (set_donor s1 dg) ndg)) with (grid s1).
  rewrite Hsz2, Hzr. apply filter_ext. intros n.
  unfold gives_to. fs_simpl. now rewrite Hr2, Hn2.
Qed.

Lemma serial_of_stages st :
  shape_inv st -> 0 < width st -> 0 < height st ->
  serial_of (ComputeDonors (ComputeReceivers st))
            (RBP.ComputeDonors (ComputeReceivers st)).
Proof.
  intros Hs HW HH. apply serial_of_same; auto. apply same_terrain_refl.
Qed.



(** ** The accumulation stage of [FastScape_RBP] *)

(** The levels [k], ..., [1], each from its last cell to its first: the
    order in which [RBP.ComputeFlowAcc] visits the cells with a receiver. *)
Fixpoint down_all (st : FastScape) (k : nat) : list Z :=
  match k with
  | O => []
  | S k' => rev (lvl_all st (S k')) ++ down_all st k'
  end.

Lemma rev_upto_all st K :
  rev (upto_all st (S K)) = down_all st K ++ rev (lvl_all st 0).
Proof.
  induction K as [|K IH].
  - cbn [upto_all down_all app]. reflexivity.
  - change (upto_all st (S (S K)))
      with (upto_all st (S K) ++ lvl_all st (S K)).
    rewrite rev_app_distr, IH. cbn [down_all]. now rewrite app_assoc.
Qed.

Lemma acc_push_sinks l s :
  (forall c, In c l -> rec s c = NO_FLOW) ->
  fold_left (fun s c => acc_push c s) l s = s.
Proof.
  induction l as [|c l IH]; intros Hl; [reflexivity|].
  cbn [fold_left].
  assert (Hc : acc_push c s = s).
  { unfold acc_push. rewrite (Hl c) by now left. reflexivity. }
  rewrite Hc. apply IH. intros c' Hc'. apply Hl. now right.
Qed.

Section SerialAccumulation.

Variables g gP : FastScape.
Hypothesis Hg : flow_graph g.
Hypothesis Hser : serial_of g gP.

Lemma In_down_all k c :
  In c (down_all gP k) <-> exists j, (1 <= j <= k)%nat /\ In c (lvl_all gP j).
Proof.
  induction k as [|k IH].
  - simpl. split; [intros [] | intros (j & Hj & _); lia].
  - cbn [down_all]. rewrite in_app_iff, <- in_rev, IH. split.
    + intros [Hc | (j & Hj & Hc)]; [exists (S k) | exists j]; split; auto; lia.
    + intros (j & Hj & Hc).
      destruct (Nat.eq_dec j (S k)) as [->|Hne]; [now left|].
      right. exists j. split; [lia | exact Hc].
Qed.

Lemma NoDup_down_all k : NoDup (down_all gP k).
Proof.
  induction k as [|k IH]; cbn [down_all]; [constructor|].
  apply NoDup_app; [apply NoDup_rev, (NoDup_lvl_all g gP Hser) | exact IH |].
  intros c Hc Hc'. apply in_rev in Hc. apply In_down_all in Hc'.
  destruct Hc' as (j & Hj & Hc').
  assert (S k = j) by (apply (lvl_all_unique g gP Hser (S k) j c); auto).
  lia.
Qed.

Lemma acc_down_all_inv st0 k :
  rec st0 = rec g -> nshift st0 = nshift g ->
  forall P s,
    acc_inv g st0 P s ->
    NoDup (P ++ down_all gP k) ->
    (forall d, In d P -> In d (grid g)) ->
    (forall j d, (k < j)%nat -> In d (lvl_all gP j) -> In d P) ->
    acc_inv g st0 (P ++ down_all gP k)
      (fold_left (fun s c => acc_push c s) (down_all gP k) s).
Proof.
  intros Hrec Hns. induction k as [|k IH]; intros P s Hinv Hnd Hsub Hup.
  - cbn [down_all fold_left]. now rewrite app_nil_r.
  - cbn [down_all] in *. rewrite fold_left_app.
    rewrite app_assoc in *.
    apply IH.
    + apply acc_fold_inv; auto.
      * apply (NoDup_app_remove_r _ _ Hnd).
      * intros c Hc. apply in_rev in Hc.
        apply (lvl_all_S g gP Hser) in Hc. tauto.
      * intros c d Hc Hd. apply in_rev in Hc. apply (Hup (S (S k))); [lia|].
        apply In_donors_of in Hd. destruct Hd as (Hdg & Hdr & Hdx).
        apply (lvl_all_S g gP Hser). repeat split; auto. now rewrite Hdx.
    + exact Hnd.
    + intros d Hd. apply in_app_or in Hd. destruct Hd as [Hd | Hd]; auto.
      apply in_rev in Hd. now apply (lvl_all_grid g gP Hser (S k)).
    + intros j d Hj Hd. apply in_or_app.
      destruct (Nat.eq_dec j (S k)) as [->|Hne];
        [right; now apply in_rev in Hd|].
      left. apply (Hup j); [lia | exact Hd].
Qed.

(** When the serial traversal has stopped, the stack is full. *)
Lemma serial_stack_full st ns m :
  order_post_all gP st ns m -> ns = Z.of_nat (length (grid g)).
Proof.
  intros Hp.
  assert (Hlm : lvl_all gP m = []) by apply Hp.
  assert (Hns : ns = pre_all gP m) by apply Hp.
  rewrite Hns, <- upto_all_length. f_equal. apply Permutation_length.
  apply NoDup_Permutation.
  - apply (NoDup_upto_all g gP Hser).
  - apply NoDup_grid.
  - intros c. now apply (In_upto_all_grid g gP Hg Hser).
Qed.

Lemma RBP_ComputeFlowAcc_spec st ns m :
  size g = width g * height g -> 0 <= size g ->
  order_post_all gP st ns m ->
  exists a,
    RBP.ComputeFlowAcc st = set_accum st a
    /\ forall x, In x (grid g) ->
         (a x == cell_area * qn (length (upstream g x)))%Q.
Proof.
  intros Hsize Hsize0 Hp.
  assert (Hfull := serial_stack_full st ns m Hp).
  assert (Hstack := order_post_all_stack gP st ns m Hp).
  assert (Hsg : same_graph gP st) by apply Hp.
  destruct Hsg as (_ & _ & Hsz & _ & _ & Hrec & _ & _ & Hns).
  assert (Hm : lvl_all gP m = []) by apply Hp.
  assert (Hser' := Hser).
  destruct Hser' as (_ & _ & HszP & _ & HrecP & HnsP & Hzr & _).
  assert (Hsz' : size st = size g) by congruence.
  assert (Hrec' : rec st = rec g) by congruence.
  assert (Hns' : nshift st = nshift g) by congruence.
  assert (Hns0 : ns = size st /\ 0 <= size st).
  { rewrite Hfull, Hsz', <- Hzr, zrange_length. lia. }
  destruct Hns0 as [Hnsz Hs0].
  unfold RBP.ComputeFlowAcc. cbv zeta.
  destruct (fill_accum st (size st)) as (a0 & Ha0 & Hfill). rewrite Ha0.
  fs_simpl.
  rewrite (accum_cells_fold st) by reflexivity.
  rewrite map_rev. fold (stack_slice st 0 (size st)).
  rewrite <- Hnsz, Hstack.
  assert (Hinv0 : acc_inv g st [] (set_accum st a0)).
  { split; [now exists a0|]. intros x Hx. fs_simpl.
    rewrite Hfill.
    - unfold acc_sum. cbn [filter map]. change (list_sum []) with O.
      unfold qn. change (inject_Z (Z.of_nat 1)) with 1%Q. ring.
    - rewrite Hsz'. now apply grid_index. }
  set (K := Nat.pred m).
  assert (Hlist : rev (upto_all gP m)
                  = down_all gP K ++ rev (lvl_all gP 0)).
  { destruct m as [|m'].
    - cbn [lvl_all] in Hm. cbn [upto_all rev down_all K Nat.pred app].
      cbn [lvl_all]. now rewrite Hm.
    - apply rev_upto_all. }
  rewrite Hlist, fold_left_app.
  assert (Hfin := acc_down_all_inv st K Hrec' Hns' [] (set_accum st a0) Hinv0).
  cbn [app] in Hfin.
  assert (Hbeyond : forall j d, (K < j)%nat -> In d (lvl_all gP j) -> False).
  { intros j d Hj Hd. rewrite (lvl_all_nil_ge gP m j Hm) in Hd by lia.
    destruct Hd. }
  destruct Hfin as [(a & Ha) Hval].
  - apply NoDup_down_all.
  - intros d [].
  - intros j d Hj Hd. exfalso. now apply (Hbeyond j d).
  - rewrite Ha. rewrite acc_push_sinks.
    + exists a. split; [reflexivity|].
      intros x Hx. rewrite Ha in Hval. fs_simpl in Hval.
      rewrite (Hval x Hx).
      rewrite (acc_sum_final g (down_all gP K) x Hg Hx); [reflexivity| | |].
      * apply NoDup_down_all.
      * intros d Hd. apply In_down_all in Hd. destruct Hd as (j & _ & Hd).
        now apply (lvl_all_grid g gP Hser j).
      * intros d Hd. apply In_donors_of in Hd.
        destruct Hd as (Hdg & Hdr & Hdx).
        destruct (grid_in_lvl_all g gP Hg Hser d Hdg) as (k & _ & Hk).
        apply In_down_all. exists k. split; [|exact Hk].
        destruct k as [|k];
          [apply (lvl_all_0 g gP Hser) in Hk; tauto|].
        destruct (Nat.lt_ge_cases K (S k)) as [Hlt | Hge]; [|lia].
        exfalso. now apply (Hbeyond (S k) d).
    + intros c Hc. apply in_rev in Hc.
      apply (lvl_all_0 g gP Hser) in Hc. fs_simpl. rewrite Hrec'. tauto.
Qed.

End SerialAccumulation.



(** ** The accumulated areas are whole numbers *)

(** The accumulation stages only add values that start at [cell_area], so
    the rationals they compute keep the denominator 1; two such values that
    are equal as rationals are the same value. *)
Lemma Qeq_den1 (x y : Q) :
  Qden x = 1%positive -> Qden y = 1%positive -> (x == y)%Q -> x = y.
Proof.
  destruct x as [xn xd], y as [yn yd]. cbn [Qden].
  intros -> ->. unfold Qeq. cbn [Qnum Qden]. intros He.
  f_equal. lia.
Qed.

Lemma acc_fold_den (G l : list Z) s :
  (forall c, In c l -> In c G) ->
  (forall x, In x G -> Qden (accum s x) = 1%positive) ->
  forall x, In x G ->
    Qden (accum (fold_left (fun s c => acc_push c s) l s) x) = 1%positive.
Proof.
  revert s. induction l as [|c l IH]; intros s Hl Hden; [exact Hden|].
  cbn [fold_left]. apply IH.
  - intros c' Hc'. apply Hl. now right.
  - intros x Hx. unfold acc_push. cbv zeta.
    destruct (negb (rec s c =? NO_FLOW)); [|now apply Hden].
    fs_simpl.
    destruct (Z.eq_dec x (c + nshift s (rec s c))) as [->|Hne].
    + rewrite upd_same. unfold Qplus. cbn [Qden].
      rewrite (Hden _ Hx), (Hden c) by (apply Hl; now left). reflexivity.
    + rewrite upd_other by exact Hne. now apply Hden.
Qed.

Lemma ComputeFlowAcc_den g st ns m :
  flow_graph g -> size g = width g * height g ->
  order_post g st ns m ->
  forall x, In x (grid g) -> Qden (accum (ComputeFlowAcc st) x) = 1%positive.
Proof.
  intros Hg Hsize Hp.
  assert (Hsg : same_graph g st) by apply Hp.
  destruct Hsg as (_ & _ & Hsz & _).
  assert (Hnl : nlevel st = Z.of_nat m + 2) by apply Hp.
  unfold ComputeFlowAcc. cbv zeta.
  destruct (fill_accum st (size st)) as (a0 & Ha0 & Hfill). rewrite Ha0.
  fs_simpl. rewrite Hnl.
  replace (Z.of_nat m + 2 - 1) with (Z.of_nat m + 1) by lia.
  rewrite (accum_levels_fold g st ns m Hp m (Nat.le_refl m))
    by (now exists a0).
  apply acc_fold_den.
  - intros c Hc. apply In_down in Hc. destruct Hc as (j & _ & Hc).
    apply frame_grid. now apply (lvl_frame g j).
  - intros x Hx. fs_simpl. rewrite Hfill; [reflexivity|].
    rewrite Hsz. now apply grid_index.
Qed.

Lemma RBP_ComputeFlowAcc_den g gP st ns m :
  flow_graph g -> serial_of g gP ->
  size g = width g * height g -> 0 <= size g ->
  order_post_all gP st ns m ->
  forall x, In x (grid g) ->
    Qden (accum (RBP.ComputeFlowAcc st) x) = 1%positive.
Proof.
  intros Hg Hser Hsize Hsize0 Hp.
  assert (Hfull := serial_stack_full g gP Hg Hser st ns m Hp).
  assert (Hstack := order_post_all_stack gP st ns m Hp).
  assert (Hsg : same_graph gP st) by apply Hp.
  destruct Hsg as (_ & _ & Hsz & _).
  assert (Hlm : lvl_all gP m = []) by apply Hp.
  assert (Hser' := Hser).
  destruct Hser' as (_ & _ & HszP & _ & _ & _ & Hzr & _).
  assert (Hsz' : size st = size g) by congruence.
  assert (Hnsz : ns = size st).
  { rewrite Hfull, Hsz', <- Hzr, zrange_length. lia. }
  unfold RBP.ComputeFlowAcc. cbv zeta.
  destruct (fill_accum st (size st)) as (a0 & Ha0 & Hfill). rewrite Ha0.
  fs_simpl.
  rewrite (accum_cells_fold st) by reflexivity.
  rewrite map_rev. fold (stack_slice st 0 (size st)).
  rewrite <- Hnsz, Hstack.
  apply acc_fold_den.
  - intros c Hc. apply in_rev in Hc.
    now apply (In_upto_all_grid g gP Hg Hser m c Hlm).
  - intros x Hx. fs_simpl. rewrite Hfill; [reflexivity|].
    rewrite Hsz'. now apply grid_index.
Qed.

(** ** What erosion computes, whatever the order within the levels *)

Lemma newton_mono fuel fuel' fact h0 hn hnew hp diff r :
  newton fuel fact h0 hn hnew hp diff = Some r -> (fuel <= fuel')%nat ->
  newton fuel' fact h0 hn hnew hp diff = Some r.
Proof.
  revert fuel' hnew hp diff.
  induction fuel as [|fuel IH]; intros fuel' hnew hp diff Hn Hle.
  - cbn [newton] in Hn. destruct (Qgtb (Qabs diff) tol) eqn:Hc;
      [discriminate|].
    destruct fuel'; cbn [newton]; now rewrite Hc.
  - cbn [newton] in Hn. destruct (Qgtb (Qabs diff) tol) eqn:Hc.
    + destruct fuel' as [|fuel']; [lia|]. cbn [newton]. rewrite Hc.
      apply IH; [exact Hn | lia].
    + destruct fuel'; cbn [newton]; now rewrite Hc.
Qed.

Lemma newton_fuel_indep f1 f2 fact h0 hn hnew hp diff r1 r2 :
  newton f1 fact h0 hn hnew hp diff = Some r1 ->
  newton f2 fact h0 hn hnew hp diff = Some r2 -> r1 = r2.
Proof.
  intros H1 H2.
  apply (newton_mono f1 (Nat.max f1 f2)) in H1; [|lia].
  apply (newton_mono f2 (Nat.max f1 f2)) in H2; [|lia].
  congruence.
Qed.

Section ErodeOrder.

Variable pow_meq : Q -> Q.
Variable e : FastScape.
Variable ns : Z.
Hypothesis Hready : erode_ready e ns.
Hypothesis Hord : forall i j, 0 <= i < ns -> 0 <= j < ns ->
  rec e (stack e i) <> NO_FLOW -> stack e j = recv e (stack e i) -> j < i.

(** The value that [Erode] stores for [c]: the result of the Newton-Raphson
    loop started at the elevation of [c] before erosion, against the
    elevation of its receiver after erosion. *)
Definition eroded_at (fuel : nat) (s : FastScape) (c : Z) : Prop :=
  newton fuel
    (keq * dt * pow_meq (accum e c) / pow_neq (dr (rec e c)))%Q
    (h e c) (h s (recv e c)) (h e c) (h e c) (2 * tol)%Q
  = Some (h s c).

Definition erode_done (fuel : nat) (i : Z) (s : FastScape) : Prop :=
  erode_inv e i s
  /\ forall j, 0 <= j < i -> rec e (stack e j) <> NO_FLOW ->
               eroded_at fuel s (stack e j).

Lemma erode_cell_done fuel i s s' :
  0 <= i < ns -> erode_done fuel i s ->
  erode_cell pow_meq fuel i s = Some s' -> erode_done fuel (i + 1) s'.
Proof.
  intros Hi [Hinv Hdone] Hcell.
  split; [now apply (erode_cell_inv pow_meq e ns fuel i s s')|].
  destruct Hinv as [(hh & Hs) Hsame]. subst s.
  revert Hcell. unfold erode_cell. cbv zeta. fs_simpl.
  assert (Hc0 : hh (stack e i) = h e (stack e i)).
  { apply (Hsame (stack e i)). intros j Hj Hst.
    assert (j = i) by (apply (er_stack_inj e ns Hready); auto; lia). lia. }
  destruct (rec e (stack e i) =? NO_FLOW) eqn:Hr.
  - intros Heq. inversion Heq; subst. intros j Hj Hrj.
    destruct (Z.eq_dec j i) as [-> | Hne].
    + apply Z.eqb_eq in Hr. contradiction.
    + apply Hdone; [lia | exact Hrj].
  - apply Z.eqb_neq in Hr. fold (recv e (stack e i)).
    destruct (newton _ _ _ _ _ _ _) as [hnew|] eqn:Hn; [|discriminate].
    intros Heq. inversion Heq; subst. clear Heq.
    intros j Hj Hrj. unfold eroded_at. fs_simpl.
    assert (Hrv : recv e (stack e j) <> stack e i).
    { intros Heq. symmetry in Heq.
      assert (Hlt := Hord j i ltac:(lia) Hi Hrj Heq). 
      destruct (Z.eq_dec j i) as [-> | Hne]; lia. }
    rewrite (upd_other hh (stack e i) (recv e (stack e j)) hnew)
      by exact Hrv.
    destruct (Z.eq_dec j i) as [-> | Hne].
    + rewrite upd_same. rewrite <- Hc0. exact Hn.
    + assert (Hcj : stack e j <> stack e i).
      { intros Heq. apply Hne. apply (er_stack_inj e ns Hready); auto; lia. }
      rewrite upd_other by exact Hcj.
      apply (Hdone j ltac:(lia) Hrj).
Qed.

Lemma erode_loop_done fuel s' :
  0 <= ns ->
  for_loopM 0 ns (erode_cell pow_meq fuel) e = Some s' ->
  (forall c, rec e c = NO_FLOW -> h s' c = h e c)
  /\ (forall c, (forall j, 0 <= j < ns -> stack e j <> c) -> h s' c = h e c)
  /\ forall j, 0 <= j < ns -> rec e (stack e j) <> NO_FLOW ->
               eroded_at fuel s' (stack e j).
Proof.
  intros Hns Hl.
  assert (Hinv : erode_done fuel ns s').
  { apply (for_loopM_ind 0 ns (erode_cell pow_meq fuel) (erode_done fuel)
             e s'); auto.
    - split; [apply erode_inv_start|]. intros j Hj. lia.
    - intros i s1 s2 Hi. now apply erode_cell_done. }
  destruct Hinv as [[_ Hsame] Hdone]. split; [|split].
  - intros c Hc. apply Hsame. intros j _ _. exact Hc.
  - intros c Hc. apply Hsame. intros j Hj Hst. exfalso.
    now apply (Hc j Hj).
  - exact Hdone.
Qed.

End ErodeOrder.

(** Two erosions of the same uplifted terrain with the same receivers and
    accumulated areas leave the same elevations. *)
Lemma eroded_unique pow_meq g e1 e2 s1 s2 f1 f2 :
  flow_graph g ->
  rec e1 = rec g -> nshift e1 = nshift g ->
  rec e2 = rec g -> nshift e2 = nshift g ->
  (forall c, h e1 c = h e2 c) ->
  (forall c, In c (grid g) -> accum e1 c = accum e2 c) ->
  (forall c, In c (grid g) -> rec g c <> NO_FLOW ->
     eroded_at pow_meq e1 f1 s1 c /\ eroded_at pow_meq e2 f2 s2 c) ->
  (forall c, ~ In c (grid g) \/ rec g c = NO_FLOW ->
     h s1 c = h e1 c /\ h s2 c = h e2 c) ->
  forall c, h s1 c = h s2 c.
Proof.
  intros Hg Hr1 Hn1 Hr2 Hn2 Hh Hacc Hfix Hkeep.
  assert (Hgen : forall n c, (rank g c < n)%nat -> In c (grid g) ->
                             h s1 c = h s2 c).
  { induction n as [|n IH]; intros c Hrk Hc; [lia|].
    destruct (Z.eq_dec (rec g c) NO_FLOW) as [He | Hne].
    - destruct (Hkeep c (or_intror He)) as [-> ->]. apply Hh.
    - assert (Hlt := rank_recv g c Hg Hc Hne).
      assert (Hrg : In (recv g c) (grid g))
        by now apply frame_grid, recv_frame.
      assert (IHr := IH (recv g c) ltac:(lia) Hrg).
      destruct (Hfix c Hc Hne) as [H1 H2].
      unfold eroded_at in H1, H2.
      assert (Hrv1 : recv e1 c = recv g c)
        by (unfold recv; now rewrite Hr1, Hn1).
      assert (Hrv2 : recv e2 c = recv g c)
        by (unfold recv; now rewrite Hr2, Hn2).
      rewrite Hrv1 in H1. rewrite Hrv2 in H2.
      rewrite Hr1, (Hacc c Hc), (Hh c), IHr in H1. rewrite Hr2 in H2.
      apply (newton_fuel_indep _ _ _ _ _ _ _ _ _ _ H1 H2). }
  intros c. destruct (In_dec_Z c (grid g)) as [Hc | Hnc].
  - apply (Hgen (S (rank g c))); [lia | exact Hc].
  - destruct (Hkeep c (or_introl Hnc)) as [-> ->]. apply Hh.
Qed.

(** *** The two erosion stages on their own orderings *)

Lemma Erode_skip_level_0 pow_meq fuel st :
  2 <= nlevel st ->
  (forall i, levels st 0 <= i < levels st 1 ->
             rec st (stack st i) = NO_FLOW) ->
  RBP.Erode pow_meq fuel st = Erode pow_meq fuel st.
Proof.
  intros Hnl Hsink. unfold Erode, RBP.Erode.
  rewrite (for_loopM_app 0 1 (nlevel st - 1)) by lia.
  assert (H01 : for_loopM 0 1 (erode_level pow_meq fuel) st = Some st).
  { rewrite (for_loopM_snoc 0 0) by lia.
    rewrite for_loopM_empty by lia. now apply erode_level_sinks. }
  rewrite H01. reflexivity.
Qed.

Lemma Erode_flat_all pow_meq st0 st m fuel :
  nlevel st = Z.of_nat m + 2 ->
  (forall i, (i <= S m)%nat -> levels st (Z.of_nat i) = pre_all st0 i) ->
  Erode pow_meq fuel st
  = for_loopM 0 (pre_all st0 (S m)) (erode_cell pow_meq fuel) st.
Proof.
  intros Hnl Hlv. unfold Erode. rewrite Hnl.
  replace (Z.of_nat m + 2 - 1) with (Z.of_nat (S m)) by lia.
  assert (Hgen : forall K, (K <= S m)%nat ->
     for_loopM 0 (Z.of_nat K) (erode_level pow_meq fuel) st
     = for_loopM 0 (pre_all st0 K) (erode_cell pow_meq fuel) st).
  { induction K as [|K IH]; intros HK.
    - cbn [pre_all]. change (Z.of_nat 0) with 0.
      now rewrite !for_loopM_empty by lia.
    - replace (Z.of_nat (S K)) with (Z.of_nat K + 1) by lia.
      rewrite for_loopM_snoc by lia. rewrite IH by lia.
      rewrite (for_loopM_app 0 (pre_all st0 K) (pre_all st0 (S K)))
        by (split; [apply pre_all_nonneg | apply pre_all_mono; lia]).
      destruct (for_loopM 0 (pre_all st0 K) (erode_cell pow_meq fuel) st)
        as [s1|] eqn:Hs1; [|reflexivity].
      destruct (erode_cells_h_only pow_meq fuel _ _ _ _ Hs1) as (hh & ->).
      unfold erode_level. cbv zeta. fs_simpl.
      rewrite (Hlv K) by lia.
      replace (Z.of_nat K + 1) with (Z.of_nat (S K)) by lia.
      rewrite (Hlv (S K)) by lia. reflexivity. }
  apply Hgen. lia.
Qed.

(** What the erosion loop of [FastScape_RBGPU] leaves, cell by cell. *)
Lemma Erode_cells g st ns m a hh pow_meq fuel s' :
  flow_graph g -> order_post g st ns m ->
  for_loopM 0 ns (erode_cell pow_meq fuel) (set_h (set_accum st a) hh)
  = Some s' ->
  (forall c, In c (grid g) -> rec g c <> NO_FLOW ->
     eroded_at pow_meq (set_h (set_accum st a) hh) fuel s' c)
  /\ (forall c, ~ In c (grid g) \/ rec g c = NO_FLOW -> h s' c = hh c).
Proof.
  intros Hg Hp Hl.
  assert (Hready := erode_ready_intro g st ns m a hh Hg Hp).
  assert (Hstack := order_post_stack g st ns m Hp).
  assert (Hp' := Hp).
  destruct Hp' as (Hsg & Hlm & Hfirst & Hnl & Hlv & Hns & Hsl).
  destruct Hsg as (Hw & Hh & _ & _ & _ & Hrec & _ & _ & Hnsh).
  set (e := set_h (set_accum st a) hh) in *.
  assert (He : rec e = rec g /\ nshift e = nshift g /\ stack e = stack st
               /\ h e = hh /\ width e = width g /\ height e = height g).
  { unfold e. fs_simpl. auto 10. }
  destruct He as (Hre & Hne & Hse & Hhe & Hwe & Hhe'). clearbody e.
  destruct (same_dims_lists g e Hwe Hhe') as (Hgr & _).
  assert (Hrv : forall c, recv e c = recv g c).
  { intros c. unfold recv. now rewrite Hre, Hne. }
  assert (Hns0 : 0 <= ns) by (rewrite Hns; apply pre_nonneg).
  assert (Hlevel : forall i, 0 <= i < ns ->
            exists k, (k < m)%nat /\ pre g k <= i < pre g (S k)
                      /\ In (stack e i) (lvl g k)).
  { intros i Hi. rewrite Hns in Hi.
    destruct (find_level g m i Hi) as (k & Hk & Hik).
    exists k. split; [exact Hk|]. split; [exact Hik|].
    rewrite Hse, <- (Hsl k) by lia. apply In_stack_slice. exists i. auto. }
  assert (Hord : forall i j, 0 <= i < ns -> 0 <= j < ns ->
            rec e (stack e i) <> NO_FLOW ->
            stack e j = recv e (stack e i) -> j < i).
  { intros i j Hi Hj Hr Hst.
    destruct (Hlevel i Hi) as (k & Hk & Hik & Hci).
    destruct (Hlevel j Hj) as (k' & Hk' & Hjk & Hcj).
    rewrite Hre in Hr. rewrite Hrv in Hst.
    destruct k as [|k]; [apply lvl_0 in Hci; tauto|].
    apply (lvl_S g k _ Hg) in Hci. destruct Hci as (_ & _ & Hprev).
    rewrite <- Hst in Hprev.
    assert (k' = k) by (apply (lvl_unique g k' k (stack e j)); auto).
    subst k'. lia. }
  destruct (erode_loop_done pow_meq e ns Hready Hord fuel s' Hns0 Hl)
    as (Hsink & Hout & Hdone).
  rewrite Hhe in Hsink, Hout. split.
  - intros c Hc Hr.
    destruct (fg_rec g Hg c Hc Hr) as (Hi & _ & _).
    assert (Hin : In c (stack_slice st 0 ns)).
    { rewrite Hstack. apply (In_upto_frame g m c Hg Hlm).
      now apply interior_frame. }
    apply In_stack_slice in Hin. destruct Hin as (j & Hj & Hsj).
    rewrite <- Hse in Hsj. rewrite <- Hsj. apply Hdone; [exact Hj|].
    rewrite Hsj, Hre. exact Hr.
  - intros c [Hnc | Hr].
    + apply Hout. intros j Hj Hsj. apply Hnc.
      assert (Hin := er_stack_grid e ns Hready j Hj).
      rewrite Hsj in Hin. now rewrite <- Hgr.
    + apply Hsink. now rewrite Hre.
Qed.

Lemma serial_erode_ready g gP st ns m a hh :
  flow_graph g -> serial_of g gP -> order_post_all gP st ns m ->
  erode_ready (set_h (set_accum st a) hh) ns.
Proof.
  intros Hg Hser Hp.
  assert (Hsg : same_graph gP st) by apply Hp.
  destruct Hsg as (Hw & Hh & _ & _ & _ & Hrec & _ & _ & Hns).
  assert (Hser' := Hser).
  destruct Hser' as (HwP & HhP & _ & _ & HrecP & HnsP & _).
  set (e := set_h (set_accum st a) hh).
  assert (Hwe : width e = width g) by (unfold e; fs_simpl; congruence).
  assert (Hhe : height e = height g) by (unfold e; fs_simpl; congruence).
  destruct (same_dims_lists g e Hwe Hhe) as (Hgrid & Hframe & Hint).
  assert (Hstack := order_post_all_stack gP st ns m Hp).
  assert (Hm : lvl_all gP m = []) by apply Hp.
  constructor.
  - intros i Hi. rewrite Hgrid. change (stack e i) with (stack st i).
    assert (Hin : In (stack st i) (stack_slice st 0 ns))
      by (apply In_stack_slice; exists i; auto).
    rewrite Hstack in Hin.
    now apply (In_upto_all_grid g gP Hg Hser m _ Hm).
  - intros i j Hi Hj Heq. change (stack e) with (stack st) in Heq.
    apply (NoDup_map_inj (stack st) (zrange 0 ns)); auto.
    + change (map (stack st) (zrange 0 ns)) with (stack_slice st 0 ns).
      rewrite Hstack. apply (NoDup_upto_all g gP Hser).
    + now apply In_zrange.
    + now apply In_zrange.
  - intros c Hc Hr. rewrite Hgrid in *. rewrite Hint.
    change (rec e) with (rec st) in *. unfold recv.
    change (nshift e) with (nshift st). change (rec e) with (rec st).
    rewrite Hrec, Hns, HrecP, HnsP in *.
    destruct (fg_rec g Hg c Hc Hr) as (Hi & Hd & _).
    repeat split; auto; try lia.
    apply frame_grid. now apply recv_frame.
Qed.

(** What the erosion stage of [FastScape_RBP] leaves, cell by cell. *)
Lemma RBP_Erode_cells g gP st ns m a hh pow_meq fuel s' :
  flow_graph g -> serial_of g gP -> order_post_all gP st ns m ->
  RBP.Erode pow_meq fuel (set_h (set_accum st a) hh) = Some s' ->
  (forall c, In c (grid g) -> rec g c <> NO_FLOW ->
     eroded_at pow_meq (set_h (set_accum st a) hh) fuel s' c)
  /\ (forall c, ~ In c (grid g) \/ rec g c = NO_FLOW -> h s' c = hh c).
Proof.
  intros Hg Hser Hp Hl.
  assert (Hready := serial_erode_ready g gP st ns m a hh Hg Hser Hp).
  assert (Hstack := order_post_all_stack gP st ns m Hp).
  assert (Hp' := Hp).
  destruct Hp' as (Hsg & Hlm & Hfirst & Hnl & Hlv & Hns & Hsl).
  destruct Hsg as (Hw & Hh & _ & _ & _ & Hrec & _ & _ & Hnsh).
  assert (Hser' := Hser).
  destruct Hser' as (HwP & HhP & _ & _ & HrecP & HnsP & _).
  assert (Hlevel0 : forall i, pre_all gP 0 <= i < pre_all gP 1 ->
                              rec st (stack st i) = NO_FLOW).
  { intros i Hi.
    assert (Hin : In (stack st i) (lvl_all gP 0)).
    { rewrite <- (Hsl O) by lia. apply In_stack_slice. exists i. auto. }
    apply (lvl_all_0 g gP Hser) in Hin. rewrite Hrec, HrecP. tauto. }
  assert (Hnsm : ns = pre_all gP (S m)).
  { rewrite Hns. cbn [pre_all]. rewrite Hlm. cbn [length]. lia. }
  rewrite Erode_skip_level_0 in Hl.
  2:{ fs_simpl. rewrite Hnl. lia. }
  2:{ fs_simpl. intros i Hi. apply Hlevel0.
      assert (H0 := Hlv O ltac:(lia)). assert (H1 := Hlv 1%nat ltac:(lia)).
      change (Z.of_nat 0) with 0 in H0. change (Z.of_nat 1) with 1 in H1.
      now rewrite <- H0, <- H1. }
  rewrite (Erode_flat_all pow_meq gP (set_h (set_accum st a) hh) m fuel
             Hnl Hlv) in Hl.
  rewrite <- Hnsm in Hl.
  set (e := set_h (set_accum st a) hh) in *.
  assert (He : rec e = rec g /\ nshift e = nshift g /\ stack e = stack st
               /\ h e = hh /\ width e = width g /\ height e = height g).
  { unfold e. fs_simpl. repeat split; congruence. }
  destruct He as (Hre & Hne & Hse & Hhe & Hwe & Hhe'). clearbody e.
  destruct (same_dims_lists g e Hwe Hhe') as (Hgr & _).
  assert (Hrv : forall c, recv e c = recv g c).
  { intros c. unfold recv. now rewrite Hre, Hne. }
  assert (Hns0 : 0 <= ns) by (rewrite Hns; apply pre_all_nonneg).
  assert (Hlevel : forall i, 0 <= i < ns ->
            exists k, (k < m)%nat /\ pre_all gP k <= i < pre_all gP (S k)
                      /\ In (stack e i) (lvl_all gP k)).
  { intros i Hi. rewrite Hns in Hi.
    destruct (find_level_all gP m i Hi) as (k & Hk & Hik).
    exists k. split; [exact Hk|]. split; [exact Hik|].
    rewrite Hse, <- (Hsl k) by lia. apply In_stack_slice. exists i. auto. }
  assert (Hord : forall i j, 0 <= i < ns -> 0 <= j < ns ->
            rec e (stack e i) <> NO_FLOW ->
            stack e j = recv e (stack e i) -> j < i).
  { intros i j Hi Hj Hr Hst.
    destruct (Hlevel i Hi) as (k & Hk & Hik & Hci).
    destruct (Hlevel j Hj) as (k' & Hk' & Hjk & Hcj).
    rewrite Hre in Hr. rewrite Hrv in Hst.
    destruct k as [|k]; [apply (lvl_all_0 g gP Hser) in Hci; tauto|].
    apply (lvl_all_S g gP Hser) in Hci. destruct Hci as (_ & _ & Hprev).
    rewrite <- Hst in Hprev.
    assert (k' = k)
      by (apply (lvl_all_unique g gP Hser k' k (stack e j)); auto).
    subst k'. lia. }
  destruct (erode_loop_done pow_meq e ns Hready Hord fuel s' Hns0 Hl)
    as (Hsink & Hout & Hdone).
  rewrite Hhe in Hsink, Hout. split.
  - intros c Hc Hr.
    assert (Hin : In c (stack_slice st 0 ns)).
    { rewrite Hstack. now apply (In_upto_all_grid g gP Hg Hser m c Hlm). }
    apply In_stack_slice in Hin. destruct Hin as (j & Hj & Hsj).
    rewrite <- Hse in Hsj. rewrite <- Hsj. apply Hdone; [exact Hj|].
    rewrite Hsj, Hre. exact Hr.
  - intros c [Hnc | Hr].
    + apply Hout. intros j Hj Hsj. apply Hnc.
      assert (Hin := er_stack_grid e ns Hready j Hj).
      rewrite Hsj in Hin. now rewrite <- Hgr.
    + apply Hsink. now rewrite Hre.
Qed.

(** One step of each pipeline, from two states with the same terrain. *)
Lemma serial_step_same pow_meq st1 st2 fuel fuelP sG sP :
  shape_inv st1 -> same_terrain st1 st2 ->
  0 < width st1 -> 0 < height st1 ->
  step pow_meq fuel st1 = Some sG ->
  RBP.step pow_meq fuelP st2 = Some sP ->
  same_terrain sG sP.
Proof.
  intros Hs Hsame HW HH Hstep HstepP.
  destruct (step_anatomy pow_meq fuel st1 sG Hs Hstep)
    as (g & o & m & a & hh & Hgeq & Hg & Hsg & Hhg & Ho & Hm & Hp & Ha & Hav
        & Hu & Hup & Hkeep & Herode).
  assert (Hser := serial_of_same st1 st2 Hs Hsame HW HH).
  rewrite <- Hgeq in Hser.
  unfold RBP.step in HstepP. cbv zeta in HstepP.
  assert (Hdimg : width g = width st1 /\ height g = height st1).
  { rewrite Hgeq. destruct (ComputeReceivers_spec st1) as (r & Hr & _).
    destruct (ComputeDonors_spec (ComputeReceivers st1)) as (d & nd & Hd & _).
    rewrite Hd, Hr. split; reflexivity. }
  destruct Hdimg as [Hwg Hhg'].
  assert (Hsize0 : 0 <= size g).
  { rewrite (si_size g Hsg), Hwg, Hhg'. nia. }
  set (gP := RBP.ComputeDonors (ComputeReceivers st2)) in *.
  clearbody gP. clear Hgeq.
  destruct (RBP.GenerateOrder fuelP gP) as [s3P|] eqn:H3P; [|discriminate].
  destruct (RBP_GenerateOrder_post g gP fuelP s3P Hg Hser H3P)
    as (mP & _ & HpP).
  destruct (RBP_ComputeFlowAcc_spec g gP Hg Hser s3P _ mP (si_size g Hsg)
              Hsize0 HpP) as (aP & HaP & HavP).
  assert (HdenP := RBP_ComputeFlowAcc_den g gP s3P _ mP Hg Hser
                     (si_size g Hsg) Hsize0 HpP).
  assert (Hden := ComputeFlowAcc_den g (o_st o) (nstack o) m Hg
                    (si_size g Hsg) Hp).
  rewrite HaP in HstepP, HdenP. rewrite Ha in Hden.
  fs_simpl in Hden. fs_simpl in HdenP.
  destruct (AddUplift_spec (set_accum s3P aP)) as (hhP & HuP & HupP & HkeepP).
  rewrite HuP in HstepP.
  assert (HsgP : same_graph gP s3P) by apply HpP.
  destruct HsgP as (HwP & HhP & HszP & HhoP & _ & HrecP & _ & _ & HnshP).
  assert (Hser' := Hser).
  destruct Hser' as (Hw1 & Hh1 & Hsz1 & Hh2 & Hrec2 & Hnsh2 & _).
  assert (HwP' : width (set_accum s3P aP) = width g)
    by (fs_simpl; congruence).
  assert (HhP' : height (set_accum s3P aP) = height g)
    by (fs_simpl; congruence).
  destruct (same_dims_lists g (set_accum s3P aP) HwP' HhP') as (_ & _ & HintP).
  rewrite HintP in HupP, HkeepP.
  change (h (set_accum s3P aP)) with (h s3P) in HupP, HkeepP.
  rewrite HhoP in HupP, HkeepP.
  assert (Hsame' : same_graph g (o_st o)) by apply Hp.
  destruct Hsame' as (Hwo & Hho' & Hszo & _ & _ & Hrec & _ & _ & Hnsh).
  destruct (Erode_cells g (o_st o) (nstack o) m a hh pow_meq fuel sG Hg Hp
              Herode) as (HfixG & HkeepG).
  destruct (RBP_Erode_cells g gP s3P _ mP aP hhP pow_meq fuelP sP Hg Hser HpP
              HstepP) as (HfixP & HkeepP').
  assert (Hhh : forall c, hhP c = hh c).
  { intros c. destruct (In_dec_Z c (interior g)) as [Hi | Hni].
    - now rewrite (Hup c Hi), (HupP c Hi), Hh2.
    - now rewrite (Hkeep c Hni), (HkeepP c Hni), Hh2. }
  assert (Hacc : forall c, In c (grid g) -> aP c = a c).
  { intros c Hc. apply Qeq_den1; [now apply HdenP | now apply Hden|].
    now rewrite (Hav c Hc), (HavP c Hc). }
  assert (HfP : exists hf, sP = set_h (set_h (set_accum s3P aP) hhP) hf).
  { apply (erode_cells_h_only pow_meq fuelP 0 (levels s3P (nlevel s3P - 1))).
    assert (Hready := serial_erode_ready g gP s3P _ mP aP hhP Hg Hser HpP).
    destruct HpP as (_ & Hlm & _ & Hnl & Hlv & Hns & Hsl).
    rewrite Erode_skip_level_0 in HstepP.
    - rewrite (Erode_flat_all pow_meq gP (set_h (set_accum s3P aP) hhP)
                 mP fuelP Hnl Hlv) in HstepP.
      replace (levels s3P (nlevel s3P - 1)) with (pre_all gP (S mP));
        [exact HstepP|].
      rewrite Hns. cbn [pre_all]. rewrite Hlm. cbn [length]. lia.
    - fs_simpl. rewrite Hnl. lia.
    - fs_simpl. intros i Hi.
      assert (H0 := Hlv O ltac:(lia)). assert (H1 := Hlv 1%nat ltac:(lia)).
      change (Z.of_nat 0) with 0 in H0. change (Z.of_nat 1) with 1 in H1.
      rewrite H0, H1 in Hi.
      assert (Hin : In (stack s3P i) (lvl_all gP 0)).
      { rewrite <- (Hsl O) by lia. apply In_stack_slice. exists i. auto. }
      apply (lvl_all_0 g gP Hser) in Hin. rewrite HrecP, Hrec2. tauto. }
  assert (HfG : exists hf, sG = set_h (set_h (set_accum (o_st o) a) hh) hf).
  { apply (erode_cells_h_only pow_meq fuel 0 (nstack o)). exact Herode. }
  assert (Hh : forall c, h sP c = h sG c).
  { apply (eroded_unique pow_meq g (set_h (set_accum s3P aP) hhP)
             (set_h (set_accum (o_st o) a) hh) sP sG fuelP fuel Hg).
    - fs_simpl. congruence.
    - fs_simpl. congruence.
    - fs_simpl. exact Hrec.
    - fs_simpl. exact Hnsh.
    - intros c. fs_simpl. apply Hhh.
    - intros c Hc. fs_simpl. now apply Hacc.
    - intros c Hc Hr. split; [now apply HfixP | now apply HfixG].
    - intros c Hc. fs_simpl. split; [now apply HkeepP' | now apply HkeepG]. }
  destruct HfP as (hfP & ->). destruct HfG as (hfG & ->).
  unfold same_terrain. fs_simpl. fs_simpl in Hh.
  split; [congruence|]. split; [congruence|]. split; [congruence|].
  split; [congruence|]. split; [congruence|]. exact Hh.
Qed.



Lemma serial_erode_numeric g gP st ns m a hh B :
  flow_graph g -> serial_of g gP -> order_post_all gP st ns m ->
  (forall x, In x (grid g) ->
     (a x == cell_area * qn (length (upstream g x)))%Q) ->
  (forall c, In c (interior g) -> hh c = (h g c + ueq * dt)%Q) ->
  (forall c, ~ In c (interior g) -> hh c = h g c) ->
  (forall c, In c (grid g) -> (0 <= h g c <= B)%Q) ->
  erode_numeric (set_h (set_accum st a) hh) (B + ueq * dt).
Proof.
  intros Hg Hser Hp Ha Hup Hkeep HB.
  assert (Hsg : same_graph gP st) by apply Hp.
  destruct Hsg as (Hw & Hh & _ & _ & _ & Hrec & _ & _ & Hns).
  assert (Hser' := Hser).
  destruct Hser' as (HwP & HhP & _ & _ & HrecP & HnsP & _).
  set (e := set_h (set_accum st a) hh).
  assert (Hwe : width e = width g) by (unfold e; fs_simpl; congruence).
  assert (Hhe : height e = height g) by (unfold e; fs_simpl; congruence).
  destruct (same_dims_lists g e Hwe Hhe) as (Hgrid & Hframe & Hint).
  assert (Hpos := uplift_positive).
  assert (Hhh : forall c, (h g c <= hh c <= h g c + ueq * dt)%Q).
  { intros c. destruct (In_dec_Z c (interior g)) as [Hi | Hni].
    - rewrite (Hup c Hi). lra.
    - rewrite (Hkeep c Hni). lra. }
  constructor.
  - intros c Hc Hr. rewrite Hgrid in Hc.
    change (rec e) with (rec st) in Hr. unfold recv.
    change (nshift e) with (nshift st). change (rec e) with (rec st).
    change (h e) with hh.
    rewrite Hrec, Hns, HrecP, HnsP in *. fold (recv g c).
    destruct (fg_rec g Hg c Hc Hr) as (Hi & _ & Hlt).
    rewrite (Hup c Hi). destruct (Hhh (recv g c)). lra.
  - intros c Hc. rewrite Hgrid in Hc. change (accum e c) with (a c).
    rewrite (Ha c Hc).
    apply Qmult_le_0_compat; [unfold cell_area, Qle; simpl; lia|].
    apply qn_nonneg.
  - intros c Hc. rewrite Hgrid in Hc. change (h e c) with (hh c).
    destruct (Hhh c). destruct (HB c Hc). lra.
Qed.



(** ** Several steps of the two pipelines *)

(** [n] executions of the pipeline of [FastScape_RBP]. *)
Fixpoint RBP_steps (pow_meq : Q -> Q) (fuel : nat) (n : nat) (st : FastScape)
  : option FastScape :=
  match n with
  | O => Some st
  | S n' => match RBP.step pow_meq fuel st with
            | Some st' => RBP_steps pow_meq fuel n' st'
            | None => None
            end
  end.

Lemma serial_steps_same pow_meq fuel fuelP n :
  forall st1 st2 sG sP,
    run_inv st1 -> same_terrain st1 st2 ->
    0 < width st1 -> 0 < height st1 ->
    steps pow_meq fuel n st1 = Some sG ->
    RBP_steps pow_meq fuelP n st2 = Some sP ->
    same_terrain sG sP.
Proof.
  induction n as [|n IH]; intros st1 st2 sG sP Hri Hsame HW HH HG HP.
  - cbn [steps RBP_steps] in HG, HP. inversion HG; inversion HP; subst.
    exact Hsame.
  - cbn [steps RBP_steps] in HG, HP.
    destruct (step pow_meq fuel st1) as [s1|] eqn:Hs1; [|discriminate].
    destruct (RBP.step pow_meq fuelP st2) as [s2|] eqn:Hs2; [|discriminate].
    assert (Hsame1 := serial_step_same pow_meq st1 st2 fuel fuelP s1 s2
                        (ri_shape st1 Hri) Hsame HW HH Hs1 Hs2).
    assert (Hri1 := step_run_inv pow_meq fuel st1 s1 Hri Hs1).
    destruct (step_dims pow_meq fuel st1 s1 Hri Hs1) as [Hw1 Hh1].
    apply (IH s1 s2 sG sP Hri1 Hsame1); [lia | lia | exact HG | exact HP].
Qed.



(** ** The capacity of the stack in the seed loops *)

Lemma filter_length_le {A : Type} (p : A -> bool) l :
  (length (filter p l) <= length l)%nat.
Proof.
  induction l as [|a l IH]; cbn [filter length]; [lia|].
  destruct (p a); cbn [length]; lia.
Qed.

Lemma filter_length_full {A : Type} (p : A -> bool) l :
  length (filter p l) = length l <-> forall a, In a l -> p a = true.
Proof.
  induction l as [|a l IH]; cbn [filter length].
  - split; [intros _ a [] | reflexivity].
  - assert (Hle := filter_length_le p l). destruct (p a) eqn:Hp.
    + cbn [length]. split.
      * intros He b [<- | Hb]; [exact Hp|]. apply IH; [lia | exact Hb].
      * intros Hall. f_equal. apply IH. intros b Hb. apply Hall. now right.
    + split; [lia|]. intros Hall.
      rewrite (Hall a (or_introl eq_refl)) in Hp. discriminate.
Qed.

(** X22: the seed loop of [RBP.GenerateOrder] pushes every cell without a
    receiver, so it ends with [nstack = size], the value that
    [assert(nstack<stack_width)] excludes, exactly when no cell of the grid
    has a receiver; otherwise it ends with [nstack < size]. *)
Theorem X22_serial_seed_count :
  forall st, 0 <= size st ->
    let o := RBP.load_seeds (mkOrder st 0 0 0) in
    0 <= nstack o <= size st
    /\ (nstack o = size st <->
        forall c, 0 <= c < size st -> rec st c = NO_FLOW).
Proof.
  intros st Hsz o. unfold o. rewrite RBP_load_seeds_push.
  destruct (push_all_spec (seeds_all st) (mkOrder st 0 0 0))
    as (s' & _ & Hns & _); [cbn; lia|].
  change (o_st (mkOrder st 0 0 0)) with st. rewrite Hns.
  change (nstack (mkOrder st 0 0 0)) with 0. unfold seeds_all.
  assert (Hle := filter_length_le (fun c => rec st c =? NO_FLOW)
                   (zrange 0 (size st))).
  assert (Hfull := filter_length_full (fun c => rec st c =? NO_FLOW)
                     (zrange 0 (size st))).
  rewrite zrange_length in Hle, Hfull. split; [lia|]. split.
  - intros He c Hc. apply Z.eqb_eq. apply Hfull; [lia|].
    now apply In_zrange.
  - intros Hall.
    assert (Hl : length (filter (fun c => rec st c =? NO_FLOW)
                           (zrange 0 (size st)))
                 = Z.to_nat (size st - 0)).
    { apply Hfull. intros c Hc. apply In_zrange in Hc. apply Z.eqb_eq.
      now apply Hall. }
    rewrite Hl. lia.
Qed.

Lemma X22_witness :
  0 <= size (flat_start 5)
  /\ nstack (RBP.load_seeds (mkOrder (flat_start 5) 0 0 0))
     <= size (flat_start 5).
Proof.
  assert (Hsz : 0 <= size (flat_start 5)) by (vm_compute; discriminate).
  split; [exact Hsz|].
  pose proof (X22_serial_seed_count (flat_start 5) Hsz) as H.
  cbv zeta in H. exact (proj2 (proj1 H)).
Defined.

(** ** The accumulated area at the sinks *)

Lemma list_sum_map_add {A : Type} (f f' : A -> nat) l :
  list_sum (map (fun a => (f a + f' a)%nat) l)
  = (list_sum (map f l) + list_sum (map f' l))%nat.
Proof.
  induction l as [|a l IH]; [reflexivity|].
  change (list_sum (map (fun a => (f a + f' a)%nat) (a :: l)))
    with ((f a + f' a) + list_sum (map (fun a => (f a + f' a)%nat) l))%nat.
  change (list_sum (map f (a :: l))) with (f a + list_sum (map f l))%nat.
  change (list_sum (map f' (a :: l))) with (f' a + list_sum (map f' l))%nat.
  lia.
Qed.

Lemma list_sum_map_zero {A : Type} (f : A -> nat) l :
  (forall a, In a l -> f a = O) -> list_sum (map f l) = O.
Proof.
  induction l as [|a l IH]; intros Hf; [reflexivity|].
  change (list_sum (map f (a :: l))) with (f a + list_sum (map f l))%nat.
  rewrite (Hf a) by now left. rewrite IH; [reflexivity|].
  intros b Hb. apply Hf. now right.
Qed.

Lemma count_unique (q : Z -> bool) (R : list Z) r0 :
  NoDup R -> In r0 R -> q r0 = true ->
  (forall r, In r R -> q r = true -> r = r0) ->
  list_sum (map (fun r => if q r then 1%nat else O) R) = 1%nat.
Proof.
  induction R as [|r R IH]; intros Hnd Hin Hq Huniq; [destruct Hin|].
  change (list_sum (map (fun r => if q r then 1%nat else O) (r :: R)))
    with ((if q r then 1 else 0)
          + list_sum (map (fun r => if q r then 1%nat else O) R))%nat.
  inversion Hnd as [|? ? Hnotin Hnd']; subst.
  destruct Hin as [-> | Hin].
  - rewrite Hq. rewrite list_sum_map_zero; [reflexivity|].
    intros b Hb. destruct (q b) eqn:Hqb; [|reflexivity].
    exfalso. apply Hnotin.
    now rewrite <- (Huniq b (or_intror Hb) Hqb).
  - destruct (q r) eqn:Hqr.
    + exfalso. apply Hnotin.
      now rewrite (Huniq r (or_introl eq_refl) Hqr).
    + rewrite IH; auto. intros b Hb. apply Huniq. now right.
Qed.

(** If every element of [l] is claimed by exactly one element of [R], the
    sizes of the claimed parts add up to the size of [l]. *)
Lemma partition_count (p : Z -> Z -> bool) (R l : list Z) :
  NoDup R ->
  (forall y, In y l ->
     exists r, In r R /\ p r y = true
               /\ forall r', In r' R -> p r' y = true -> r' = r) ->
  list_sum (map (fun r => length (filter (p r) l)) R) = length l.
Proof.
  intros Hnd. induction l as [|y l IH]; intros Hall.
  - cbn [filter length]. now apply list_sum_map_zero.
  - assert (Hstep : forall r,
              length (filter (p r) (y :: l))
              = ((if p r y then 1 else 0) + length (filter (p r) l))%nat).
    { intros r. cbn [filter]. destruct (p r y); reflexivity. }
    rewrite (map_ext _ _ Hstep), list_sum_map_add.
    rewrite IH by (intros z Hz; apply Hall; now right).
    destruct (Hall y (or_introl eq_refl)) as (r0 & Hr0 & Hp0 & Huniq).
    rewrite (count_unique (fun r => p r y) R r0 Hnd Hr0 Hp0 Huniq).
    reflexivity.
Qed.

Lemma reach_from_sink st r x :
  rec st r = NO_FLOW -> reach st r x -> x = r.
Proof.
  intros Hr Hreach. inversion Hreach; subst; [reflexivity | contradiction].
Qed.


